(** * Allocation macros of [camkes/templates/macros.py]

    A shallow embedding of the badge allocators, the virtqueue client-id
    allocator, the integrity-label canonicaliser and the device-tree
    interrupt parser, together with the properties checked against them.

    Python integers are unbounded, so badge values live in [Z] and the
    bit operators are [Z.land], [Z.lor], [Z.lnot], [Z.shiftl].  Exceptions
    are values of [py_error] threaded through the [result] monad.  The
    dictionary [group_labels] is an association list in insertion order,
    the set [groups] a [gset string].  The notification allocator is
    embedded a second time, in [Stored], with the lists it makes and
    hands out kept in a store that outlives the call. *)

From Stdlib Require Import ZArith Lia.
From stdpp Require Import base list strings pretty gmap.

Local Open Scope string_scope.
Local Open Scope Z_scope.
Local Open Scope list_scope.

(** ** Exceptions *)

(** A cell of an [interrupts] property: the values are expected to be
    integers, anything else is kept as the text it was decoded to. *)
Inductive cell : Type :=
  | CInt (z : Z)
  | CStr (s : string).

(** The [TemplateError]s the macros construct, by the message they carry. *)
Inductive template_error : Type :=
  | CycleInGroupLabelling (seen : list string)
      (* 'cycle in group labelling: %s' % ', '.join(seen) *)
  | ValuesPerInterrupt (found : nat) (cells : nat)
      (* 'Found {} values, but expecting {} per interrupt' *)
  | PeripheralHasInterrupts (num : nat) (max : Z)
      (* 'Peripheral has {} interrupts, max. {} are supported' *)
  | NotANumber (i num cells idx : nat) (name : string) (val : cell).
      (* 'Error parsing interrupt {}/{} (cells={}, idx={}): {} "{}" is not a number' *)

Inductive py_error : Type :=
  | TemplateError (e : template_error)
  | CouldntAllocateNotificationBadge (end_str : string)
      (* Exception("Couldn't allocate notification badge for %s" % end) *)
  | CouldntAllocateEndpointBadge (end_str : string)
      (* Exception("Couldn't allocate endpoint badge for %s" % end) *)
  | TypeError
  | AttributeError
  | IndexError
  | ValueError
  | OutOfFuel.
      (* not a Python exception: the bound the model puts on a recursion
         or a loop was reached; shown below never to happen *)

Inductive result (A : Type) : Type :=
  | Ok (a : A)
  | Raise (e : py_error).
Arguments Ok {A} a.
Arguments Raise {A} e.

Definition bind {A B : Type} (r : result A) (k : A -> result B) : result B :=
  match r with
  | Ok a => k a
  | Raise e => Raise e
  end.

Notation "'let*' x ':=' r 'in' k" := (bind r (fun x => k))
  (at level 10, x name, r at level 100, k at level 200).

(** [for x in xs: ys.append(f x)] with [f] allowed to raise. *)
Fixpoint for_each {A B : Type} (f : A -> result B) (xs : list A) : result (list B) :=
  match xs with
  | [] => Ok []
  | x :: xs' => let* y := f x in let* ys := for_each f xs' in Ok (y :: ys)
  end.

(** [l[i]] on a Python list with a non-negative index. *)
Definition index {A : Type} (l : list A) (i : nat) : result A :=
  match l !! i with
  | Some a => Ok a
  | None => Raise IndexError
  end.

(** ** Device-tree nodes and interrupt descriptors *)

(** What [node.get('interrupts')] and [node.get('interrupts_extended')]
    answer; [None] is Python's [None]. *)
Record dtb_node : Type := {
  interrupts : option (list cell);
  interrupts_extended : option (list cell)
}.

(** [{'irq': ..., 'trigger': ...}].  On the ARM path [irq] is whatever the
    cell held, so it is a [cell] and not a number. *)
Record descriptor : Type := {
  irq : cell;
  trigger : Z
}.

(** [v + 32]: text plus a number is a [TypeError]. *)
Definition py_add (v : cell) (n : Z) : result cell :=
  match v with
  | CInt z => Ok (CInt (z + n))
  | CStr _ => Raise TypeError
  end.

(** [v < n]: ordering text against a number is a [TypeError]. *)
Definition py_lt (v : cell) (n : Z) : result bool :=
  match v with
  | CInt z => Ok (z <? n)
  | CStr _ => Raise TypeError
  end.

(** [isinstance(v, numbers.Integral) and (v == 0)] *)
Definition is_zero_int (v : cell) : bool :=
  match v with CInt z => z =? 0 | CStr _ => false end.

Section Parser.
(** [is_arch_arm] comes from [camkes.templates.arch_helpers]. *)
Variable is_arch_arm : string -> bool.

(** One turn of the loop of the ARM branch. *)
Definition arm_interrupt (ints : list cell) (is_extended_interrupts : bool)
    (i : nat) : result descriptor :=
  let skip := if is_extended_interrupts then 1%nat else 0%nat in
  let* _trigger := index ints (i * 3 + 2 + skip)%nat in
  let* _irq := index ints (i * 3 + 1 + skip)%nat in
  let* _irq_spi := index ints (i * 3 + 0 + skip)%nat in
  let* _irq := (if is_zero_int _irq_spi then py_add _irq 32 else Ok _irq) in
  let* lt4 := py_lt _trigger 4 in
  Ok {| irq := _irq; trigger := if lt4 then 1 else 0 |}.

(** [parse_int(offs, name)] of the generic branch. *)
Definition parse_int (ints : list cell) (num_interrupts interrupt_cells i : nat)
    (offs : nat) (name : string) : result Z :=
  let idx := (i * interrupt_cells + offs)%nat in
  let* val := index ints idx in
  match val with
  | CInt z => Ok z
  | CStr _ => Raise (TemplateError
      (NotANumber (i + 1) num_interrupts interrupt_cells idx name val))
  end.

(** One turn of the loop of the generic branch; [interrupt_cells] is 1 or 3. *)
Definition generic_interrupt (arch : string) (ints : list cell)
    (num_interrupts interrupt_cells : nat) (i : nat) : result descriptor :=
  let three := Nat.eqb 3 interrupt_cells in
  let offs_irq := if three then 1%nat else 0%nat in
  let* irq_ := parse_int ints num_interrupts interrupt_cells i offs_irq "id" in
  let* irq_flags :=
    (if three
     then let* f := parse_int ints num_interrupts interrupt_cells i 2 "trigger" in Ok (Some f)
     else Ok None) in
  let* irq_type :=
    (if three
     then let* t := parse_int ints num_interrupts interrupt_cells i 0 "type" in Ok (Some t)
     else Ok None) in
  let is_edge_triggered :=
    match irq_flags with
    | None => true
    | Some f => negb (Z.land f 3 =? 0)
    end in
  let is_arm_spi :=
    match irq_type with
    | None => false
    | Some t => is_arch_arm arch && (0 =? t)
    end in
  Ok {| irq := CInt (if is_arm_spi then irq_ + 32 else irq_);
        trigger := if is_edge_triggered then 1 else 0 |}.

Definition parse_dtb_node_interrupts (node : dtb_node) (max_num_interrupts : Z)
    (arch : string) : result (list descriptor) :=
  let found :=
    match interrupts node with
    | Some l => Some (l, false)
    | None =>
        match interrupts_extended node with
        | Some l => Some (l, true)
        | None => None
        end
    end in
  match found with
  | None => Ok []
  | Some (ints, is_extended_interrupts) =>
      if is_arch_arm arch then
        let num_interrupts :=
          if is_extended_interrupts
          then (length ints / 4)%nat
          else (length ints / 3)%nat in
        if negb (max_num_interrupts =? -1) && (Z.of_nat num_interrupts >? max_num_interrupts)
        then
          (* raise TemplateError('... %d ...') % (max_num_interrupts):
             the [%] is applied to the exception object, which has no
             such operator, so what is raised is a TypeError. *)
          Raise TypeError
        else
          for_each (arm_interrupt ints is_extended_interrupts) (seq 0 num_interrupts)
      else
        let dropped :=
          if is_extended_interrupts
          then (if (1 <? length ints)%nat then Some (drop 1 ints) else None)
          else Some ints in
        match dropped with
        | None => Ok []
        | Some ints =>
            let interrupt_cells := if (length ints <? 3)%nat then 1%nat else 3%nat in
            if negb (Nat.eqb 0 (length ints mod interrupt_cells))
            then Raise (TemplateError (ValuesPerInterrupt (length ints) interrupt_cells))
            else
              let num_interrupts := (length ints / interrupt_cells)%nat in
              if negb (max_num_interrupts =? -1)
                 && (Z.of_nat num_interrupts >? max_num_interrupts)
              then Raise (TemplateError
                     (PeripheralHasInterrupts num_interrupts max_num_interrupts))
              else
                for_each (generic_interrupt arch ints num_interrupts interrupt_cells)
                         (seq 0 num_interrupts)
        end
  end.
End Parser.

(** ** The component graph

    The classes of [camkes.ast] are not part of this file's source; the
    records keep the attributes the macros read.  Python compares the
    objects with [is]: every object carries the identity it has in the
    run ([inst_id], [end_id]) and [is] compares those. *)

Record Instance : Type := {
  inst_id : nat;
  inst_name : string;          (* c.name *)
  address_space : string       (* c.address_space *)
}.

Record ConnectionEnd : Type := {
  end_id : nat;
  instance : Instance;         (* end.instance *)
  interface_name : string;     (* end.interface.name *)
  end_str : string             (* str(end) *)
}.

Record Attribute : Type := {
  attr_name : string;
  attr_default : bool          (* truth value of attr.default *)
}.

Record Connector : Type := {
  type_name : string;          (* c.type.name *)
  attributes : list Attribute
}.

Record Connection : Type := {
  conn_name : string;          (* c.name *)
  type : Connector;            (* c.type *)
  from_ends : list ConnectionEnd;
  to_ends : list ConnectionEnd
}.

Record Composition : Type := {
  instances : list Instance;
  connections : list Connection
}.

(** [a is b] on instances and on ends. *)
Definition is_instance (a b : Instance) : bool := Nat.eqb (inst_id a) (inst_id b).
Definition is_end (a b : ConnectionEnd) : bool := Nat.eqb (end_id a) (end_id b).

(** Modelled from the spec: [i in [...]] compares instances with the
    equality of [camkes.ast], which is not in this file's source; the
    spec has the objects of the graph equal by identity. *)
Definition instance_in (i : Instance) (l : list Instance) : bool :=
  existsb (is_instance i) l.

(** Modelled from the spec: [t.get_attribute(name)] is a method of
    [camkes.ast], which is not in this file's source; the spec has a
    connector type carry named attributes, each with a declared default.
    The first attribute of that name, or [None]. *)
Definition get_attribute (t : Connector) (name : string) : option Attribute :=
  List.find (fun a => String.eqb (attr_name a) name) (attributes t).

(** [t.get_attribute(name) and t.get_attribute(name).default] as a condition. *)
Definition attribute_set (t : Connector) (name : string) : bool :=
  match get_attribute t name with
  | Some a => attr_default a
  | None => false
  end.

(** ** The configuration

    [configuration[scope].get(key)], with the values at the type the
    macros use them at. *)
Record Configuration : Type := {
  get_int : string -> string -> option Z;
  get_bool : string -> string -> option bool;
  get_str : string -> string -> option string;
  (* [configuration[scope].get("dtb")], as the list under its 'query' key *)
  get_dtb : string -> option (list dtb_node)
}.

(** ** Loops that can return from the enclosing function *)

Inductive flow (R S : Type) : Type :=
  | Return (r : R)
  | Continue (s : S).
Arguments Return {R S} r.
Arguments Continue {R S} s.

(** Run [k] on the state unless the function has returned. *)
Definition and_then {R S T : Type} (r : result (flow R S))
    (k : S -> result (flow R T)) : result (flow R T) :=
  let* f := r in
  match f with
  | Return v => Ok (Return v)
  | Continue s => k s
  end.

(** ** global_endpoint_badges *)

(** The macro returns one badge, or the list of badges of an interrupt end. *)
Inductive badges : Type :=
  | Badge (b : Z)
  | IrqBadges (bs : list Z).

Module Notification.
Section WithConstants.
(** [get_libsel4_constant('seL4_Value_BadgeBits')] *)
Variable BadgeBits : nat.
Variable is_arch_arm : string -> bool.

Fixpoint set_next_badge_rec (fuel : nat) (end_ : string) (next_badge mask : Z)
    : result Z :=
  match fuel with
  | O => Raise OutOfFuel
  | S fuel' =>
      if next_badge >=? 2 ^ Z.of_nat BadgeBits
      then Raise (CouldntAllocateNotificationBadge end_)
      else
        let next_badge := if next_badge =? 0 then 1 else Z.shiftl next_badge 1 in
        if Z.land next_badge mask =? 0
        then set_next_badge_rec fuel' end_ next_badge mask
        else Ok next_badge
  end.

(** The cursor is 0 or a power of two, so it reaches [2 ^ BadgeBits] in
    at most [BadgeBits + 1] doublings and the call after that raises. *)
Definition set_next_badge (end_ : string) (next_badge mask : Z) : result Z :=
  set_next_badge_rec (S (S BadgeBits)) end_ next_badge mask.

Section Scan.
Variable configuration : Configuration.
Variable arch : string.
Variable end_ : ConnectionEnd.
Variable base mask : Z.

(** [for i in irqs: irq_badges.append(next_badge | base); next_badge = ...] *)
Fixpoint irq_loop (irqs : list descriptor) (next_badge : Z)
    : result (list Z * Z) :=
  match irqs with
  | [] => Ok ([], next_badge)
  | _ :: irqs' =>
      let b := Z.lor next_badge base in
      let* next_badge := set_next_badge (end_str end_) next_badge mask in
      let* r := irq_loop irqs' next_badge in
      Ok (b :: fst r, snd r)
  end.

(** [for to_end in c.to_ends] of a threadless hardware connection. *)
Fixpoint threadless_ends (ends : list ConnectionEnd) (next_badge : Z)
    : result (flow badges Z) :=
  match ends with
  | [] => Ok (Continue next_badge)
  | to_end :: ends' =>
      if negb (default false (get_bool configuration (end_str to_end) "generate_interrupts"))
      then threadless_ends ends' next_badge
      else
        let* dtb :=
          match get_dtb configuration (end_str to_end) with
          | None => Raise AttributeError
          | Some query => index query 0
          end in
        let* irqs := parse_dtb_node_interrupts is_arch_arm dtb (-1) arch in
        let* r := irq_loop irqs next_badge in
        if is_end end_ to_end
        then Ok (Return (IrqBadges (fst r)))
        else threadless_ends ends' (snd r)
  end.

(** [for i in c.from_ends] and [for i in c.to_ends] of a connector with
    a global endpoint. *)
Fixpoint global_ends (ends : list ConnectionEnd) (next_badge : Z)
    : result (flow badges Z) :=
  match ends with
  | [] => Ok (Continue next_badge)
  | i :: ends' =>
      if is_instance (instance i) (instance end_)
      then
        if is_end end_ i
        then Ok (Return (Badge (Z.lor next_badge base)))
        else
          let* next_badge := set_next_badge (end_str end_) next_badge mask in
          global_ends ends' next_badge
      else global_ends ends' next_badge
  end.

(** The body of [for c in composition.connections]: three [if]s in a row. *)
Definition connection_step (c : Connection) (next_badge : Z)
    : result (flow badges Z) :=
  and_then
    (if bool_decide (type_name (type c) ∈ ["seL4DTBHardwareThreadless"; "seL4DTBHWThreadless"])
        && instance_in (instance end_) (map instance (to_ends c))
     then threadless_ends (to_ends c) next_badge
     else Ok (Continue next_badge))
    (fun next_badge =>
  and_then
    (if attribute_set (type c) "from_global_endpoint"
     then global_ends (from_ends c) next_badge
     else Ok (Continue next_badge))
    (fun next_badge =>
     if attribute_set (type c) "to_global_endpoint"
     then global_ends (to_ends c) next_badge
     else Ok (Continue next_badge))).

Fixpoint scan (cs : list Connection) (next_badge : Z) : result badges :=
  match cs with
  | [] => Raise (CouldntAllocateNotificationBadge (end_str end_))
  | c :: cs' =>
      let* f := connection_step c next_badge in
      match f with
      | Return v => Ok v
      | Continue next_badge => scan cs' next_badge
      end
  end.
End Scan.

Definition base_of (configuration : Configuration) (end_ : ConnectionEnd) : Z :=
  default 1 (get_int configuration (inst_name (instance end_)) "global_endpoint_base").

Definition mask_of (configuration : Configuration) (end_ : ConnectionEnd) : Z :=
  default (Z.land (2 ^ Z.of_nat BadgeBits - 1) (Z.lnot (base_of configuration end_)))
    (get_int configuration (inst_name (instance end_)) "global_endpoint_mask").

Definition global_endpoint_badges (composition : Composition) (end_ : ConnectionEnd)
    (configuration : Configuration) (arch : string) : result badges :=
  let base := base_of configuration end_ in
  let mask := mask_of configuration end_ in
  let* next_badge := set_next_badge (end_str end_) 0 mask in
  scan configuration arch end_ base mask (connections composition) next_badge.
End WithConstants.
End Notification.

(** ** global_rpc_endpoint_badges *)

Module Rpc.
Section WithConstants.
Variable BadgeBits : nat.

Fixpoint set_next_badge_rec (fuel : nat) (end_ : string) (next_badge mask : Z)
    : result Z :=
  match fuel with
  | O => Raise OutOfFuel
  | S fuel' =>
      if next_badge >=? Z.min (2 ^ Z.of_nat BadgeBits) mask
      then Raise (CouldntAllocateEndpointBadge end_)
      else
        if negb (Z.land next_badge mask =? next_badge)
        then set_next_badge_rec fuel' end_
               (Z.land (Z.lnot mask) next_badge + next_badge) mask
        else Ok next_badge
  end.

(** Every repair clears the lowest disallowed bit and all below it, so
    after [BadgeBits] repairs of a value below [2 ^ BadgeBits] the next
    call returns or raises. *)
Definition set_next_badge (end_ : string) (next_badge mask : Z) : result Z :=
  set_next_badge_rec (S (S BadgeBits)) end_ next_badge mask.

Section Scan.
Variable end_ : ConnectionEnd.
Variable base mask : Z.

(** [for i2 in peers: badges.append(next_badge | base); next_badge = ...] *)
Fixpoint peer_loop (peers : list ConnectionEnd) (badges_ : list Z) (next_badge : Z)
    : result (list Z * Z) :=
  match peers with
  | [] => Ok (badges_, next_badge)
  | _ :: peers' =>
      let badges_ := (badges_ ++ [Z.lor next_badge base])%list in
      let* next_badge := set_next_badge (end_str end_) (next_badge + 1) mask in
      peer_loop peers' badges_ next_badge
  end.

(** [for i in ends], the state being [(badges, next_badge)]. *)
Fixpoint rpc_ends (ends peers : list ConnectionEnd) (st : list Z * Z)
    : result (flow (list Z) (list Z * Z)) :=
  match ends with
  | [] => Ok (Continue st)
  | i :: ends' =>
      if is_instance (instance i) (instance end_)
      then
        let* st := peer_loop peers (fst st) (snd st) in
        if is_end end_ i
        then Ok (Return (fst st))
        else rpc_ends ends' peers ([], snd st)
      else rpc_ends ends' peers st
  end.

Definition connection_step (c : Connection) (st : list Z * Z)
    : result (flow (list Z) (list Z * Z)) :=
  and_then
    (if attribute_set (type c) "from_global_rpc_endpoint"
     then rpc_ends (from_ends c) (to_ends c) st
     else Ok (Continue st))
    (fun st =>
     if attribute_set (type c) "to_global_rpc_endpoint"
     then rpc_ends (to_ends c) (from_ends c) st
     else Ok (Continue st)).

Fixpoint scan (cs : list Connection) (st : list Z * Z) : result (list Z) :=
  match cs with
  | [] => Raise (CouldntAllocateNotificationBadge (end_str end_))
  | c :: cs' =>
      let* f := connection_step c st in
      match f with
      | Return v => Ok v
      | Continue st => scan cs' st
      end
  end.
End Scan.

Definition base_of (configuration : Configuration) (end_ : ConnectionEnd) : Z :=
  default 0 (get_int configuration (inst_name (instance end_)) "global_rpc_endpoint_base").

Definition mask_of (configuration : Configuration) (end_ : ConnectionEnd) : Z :=
  default (2 ^ Z.of_nat BadgeBits - 2)
    (get_int configuration (inst_name (instance end_)) "global_rpc_endpoint_mask").

Definition global_rpc_endpoint_badges (composition : Composition)
    (end_ : ConnectionEnd) (configuration : Configuration) : result (list Z) :=
  let base := base_of configuration end_ in
  let mask := mask_of configuration end_ in
  let* next_badge := set_next_badge (end_str end_) 1 mask in
  scan end_ base mask (connections composition) ([], next_badge).
End WithConstants.
End Rpc.

(** ** virtqueue_get_client_id *)

(** [configuration[instance.name].get("%s_id" % i.interface.name)] *)
Definition pinned_id (configuration : Configuration) (inst : Instance)
    (i : ConnectionEnd) : option Z :=
  get_int configuration (inst_name inst) (interface_name i ++ "_id")%string.

(** The list [connections] the macro builds: the ends of [inst] on the
    seL4VirtQueues connections, in declaration order. *)
Definition virtqueue_ends (composition : Composition) (inst : Instance)
    : list ConnectionEnd :=
  flat_map
    (fun c =>
       if String.eqb (type_name (type c)) "seL4VirtQueues"
       then List.filter (fun i => is_instance (instance i) inst) (from_ends c ++ to_ends c)%list
       else [])
    (connections composition).

(** [for _ in ids]: the first [current_id] not in [ids], and the counter
    after it; [None] when the loop ends without a [break]. *)
Fixpoint next_free (iters ids : list (option Z)) (current_id : Z) : option Z * Z :=
  match iters with
  | [] => (None, current_id)
  | _ :: iters' =>
      if negb (bool_decide (Some current_id ∈ ids))
      then (Some current_id, current_id + 1)
      else next_free iters' ids (current_id + 1)
  end.

(** [for index, c in enumerate(connections)] *)
Fixpoint assign_ids (indices : list nat) (ids : list (option Z)) (current_id : Z)
    : list (option Z) :=
  match indices with
  | [] => ids
  | index :: indices' =>
      match ids !! index with
      | Some None =>
          let r := next_free ids ids current_id in
          let ids :=
            match fst r with
            | Some v => <[index := Some v]> ids
            | None => ids
            end in
          assign_ids indices' ids (snd r)
      | _ => assign_ids indices' ids current_id
      end
  end.

(** Modelled from the spec: [connections.index(end)] compares the ends
    with the equality of [camkes.ast], which is not in this file's source;
    the spec has ends equal by object identity. *)
Fixpoint list_index (end_ : ConnectionEnd) (l : list ConnectionEnd) : result nat :=
  match l with
  | [] => Raise ValueError
  | x :: l' =>
      if is_end x end_ then Ok O
      else let* n := list_index end_ l' in Ok (S n)
  end.

Definition virtqueue_get_client_id (composition : Composition) (end_ : ConnectionEnd)
    (configuration : Configuration) : result (option Z) :=
  let inst := instance end_ in
  let connections_ := virtqueue_ends composition inst in
  let ids := map (pinned_id configuration inst) connections_ in
  let ids := assign_ids (seq 0 (length connections_)) ids 0 in
  let* pos := list_index end_ connections_ in
  index ids pos.

(** ** integrity_group_labels *)

(** [group_labels] keeps its keys in insertion order, which is the order
    the final comprehension visits them in. *)
Definition dict : Type := list (string * string).

Fixpoint dict_get (k : string) (d : dict) : option string :=
  match d with
  | [] => None
  | (k', v) :: d' => if String.eqb k k' then Some v else dict_get k d'
  end.

(** [d[k] = v]: a known key keeps its place. *)
Fixpoint dict_set (k v : string) (d : dict) : dict :=
  match d with
  | [] => [(k, v)]
  | (k', v') :: d' =>
      if String.eqb k k' then (k, v) :: d' else (k', v') :: dict_set k v d'
  end.

Definition keys (d : dict) : list string := map fst d.

(** The [while group in group_labels] loop. *)
Fixpoint get_canonical_label_loop (fuel : nat) (group_labels : dict)
    (group : string) (seen : list string) : result string :=
  match fuel with
  | O => Raise OutOfFuel
  | S fuel' =>
      match dict_get group group_labels with
      | None => Ok group
      | Some group' =>
          if bool_decide (group' ∈ seen)
          then Raise (TemplateError (CycleInGroupLabelling seen))
          else get_canonical_label_loop fuel' group_labels group' (seen ++ [group'])%list
      end
  end.

(** Every turn of the loop puts a new key of [group_labels] in [seen], so
    there are at most as many turns as keys. *)
Definition get_canonical_label (group_labels : dict) (l : string) : result string :=
  get_canonical_label_loop (S (length group_labels)) group_labels l [l].

(** 1. Groups *)
Fixpoint label_groups (cs : list Instance) (group_labels : dict) : result dict :=
  match cs with
  | [] => Ok group_labels
  | c :: cs' =>
      if negb (String.eqb (address_space c) (inst_name c))
      then
        let* l := get_canonical_label group_labels (address_space c) in
        label_groups cs' (dict_set (inst_name c) l group_labels)
      else label_groups cs' group_labels
  end.

(** 2. Direct configuration *)
Fixpoint label_configured (configuration : Configuration) (cs : list Instance)
    (group_labels : dict) : result dict :=
  match cs with
  | [] => Ok group_labels
  | c :: cs' =>
      match get_str configuration (inst_name c) "integrity_label" with
      | Some l =>
          let* l' := get_canonical_label group_labels l in
          label_configured configuration cs' (dict_set (inst_name c) l' group_labels)
      | None => label_configured configuration cs' group_labels
      end
  end.

(** The set [groups] of a connection. *)
Definition connection_groups (group_labels : dict) (conn : Connection)
    : result (gset string) :=
  let* ls := for_each (fun e => get_canonical_label group_labels (inst_name (instance e)))
               (from_ends conn ++ to_ends conn)%list in
  Ok (list_to_set ls).

(** 3. Internal connections *)
Fixpoint label_connections (conns : list Connection) (group_labels : dict)
    : result dict :=
  match conns with
  | [] => Ok group_labels
  | conn :: conns' =>
      let* groups := connection_groups group_labels conn in
      match elements groups with
      | [g] => label_connections conns' (dict_set (conn_name conn) g group_labels)
      | _ => label_connections conns' group_labels
      end
  end.

Definition integrity_group_labels (composition : Composition)
    (configuration : Configuration) : result dict :=
  let* group_labels := label_groups (instances composition) [] in
  let* group_labels := label_configured configuration (instances composition) group_labels in
  let* group_labels := label_connections (connections composition) group_labels in
  for_each (fun cg => let* l := get_canonical_label group_labels (snd cg) in Ok (fst cg, l))
           group_labels.

(** ** Vocabulary of the statements *)

(** The number of interrupts the ARM branch reads off a node. *)
Definition arm_count (node : dtb_node) : nat :=
  match interrupts node, interrupts_extended node with
  | Some l, _ => (length l / 3)%nat
  | None, Some l => (length l / 4)%nat
  | None, None => 0%nat
  end.

(** The candidate one call of the notification [set_next_badge] moves the
    cursor to: 1 from 0, the cursor shifted left by one bit otherwise. *)
Definition next_candidate (cursor : Z) : Z :=
  if cursor =? 0 then 1 else Z.shiftl cursor 1.

(** A badge as it is emitted: a raw value inside the mask with the base
    or-ed into it. *)
Definition emitted (base mask badge : Z) : Prop :=
  exists raw, badge = Z.lor raw base /\ Z.land raw mask = raw.

(** The same, with the raw value between two cursors. *)
Definition emitted_between (base mask lo hi badge : Z) : Prop :=
  exists raw, badge = Z.lor raw base /\ Z.land raw mask = raw /\ lo <= raw < hi.

(** The cursor of the notification allocator after its first step. *)
Definition power_in_mask (mask c : Z) : Prop :=
  (exists k : nat, c = 2 ^ Z.of_nat k) /\ Z.land c mask = c.

(** The values one call of [global_endpoint_badges] hands out. *)
Definition badges_values (r : badges) : list Z :=
  match r with
  | Badge b => [b]
  | IrqBadges bs => bs
  end.

(** A result of [global_endpoint_badges] is sound when its values are
    emitted badges, distinct if the base is outside the mask. *)
Definition sound_badges (base mask : Z) (r : badges) : Prop :=
  Forall (emitted base mask) (badges_values r)
  /\ (Z.land base mask = 0 -> NoDup (badges_values r)).

(** What a loop of the notification scan leaves behind: a sound result,
    or a cursor to go on with. *)
Definition scan_post (base mask : Z) (f : flow badges Z) : Prop :=
  match f with
  | Return r => sound_badges base mask r
  | Continue c' => power_in_mask mask c'
  end.

(** The cursor of the RPC allocator. *)
Definition inside_mask (mask c : Z) : Prop := 0 <= c /\ Z.land c mask = c.

(** The state of the RPC scan between two ends: no badges collected, and
    the cursor inside the mask. *)
Definition rpc_state_ok (mask : Z) (st : list Z * Z) : Prop :=
  fst st = [] /\ inside_mask mask (snd st).

(** [end_] is an end of [c] and the other side of [c] has [n] ends. *)
Definition serves (end_ : ConnectionEnd) (c : Connection) (n : nat) : Prop :=
  (exists i, i ∈ from_ends c /\ is_end end_ i = true /\ length (to_ends c) = n)
  \/ (exists i, i ∈ to_ends c /\ is_end end_ i = true /\ length (from_ends c) = n).

(** What a loop of the RPC scan leaves behind when it starts with no
    badges collected: the badges of the [n] peers, or the cursor to go on
    with and again no badges. *)
Definition rpc_post (base mask : Z) (n : nat) (f : flow (list Z) (list Z * Z)) : Prop :=
  match f with
  | Return bs =>
      length bs = n /\ Forall (emitted base mask) bs
      /\ (Z.land base mask = 0 -> NoDup bs)
  | Continue st => fst st = [] /\ inside_mask mask (snd st)
  end.

(** Two calls of an allocator for two ends of one instance walk the same
    connections with the same cursor until one of them returns; the other
    goes on with a cursor above everything the first has returned.  A
    badge whose raw value is not below, or is below, a cursor: *)
Definition raw_above (base mask lo badge : Z) : Prop :=
  exists raw, badge = Z.lor raw base /\ Z.land raw mask = raw /\ lo <= raw.

Definition raw_below (base mask hi badge : Z) : Prop :=
  exists raw, badge = Z.lor raw base /\ Z.land raw mask = raw /\ raw < hi.

Section TwoCalls.
Context {R S : Type}.
Variables base mask : Z.
Variable values : R -> list Z.
Variable cursor : S -> Z.
Variable good : S -> Prop.

Definition above (lo : Z) (r : R) : Prop := Forall (raw_above base mask lo) (values r).
Definition below (hi : Z) (r : R) : Prop := Forall (raw_below base mask hi) (values r).

Definition apart (r1 r2 : R) : Prop :=
  exists mid, (below mid r1 /\ above mid r2) \/ (below mid r2 /\ above mid r1).

(** One call, from the cursor [c]. *)
Definition post_one (c : Z) (f : flow R S) : Prop :=
  match f with
  | Return r => above c r
  | Continue s => good s /\ c <= cursor s
  end.

(** Two calls from the same state. *)
Definition post_two (f1 f2 : flow R S) : Prop :=
  match f1, f2 with
  | Continue s1, Continue s2 => s1 = s2
  | Return r1, Continue s2 => below (cursor s2) r1
  | Continue s1, Return r2 => below (cursor s1) r2
  | Return r1, Return r2 => apart r1 r2
  end.

Definition sat_one (k : S -> result (flow R S)) : Prop :=
  forall s f, good s -> k s = Ok f -> post_one (cursor s) f.

Definition sat_two (k1 k2 : S -> result (flow R S)) : Prop :=
  forall s f1 f2, good s -> k1 s = Ok f1 -> k2 s = Ok f2 -> post_two f1 f2.
End TwoCalls.

(** The graph with the identities its objects have in another run. *)
Definition rename_instance (fi : nat -> nat) (i : Instance) : Instance :=
  {| inst_id := fi (inst_id i); inst_name := inst_name i;
     address_space := address_space i |}.

Definition rename_end (fi fe : nat -> nat) (e : ConnectionEnd) : ConnectionEnd :=
  {| end_id := fe (end_id e); instance := rename_instance fi (instance e);
     interface_name := interface_name e; end_str := end_str e |}.

Definition rename_connection (fi fe : nat -> nat) (c : Connection) : Connection :=
  {| conn_name := conn_name c; type := type c;
     from_ends := map (rename_end fi fe) (from_ends c);
     to_ends := map (rename_end fi fe) (to_ends c) |}.

Definition rename_composition (fi fe : nat -> nat) (c : Composition) : Composition :=
  {| instances := map (rename_instance fi) (instances c);
     connections := map (rename_connection fi fe) (connections c) |}.

(** A chain of names each of which [group_labels] redirects to the next. *)
Fixpoint redirects (group_labels : dict) (chain : list string) : Prop :=
  match chain with
  | x :: (y :: _) as rest => dict_get x group_labels = Some y /\ redirects group_labels rest
  | _ => True
  end.

(** [group_labels] as it is when the connections [pre] have been scanned. *)
Definition labels_before (composition : Composition) (configuration : Configuration)
    (pre : list Connection) : result dict :=
  let* group_labels := label_groups (instances composition) [] in
  let* group_labels := label_configured configuration (instances composition) group_labels in
  label_connections pre group_labels.

(** A connection all of whose ends resolve to one label [g] when it is
    scanned: it has an end, and the instance of every end of it has the
    canonical label [g] at that point. *)
Definition internal_when_scanned (composition : Composition)
    (configuration : Configuration) (pre : list Connection) (conn : Connection) : Prop :=
  exists group_labels g,
    labels_before composition configuration pre = Ok group_labels
    /\ (from_ends conn ++ to_ends conn)%list <> []
    /\ forall e, e ∈ (from_ends conn ++ to_ends conn)%list ->
          get_canonical_label group_labels (inst_name (instance e)) = Ok g.

(** The one error of the label canonicaliser. *)
Definition is_cycle_error (e : py_error) : Prop :=
  exists seen, e = TemplateError (CycleInGroupLabelling seen).

(** ** Sample graphs and configurations *)

(** An architecture predicate in the way of [arch_helpers.is_arch_arm]. *)
Definition arm_tags (arch : string) : bool :=
  bool_decide (arch ∈ ["aarch32"; "arm_hyp"; "aarch64"]).

Definition node_of (ints : list cell) : dtb_node :=
  {| interrupts := Some ints; interrupts_extended := None |}.

Definition node_extended (ints : list cell) : dtb_node :=
  {| interrupts := None; interrupts_extended := Some ints |}.

(** A configuration with nothing set, and one more integer setting. *)
Definition no_configuration : Configuration :=
  {| get_int := fun _ _ => None; get_bool := fun _ _ => None;
     get_str := fun _ _ => None; get_dtb := fun _ => None |}.

Definition with_int (scope key : string) (v : Z) (cfg : Configuration) : Configuration :=
  {| get_int := fun s k =>
       if String.eqb s scope && String.eqb k key then Some v else get_int cfg s k;
     get_bool := get_bool cfg; get_str := get_str cfg; get_dtb := get_dtb cfg |}.

Definition with_str (scope key v : string) (cfg : Configuration) : Configuration :=
  {| get_int := get_int cfg; get_bool := get_bool cfg;
     get_str := fun s k =>
       if String.eqb s scope && String.eqb k key then Some v else get_str cfg s k;
     get_dtb := get_dtb cfg |}.

(** One server called by three clients over a connector whose [to] side
    has a global RPC endpoint. *)
Definition rpc_connector : Connector :=
  {| type_name := "seL4RPCCall";
     attributes := [ {| attr_name := "to_global_rpc_endpoint"; attr_default := true |} ] |}.

Definition server : Instance :=
  {| inst_id := 0; inst_name := "server"; address_space := "server" |}.

Definition client (n : nat) (name : string) : Instance :=
  {| inst_id := S n; inst_name := name; address_space := name |}.

Definition server_end : ConnectionEnd :=
  {| end_id := 0; instance := server; interface_name := "s"; end_str := "server.s" |}.

Definition client_end (n : nat) (name : string) : ConnectionEnd :=
  {| end_id := S n; instance := client n name; interface_name := "c";
     end_str := (name ++ ".c")%string |}.

Definition rpc_composition : Composition :=
  {| instances := [server; client 0 "c0"; client 1 "c1"; client 2 "c2"];
     connections :=
       [ {| conn_name := "conn"; type := rpc_connector;
            from_ends := [client_end 0 "c0"; client_end 1 "c1"; client_end 2 "c2"];
            to_ends := [server_end] |} ] |}.

(** A receiver of 28 notifications, one connection each, over a connector
    whose [to] side has a global notification endpoint. *)
Definition notification_connector : Connector :=
  {| type_name := "seL4GlobalAsynch";
     attributes := [ {| attr_name := "to_global_endpoint"; attr_default := true |} ] |}.

Definition receiver : Instance :=
  {| inst_id := 0; inst_name := "a"; address_space := "a" |}.

Definition emitter : Instance :=
  {| inst_id := 1; inst_name := "b"; address_space := "b" |}.

Definition receiver_end (n : nat) : ConnectionEnd :=
  {| end_id := 2 * n; instance := receiver;
     interface_name := ("ev" ++ pretty n)%string;
     end_str := ("a.ev" ++ pretty n)%string |}.

Definition emitter_end (n : nat) : ConnectionEnd :=
  {| end_id := 2 * n + 1; instance := emitter;
     interface_name := ("out" ++ pretty n)%string;
     end_str := ("b.out" ++ pretty n)%string |}.

Definition notification_composition (n : nat) : Composition :=
  {| instances := [receiver; emitter];
     connections :=
       map (fun k => {| conn_name := ("conn" ++ pretty k)%string;
                        type := notification_connector;
                        from_ends := [emitter_end k];
                        to_ends := [receiver_end k] |})
           (seq 0 n) |}.

(** A virtual machine with three virtqueues to a driver. *)
Definition virtqueue_connector : Connector :=
  {| type_name := "seL4VirtQueues"; attributes := [] |}.

Definition vm : Instance :=
  {| inst_id := 0; inst_name := "vm"; address_space := "vm" |}.

Definition driver : Instance :=
  {| inst_id := 1; inst_name := "driver"; address_space := "driver" |}.

Definition vm_end (n : nat) : ConnectionEnd :=
  {| end_id := 2 * n; instance := vm;
     interface_name := ("q" ++ pretty n)%string;
     end_str := ("vm.q" ++ pretty n)%string |}.

Definition driver_end (n : nat) : ConnectionEnd :=
  {| end_id := 2 * n + 1; instance := driver;
     interface_name := ("p" ++ pretty n)%string;
     end_str := ("driver.p" ++ pretty n)%string |}.

Definition virtqueue_composition : Composition :=
  {| instances := [vm; driver];
     connections :=
       map (fun k => {| conn_name := ("vq" ++ pretty k)%string;
                        type := virtqueue_connector;
                        from_ends := [vm_end k];
                        to_ends := [driver_end k] |})
           (seq 0 3) |}.

(** Two instances in the group [grp] with a connection between them, and
    a third instance on its own connected to the first. *)
Definition grouped (n : nat) (name : string) : Instance :=
  {| inst_id := n; inst_name := name; address_space := "grp" |}.

Definition alone : Instance :=
  {| inst_id := 2; inst_name := "z"; address_space := "z" |}.

Definition end_of (n : nat) (i : Instance) (iface : string) : ConnectionEnd :=
  {| end_id := n; instance := i; interface_name := iface;
     end_str := (inst_name i ++ "." ++ iface)%string |}.

Definition grouped_composition : Composition :=
  {| instances := [grouped 0 "x"; grouped 1 "y"; alone];
     connections :=
       [ {| conn_name := "inner"; type := rpc_connector;
            from_ends := [end_of 0 (grouped 0 "x") "out"];
            to_ends := [end_of 1 (grouped 1 "y") "in"] |};
         {| conn_name := "outer"; type := rpc_connector;
            from_ends := [end_of 2 (grouped 0 "x") "out2"];
            to_ends := [end_of 3 alone "in"] |} ] |}.

Definition lone_composition : Composition :=
  {| instances := [alone]; connections := [] |}.

(** * The notification allocator with its objects in a store

    [irq_badges = []] makes a new list object, [irq_badges.append] changes
    that object in place, and [return irq_badges] hands the object itself
    to the caller, who may keep it and change it.  To say that no state of
    one call reaches the next, these list objects are kept here in a store
    that outlives the call: the allocator takes the store as it is left by
    whatever ran before and leaves it to whatever runs next.  The integers
    ([next_badge], [base], [mask]) are values and need no store, and the
    list of descriptors that [parse_dtb_node_interrupts] returns is only
    read.  The cursor step is the one of [Notification]. *)

Module Stored.

(** The list objects made so far, each at the address that is its place. *)
Abbreviation store := (list (list Z)).

(** What the macro returns: a badge, or the list object of the badges. *)
Inductive value : Type :=
  | Int (z : Z)
  | ListObject (address : nat).

(** A computation on the store; an exception leaves the store as it is
    at that point. *)
Definition run (A : Type) : Type := store -> result A * store.

Definition ret {A : Type} (a : A) : run A := fun s => (Ok a, s).

(** A computation that does not touch the store. *)
Definition lift {A : Type} (r : result A) : run A := fun s => (r, s).

Definition bind_run {A B : Type} (m : run A) (k : A -> run B) : run B :=
  fun s =>
    match m s with
    | (Ok a, s') => k a s'
    | (Raise e, s') => (Raise e, s')
    end.

Notation "'let!' x ':=' m 'in' k" := (bind_run m (fun x => k))
  (at level 10, x name, m at level 100, k at level 200).

(** [[]]: a new empty list object, at the next address. *)
Definition new_list : run nat := fun s => (Ok (length s), (s ++ [[]])%list).

(** [l.append(x)]: the object at the address gets [x] at its end. *)
Definition append (address : nat) (x : Z) : run unit :=
  fun s => (Ok tt, alter (fun xs => (xs ++ [x])%list) address s).

Definition and_then_run {R S T : Type} (m : run (flow R S))
    (k : S -> run (flow R T)) : run (flow R T) :=
  let! f := m in
  match f with
  | Return v => ret (Return v)
  | Continue s => k s
  end.

Section WithConstants.
Variable BadgeBits : nat.
Variable is_arch_arm : string -> bool.

Section Scan.
Variable configuration : Configuration.
Variable arch : string.
Variable end_ : ConnectionEnd.
Variable base mask : Z.

(** [for i in irqs: irq_badges.append(next_badge | base); next_badge = ...] *)
Fixpoint irq_loop (irqs : list descriptor) (irq_badges : nat) (next_badge : Z)
    : run Z :=
  match irqs with
  | [] => ret next_badge
  | _ :: irqs' =>
      let! _ := append irq_badges (Z.lor next_badge base) in
      let! next_badge :=
        lift (Notification.set_next_badge BadgeBits (end_str end_) next_badge mask) in
      irq_loop irqs' irq_badges next_badge
  end.

(** [for to_end in c.to_ends] of a threadless hardware connection. *)
Fixpoint threadless_ends (ends : list ConnectionEnd) (next_badge : Z)
    : run (flow value Z) :=
  match ends with
  | [] => ret (Continue next_badge)
  | to_end :: ends' =>
      if negb (default false (get_bool configuration (end_str to_end) "generate_interrupts"))
      then threadless_ends ends' next_badge
      else
        let! dtb :=
          lift (match get_dtb configuration (end_str to_end) with
                | None => Raise AttributeError
                | Some query => index query 0
                end) in
        let! irqs := lift (parse_dtb_node_interrupts is_arch_arm dtb (-1) arch) in
        let! irq_badges := new_list in
        let! next_badge := irq_loop irqs irq_badges next_badge in
        if is_end end_ to_end
        then ret (Return (ListObject irq_badges))
        else threadless_ends ends' next_badge
  end.

(** [for i in c.from_ends] and [for i in c.to_ends] of a connector with
    a global endpoint. *)
Fixpoint global_ends (ends : list ConnectionEnd) (next_badge : Z)
    : run (flow value Z) :=
  match ends with
  | [] => ret (Continue next_badge)
  | i :: ends' =>
      if is_instance (instance i) (instance end_)
      then
        if is_end end_ i
        then ret (Return (Int (Z.lor next_badge base)))
        else
          let! next_badge :=
            lift (Notification.set_next_badge BadgeBits (end_str end_) next_badge mask) in
          global_ends ends' next_badge
      else global_ends ends' next_badge
  end.

Definition connection_step (c : Connection) (next_badge : Z) : run (flow value Z) :=
  and_then_run
    (if bool_decide (type_name (type c) ∈ ["seL4DTBHardwareThreadless"; "seL4DTBHWThreadless"])
        && instance_in (instance end_) (map instance (to_ends c))
     then threadless_ends (to_ends c) next_badge
     else ret (Continue next_badge))
    (fun next_badge =>
  and_then_run
    (if attribute_set (type c) "from_global_endpoint"
     then global_ends (from_ends c) next_badge
     else ret (Continue next_badge))
    (fun next_badge =>
     if attribute_set (type c) "to_global_endpoint"
     then global_ends (to_ends c) next_badge
     else ret (Continue next_badge))).

Fixpoint scan (cs : list Connection) (next_badge : Z) : run value :=
  match cs with
  | [] => lift (Raise (CouldntAllocateNotificationBadge (end_str end_)))
  | c :: cs' =>
      let! f := connection_step c next_badge in
      match f with
      | Return v => ret v
      | Continue next_badge => scan cs' next_badge
      end
  end.
End Scan.

Definition global_endpoint_badges (composition : Composition) (end_ : ConnectionEnd)
    (configuration : Configuration) (arch : string) : run value :=
  let base := Notification.base_of configuration end_ in
  let mask := Notification.mask_of BadgeBits configuration end_ in
  let! next_badge :=
    lift (Notification.set_next_badge BadgeBits (end_str end_) 0 mask) in
  scan configuration arch end_ base mask (connections composition) next_badge.
End WithConstants.

(** What the caller sees of an outcome in the store it is left with: the
    badge, the contents of the list object, or the exception. *)
Definition observe (outcome : result value * store) : result badges :=
  match fst outcome with
  | Ok (Int b) => Ok (Badge b)
  | Ok (ListObject address) => Ok (IrqBadges (default [] (snd outcome !! address)))
  | Raise e => Raise e
  end.

(** The list object an outcome refers to is one the call has made. *)
Definition fresh_in (before : store) (outcome : result value * store) : Prop :=
  match fst outcome with
  | Ok (ListObject address) =>
      (length before <= address < length (snd outcome))%nat
  | _ => True
  end.

(** A result of the allocator written on integers and lists and a result
    of the allocator on the store are the same: the same badge, or a list
    object made after [before] that holds the same badges in [after]. *)
Definition same_value (before after : store) (b : badges) (v : value) : Prop :=
  match b, v with
  | Badge b, Int b' => b = b'
  | IrqBadges bs, ListObject address =>
      (length before <= address)%nat /\ after !! address = Some bs
  | _, _ => False
  end.

Definition same_flow (before after : store) (f : flow badges Z) (g : flow value Z)
    : Prop :=
  match f, g with
  | Return b, Return v => same_value before after b v
  | Continue c, Continue c' => c = c'
  | _, _ => False
  end.

(** The computation on the store does what the one without it does, and
    leaves every object of [before] as it was. *)
Definition agrees {A B : Type} (same : store -> store -> A -> B -> Prop)
    (before : store) (pure : result A) (outcome : result B * store) : Prop :=
  before `prefix_of` snd outcome
  /\ match pure, fst outcome with
     | Ok a, Ok b => same before (snd outcome) a b
     | Raise e, Raise e' => e = e'
     | _, _ => False
     end.
End Stored.

(** A device with two interrupts on a threadless hardware connection. *)
Definition hardware_connector : Connector :=
  {| type_name := "seL4DTBHardwareThreadless"; attributes := [] |}.

Definition device : Instance :=
  {| inst_id := 0; inst_name := "dev"; address_space := "dev" |}.

Definition device_end : ConnectionEnd :=
  {| end_id := 0; instance := device; interface_name := "irq"; end_str := "dev.irq" |}.

Definition hardware_composition : Composition :=
  {| instances := [device];
     connections :=
       [ {| conn_name := "hw"; type := hardware_connector;
            from_ends := []; to_ends := [device_end] |} ] |}.

Definition hardware_configuration : Configuration :=
  {| get_int := fun _ _ => None;
     get_bool := fun s k =>
       if String.eqb s "dev.irq" && String.eqb k "generate_interrupts"
       then Some true else None;
     get_str := fun _ _ => None;
     get_dtb := fun s =>
       if String.eqb s "dev.irq"
       then Some [node_of [CInt 0; CInt 5; CInt 4; CInt 0; CInt 6; CInt 4]]
       else None |}.

(** * The other macros of the file *)

From Stdlib Require Import Ascii Sorted.

(** ** Their exceptions *)

Inductive macro_error : Type :=
  | AssertionError
  | ZeroDivisionError
  | NoTypeToFitValue (value : Z)
      (* Exception('No type to fit value %s' % value) *)
  | InvalidPermissionsAttribute (instance_name interface_name : string)
      (* TemplateError('invalid permissions attribute %s.%s_access' % ...) *)
  | ListIndexOutOfRange
      (* IndexError *)
  | FloatPower
      (* not a Python exception: [2 ** n] with a negative [n] is a float,
         and the model, which has integers only, stops there *)
  | LoopBound.
      (* not a Python exception: the bound the model puts on a loop was
         reached; shown never to happen *)

Inductive macro_result (A : Type) : Type :=
  | Done (a : A)
  | Fault (e : macro_error).
Arguments Done {A} a.
Arguments Fault {A} e.

(** ** Generation-time constant folding *)

(** [//] is [Z.div] and [%] is [Z.modulo]: both round towards minus
    infinity and give the remainder the sign of the divisor. *)
Definition ROUND_UP (x y : Z) : macro_result Z :=
  if negb (y >? 0) then Fault AssertionError
  else Done ((x + y - 1) / y * y).

Definition ROUND_DOWN (x y : Z) : macro_result Z :=
  if negb (y >? 0) then Fault AssertionError
  else Done (x / y * y).

(** ** Pages *)

Section Pages.
(** [page_sizes] comes from [capdl]. *)
Variable page_sizes : string -> list Z.

(** The [while size > multiple] loop: [turns] bounds its turns. *)
Fixpoint next_page_multiple_loop (turns : nat) (size multiple : Z) : macro_result Z :=
  if size >? multiple
  then match turns with
       | O => Fault LoopBound
       | S turns' => next_page_multiple_loop turns' size (multiple + 16384)
       end
  else Done multiple.

(** The loop adds 16384 to a value below [size] until it is not below it:
    [(size - multiple) / 16384 + 1] turns at most. *)
Definition next_page_multiple (size : Z) (arch : string) : macro_result Z :=
  match page_sizes arch with
  | [] => Fault ListIndexOutOfRange
  | multiple :: _ =>
      next_page_multiple_loop (Z.to_nat ((size - multiple) / 16384 + 1)) size multiple
  end.

Definition align_page_address (address : Z) (arch : string) : macro_result Z :=
  match page_sizes arch with
  | [] => Fault ListIndexOutOfRange
  | page_size :: _ => Done (Z.land address (Z.lnot (page_size - 1)))
  end.

(** [for sz in reversed(page_sizes(arch))] with its [break]. *)
Fixpoint first_fitting (size : Z) (sizes : list Z) : macro_result Z :=
  match sizes with
  | [] => Done 0
  | sz :: sizes' =>
      if size >=? sz
      then
        if sz =? 0 then Fault ZeroDivisionError
        else if size mod sz =? 0 then Done sz
        else first_fitting size sizes'
      else first_fitting size sizes'
  end.

Definition get_page_size (size : Z) (arch : string) : macro_result Z :=
  first_fitting size (reverse (page_sizes arch)).
End Pages.

(** ** Untyped objects over a range *)

Section Untypeds.
(** [ctz] comes from [capdl.util]. *)
Variable ctz : Z -> Z.

(** The [while ut_size > 0] loop, left by [break] or by its test. *)
Fixpoint fit_untyped (turns : nat) (ut_size remaining : Z) : macro_result Z :=
  if ut_size >? 0
  then
    if ut_size <=? remaining then Done ut_size
    else match turns with
         | O => Fault LoopBound
         | S turns' => fit_untyped turns' (ut_size / 2) remaining
         end
  else Done ut_size.

(** The [while remaining > 0] loop.  Halving reaches 0 from
    [current_alignment] in [log2 current_alignment + 1] turns. *)
Fixpoint untypeds_loop (turns : nat) (current remaining : Z) (uts : list (Z * Z))
    : macro_result (list (Z * Z)) :=
  if remaining >? 0
  then
    match turns with
    | O => Fault LoopBound
    | S turns' =>
        if ctz current <? 0 then Fault FloatPower
        else
          let current_alignment := 2 ^ ctz current in
          match fit_untyped (S (Z.to_nat (Z.log2 current_alignment)))
                  current_alignment remaining with
          | Fault e => Fault e
          | Done ut_size =>
              untypeds_loop turns' (current + ut_size) (remaining - ut_size)
                (uts ++ [(current, ctz ut_size)])
          end
    end
  else Done uts.

(** Every turn takes at least 1 off [remaining]. *)
Definition get_untypeds_from_range (start size : Z) : macro_result (list (Z * Z)) :=
  untypeds_loop (Z.to_nat size) start size [].
End Untypeds.

(** Untypeds [(address, size bits)] that follow one another from [from]
    to [to], each aligned to its size and inside [limit], and none that
    could be twice as large: the double would pass [limit] or would not
    be aligned. *)
Fixpoint covers (limit from : Z) (uts : list (Z * Z)) (to : Z) : Prop :=
  match uts with
  | [] => from = to
  | (address, bits) :: rest =>
      address = from /\ 0 <= bits /\ address mod 2 ^ bits = 0
      /\ address + 2 ^ bits <= limit
      /\ (limit < address + 2 ^ (bits + 1) \/ address mod 2 ^ (bits + 1) <> 0)
      /\ covers limit (address + 2 ^ bits) rest to
  end.

(** What [ctz] is expected to do on a positive number: the position of
    its lowest set bit. *)
Definition counts_trailing_zeros (ctz : Z -> Z) : Prop :=
  forall a, 0 < a ->
    0 <= ctz a /\ Z.testbit a (ctz a) = true
    /\ forall i, 0 <= i < ctz a -> Z.testbit a i = false.

(** A [ctz] to run the macro with. *)
Fixpoint trailing_zeros_of (p : positive) : Z :=
  match p with
  | xO p' => Z.succ (trailing_zeros_of p')
  | _ => 0
  end.

Definition trailing_zeros (a : Z) : Z :=
  match a with
  | Zpos p => trailing_zeros_of p
  | _ => -1
  end.

(** [sz] is a frame size a mapping of [size] bytes can be made of. *)
Definition fits (size sz : Z) : Prop := sz <= size /\ size mod sz = 0.

(** ** Types *)

(** A type is a name or a [Struct]. *)
Inductive camkes_type : Type :=
  | TName (s : string)
  | TStruct (name : string).

Definition show_type (t : camkes_type) : string :=
  match t with
  | TName s =>
      if String.eqb s "string" then "char *"
      else if String.eqb s "character" then "char"
      else if String.eqb s "boolean" then "bool"
      else s
  | TStruct name => ("struct " ++ name)%string
  end.






(** ** Permissions *)

(** An optional character of a pattern: taken off when it is there. *)
Definition optional (c : ascii) (s : string) : string :=
  match s with
  | String c' s' => if Ascii.eqb c c' then s' else s
  | EmptyString => s
  end.

Definition newline : string := String (Ascii.ascii_of_nat 10) EmptyString.

(** [re.match('^R?W?X?P?$', perm)]: [$] matches at the end of the text
    and before a newline that ends it. *)
Definition match_permissions (perm : string) : bool :=
  let rest := optional "P"%char (optional "X"%char (optional "W"%char (optional "R"%char perm))) in
  String.eqb rest "" || String.eqb rest newline.

Definition get_perm (configuration : Configuration) (instance_name interface_name : string)
    : macro_result string :=
  match get_str configuration instance_name (interface_name ++ "_access")%string with
  | None => Done "RWXP"
  | Some perm =>
      if String.eqb perm "" then Done "RWXP"
      else if negb (match_permissions perm)
           then Fault (InvalidPermissionsAttribute instance_name interface_name)
           else Done perm
  end.

(** The texts the pattern matches. *)
Definition permissions (r w x p nl : bool) : string :=
  ((if r then "R" else "") ++ (if w then "W" else "") ++ (if x then "X" else "")
   ++ (if p then "P" else "") ++ (if nl then newline else ""))%string.

(** ** Isabelle identifiers *)

(** [[a-zA-Z_]] *)
Definition is_letter_or_underscore (c : ascii) : bool :=
  let n := Ascii.nat_of_ascii c in
  ((65 <=? n) && (n <=? 90) || (97 <=? n) && (n <=? 122) || (n =? 95))%nat.

(** [n.replace('.', '\'')] *)
Fixpoint replace_dots (n : string) : string :=
  match n with
  | EmptyString => EmptyString
  | String c n' => String (if Ascii.eqb c "."%char then "'"%char else c) (replace_dots n')
  end.

(** The pattern of the assertion has no [$] and everything after its
    first character is optional: it matches when the first character does. *)
Definition isabelle_ident (n : string) : macro_result string :=
  match n with
  | String c _ =>
      if is_letter_or_underscore c then Done (replace_dots n) else Fault AssertionError
  | EmptyString => Fault AssertionError
  end.

(** [c] occurs in [s]. *)
Fixpoint occurs (c : ascii) (s : string) : bool :=
  match s with
  | EmptyString => false
  | String c' s' => Ascii.eqb c c' || occurs c s'
  end.

(** ** Thread control blocks and scheduling contexts *)

(** The attributes the macros set on a TCB and on a scheduling context;
    [configuration] is here the dictionary of one instance. *)
Record TCB : Type := {
  prio : Z;
  max_prio : Z;
  affinity : Z;
  domain : option Z            (* [None] is Python's [None] *)
}.

Record SC : Type := {
  period : Z;
  budget : Z;
  data : Z;
  size_bits : Z
}.

Record Options : Type := {
  default_priority : Z;
  default_max_priority : Z;
  default_affinity : Z;
  default_period : Z;
  default_budget : Z;
  default_data : Z;
  default_size_bits : Z
}.

(** [setattr(obj, field_name, value)] is the argument [set]. *)
Definition maybe_set_property_from_configuration {Obj : Type}
    (configuration : string -> option Z) (prefix : string) (obj : Obj)
    (set : Z -> Obj -> Obj) (general_attribute : string) : Obj :=
  let attribute := (prefix ++ general_attribute)%string in
  match configuration attribute with
  | None =>
      match configuration general_attribute with
      | Some general_value => set general_value obj
      | None => obj
      end
  | Some value => set value obj
  end.

Definition set_prio (v : Z) (tcb : TCB) : TCB :=
  {| prio := v; max_prio := max_prio tcb; affinity := affinity tcb; domain := domain tcb |}.
Definition set_max_prio (v : Z) (tcb : TCB) : TCB :=
  {| prio := prio tcb; max_prio := v; affinity := affinity tcb; domain := domain tcb |}.
Definition set_affinity (v : Z) (tcb : TCB) : TCB :=
  {| prio := prio tcb; max_prio := max_prio tcb; affinity := v; domain := domain tcb |}.
Definition set_domain (v : Z) (tcb : TCB) : TCB :=
  {| prio := prio tcb; max_prio := max_prio tcb; affinity := affinity tcb;
     domain := Some v |}.

Definition set_tcb_properties (tcb : TCB) (options : Options)
    (configuration : string -> option Z) (prefix : string) : TCB :=
  let tcb := set_prio (default_priority options) tcb in
  let tcb := set_max_prio (default_max_priority options) tcb in
  let tcb := set_affinity (default_affinity options) tcb in
  let tcb := maybe_set_property_from_configuration configuration prefix tcb
               set_prio "priority" in
  let tcb := maybe_set_property_from_configuration configuration prefix tcb
               set_max_prio "max_priority" in
  let tcb := maybe_set_property_from_configuration configuration prefix tcb
               set_affinity "affinity" in
  match configuration (prefix ++ "domain")%string with
  | Some dom => set_domain dom tcb
  | None => tcb
  end.

Definition set_period (v : Z) (sc : SC) : SC :=
  {| period := v; budget := budget sc; data := data sc; size_bits := size_bits sc |}.
Definition set_budget (v : Z) (sc : SC) : SC :=
  {| period := period sc; budget := v; data := data sc; size_bits := size_bits sc |}.
Definition set_data (v : Z) (sc : SC) : SC :=
  {| period := period sc; budget := budget sc; data := v; size_bits := size_bits sc |}.
Definition set_size_bits (v : Z) (sc : SC) : SC :=
  {| period := period sc; budget := budget sc; data := data sc; size_bits := v |}.

Definition set_sc_properties (sc : SC) (options : Options)
    (configuration : string -> option Z) (prefix : string) : SC :=
  let sc := set_period (default_period options) sc in
  let sc := set_budget (default_budget options) sc in
  let sc := set_data (default_data options) sc in
  let sc := set_size_bits (default_size_bits options) sc in
  let sc := maybe_set_property_from_configuration configuration prefix sc
              set_period "period" in
  let sc := maybe_set_property_from_configuration configuration prefix sc
              set_budget "budget" in
  let sc := maybe_set_property_from_configuration configuration prefix sc
              set_data "data" in
  maybe_set_property_from_configuration configuration prefix sc set_size_bits "size_bits".

(** The value of a setting, or what holds without it. *)
Definition configured (value : option Z) (otherwise : Z) : Z :=
  match value with Some v => v | None => otherwise end.

(** ** Vocabulary for the interrupt parser *)

(** The cells the generic branch reads interrupts from: the property
    [interrupts], or [interrupts_extended] without its first element. *)
Definition generic_cells (node : dtb_node) : option (list cell) :=
  match interrupts node, interrupts_extended node with
  | Some l, _ => Some l
  | None, Some l => if (1 <? length l)%nat then Some (drop 1 l) else None
  | None, None => None
  end.

(** An interrupt in the format [< type id flags >]. *)
Definition three_cells (t : Z * Z * Z) : list cell :=
  let '(type, id, flags) := t in [CInt type; CInt id; CInt flags].

(** The descriptor of an interrupt whose id and flags are taken as they are. *)
Definition plain_descriptor (t : Z * Z * Z) : descriptor :=
  let '(_, id, flags) := t in
  {| irq := CInt id; trigger := if Z.land flags 3 =? 0 then 0 else 1 |}.

Definition edge_descriptor (id : Z) : descriptor := {| irq := CInt id; trigger := 1 |}.

(** What every descriptor of the generic branch looks like. *)
Definition well_formed (d : descriptor) : Prop :=
  (exists z, irq d = CInt z) /\ (trigger d = 0 \/ trigger d = 1).

(** ** Vocabulary for the client ids *)

(** No id is held by two positions of the list. *)
Definition distinct_ids (ids : list (option Z)) : Prop :=
  forall j1 j2 v, ids !! j1 = Some (Some v) -> ids !! j2 = Some (Some v) -> j1 = j2.

(** ** Vocabulary for the badges *)

(** The cursor of the notification allocator: one bit of the mask, not
    above bit [BadgeBits]. *)
Definition signal_bit (BadgeBits : nat) (mask c : Z) : Prop :=
  exists k : nat, (k <= BadgeBits)%nat /\ Z.testbit mask (Z.of_nat k) = true
                  /\ c = 2 ^ Z.of_nat k.

(** A notification badge: such a bit with the base or-ed into it. *)
Definition signal_badge (BadgeBits : nat) (base mask badge : Z) : Prop :=
  exists c, signal_bit BadgeBits mask c /\ badge = Z.lor c base.

(** The cursor of the RPC allocator: a positive value inside the mask,
    below the width of a badge and below the mask. *)
Definition rpc_cursor (BadgeBits : nat) (mask c : Z) : Prop :=
  1 <= c /\ Z.land c mask = c /\ c < Z.min (2 ^ Z.of_nat BadgeBits) mask.

(** An RPC badge: such a value with the base or-ed into it. *)
Definition rpc_badge (BadgeBits : nat) (base mask badge : Z) : Prop :=
  exists c, rpc_cursor BadgeBits mask c /\ badge = Z.lor c base.

(** What the comment in the RPC [set_next_badge] asks of its argument:
    only one bit is wrong at a time.  The lowest bit that is set may be
    outside the mask, every bit above it is inside. *)
Definition one_wrong_bit (mask x : Z) : Prop :=
  exists q, 0 <= q /\ Z.testbit x q = true
            /\ (forall i, 0 <= i < q -> Z.testbit x i = false)
            /\ (forall i, q < i -> Z.testbit x i = true -> Z.testbit mask i = true).

(** [end_] is one of the ends of [conn]. *)
Definition on_connection (end_ : ConnectionEnd) (conn : Connection) : Prop :=
  exists i, i ∈ (from_ends conn ++ to_ends conn)%list /\ is_end end_ i = true.

(** ** Sample page sizes *)

(** Page sizes in the way of [capdl.page_sizes] for a 32-bit ARM. *)
Definition sample_page_sizes (arch : string) : list Z :=
  if arm_tags arch then [4096; 65536; 1048576; 16777216] else [].

(** * Properties *)

(** ** The interrupt parser *)

Lemma for_each_length {A B : Type} (f : A -> result B) (xs : list A) (ys : list B) :
  for_each f xs = Ok ys -> length ys = length xs.
Proof.
  revert ys. induction xs as [|x xs IH]; intros ys; simpl.
  - intros [= <-]. reflexivity.
  - destruct (f x) as [y|e]; simpl; [|discriminate].
    destruct (for_each f xs) as [ys'|e]; simpl; [|discriminate].
    intros [= <-]. simpl. f_equal. apply IH. reflexivity.
Qed.

Lemma for_each_ext {A B : Type} (f g : A -> result B) (xs : list A) :
  (forall x, x ∈ xs -> f x = g x) -> for_each f xs = for_each g xs.
Proof.
  induction xs as [|x xs IH]; intros H; simpl; [reflexivity|].
  rewrite (H x) by constructor.
  rewrite IH; [reflexivity|]. intros y Hy. apply H. by constructor.
Qed.

Lemma for_each_raise {A B : Type} (f : A -> result B) (xs : list A) (e : py_error) :
  for_each f xs = Raise e -> exists x, x ∈ xs /\ f x = Raise e.
Proof.
  induction xs as [|x xs IH]; simpl; [discriminate|].
  destruct (f x) as [y|e'] eqn:Hx; simpl.
  - destruct (for_each f xs) as [ys|e'']; simpl; [discriminate|].
    intros [= ->]. destruct IH as (x' & Hin & Hf); [reflexivity|].
    exists x'. split; [by constructor | exact Hf].
  - intros [= ->]. exists x. split; [constructor | exact Hx].
Qed.

Section ParserFacts.
Variable is_arch_arm : string -> bool.

Lemma index_lt {A : Type} (l : list A) (i : nat) :
  (i < length l)%nat -> exists a, index l i = Ok a.
Proof.
  intros H. unfold index.
  destruct (lookup_lt_is_Some_2 l i H) as [a ->]. by exists a.
Qed.

(** The cells the ARM loop reads exist: its only failures are the
    arithmetic ones. *)
Lemma arm_interrupt_raises (ints : list cell) (ext : bool) (i : nat) (e : py_error) :
  (i < length ints / (if ext then 4 else 3))%nat ->
  arm_interrupt ints ext i = Raise e -> e = TypeError.
Proof.
  intros Hi. unfold arm_interrupt.
  assert (Hlen : (i * 3 + 2 + (if ext then 1 else 0) < length ints)%nat).
  { destruct ext.
    - pose proof (Nat.Div0.mul_div_le (length ints) 4). lia.
    - pose proof (Nat.Div0.mul_div_le (length ints) 3). lia. }
  destruct (index_lt ints (i * 3 + 2 + (if ext then 1 else 0))%nat) as [t ->]; [lia|].
  destruct (index_lt ints (i * 3 + 1 + (if ext then 1 else 0))%nat) as [q ->]; [lia|].
  destruct (index_lt ints (i * 3 + 0 + (if ext then 1 else 0))%nat) as [s ->]; [lia|].
  simpl. destruct (is_zero_int s), q, t; simpl; congruence.
Qed.

End ParserFacts.

(** The parser has no bounded loop: it never leaves the model by fuel. *)
Lemma parse_dtb_node_interrupts_fuel_free (is_arch_arm : string -> bool)
    (node : dtb_node) (max_num_interrupts : Z) (arch : string) :
  parse_dtb_node_interrupts is_arch_arm node max_num_interrupts arch <> Raise OutOfFuel.
Proof.
  assert (Harm : forall ints ext i, arm_interrupt ints ext i <> Raise OutOfFuel).
  { intros ints ext i. unfold arm_interrupt, index.
    destruct (ints !! _) as [t|]; simpl; [|discriminate].
    destruct (ints !! _) as [q|]; simpl; [|discriminate].
    destruct (ints !! _) as [s|]; simpl; [|discriminate].
    destruct (is_zero_int s), q, t; simpl; discriminate. }
  assert (Hint : forall ints n cells i offs name,
            parse_int ints n cells i offs name <> Raise OutOfFuel).
  { intros. unfold parse_int, index.
    destruct (ints !! _) as [[z|s]|]; simpl; discriminate. }
  assert (Hgen : forall ints n cells i,
            generic_interrupt is_arch_arm arch ints n cells i <> Raise OutOfFuel).
  { intros ints n cells i. unfold generic_interrupt.
    pose proof (Hint ints n cells i) as H.
    destruct (3 =? cells)%nat;
      (destruct (parse_int ints n cells i _ "id") as [?|e] eqn:E1; cbn [bind];
       [|intros [= ->]; by eapply H]); [|discriminate].
    destruct (parse_int ints n cells i 2 "trigger") as [?|e] eqn:E2; cbn [bind];
      [|intros [= ->]; by eapply H].
    destruct (parse_int ints n cells i 0 "type") as [?|e] eqn:E3; cbn [bind];
      [discriminate|intros [= ->]; by eapply H]. }
  unfold parse_dtb_node_interrupts.
  destruct (interrupts node) as [l|]; [|destruct (interrupts_extended node) as [l|]];
    try discriminate;
    (destruct (is_arch_arm arch);
     [ destruct (negb (max_num_interrupts =? -1) && _); [discriminate|];
       intros H; apply for_each_raise in H as (i & _ & Hi); by eapply Harm
     | ]).
  - destruct (negb _); [discriminate|].
    destruct (negb (max_num_interrupts =? -1) && _); [discriminate|].
    intros H; apply for_each_raise in H as (i & _ & Hi); by eapply Hgen.
  - destruct (1 <? length l)%nat; [|discriminate].
    destruct (negb _); [discriminate|].
    destruct (negb (max_num_interrupts =? -1) && _); [discriminate|].
    intros H; apply for_each_raise in H as (i & _ & Hi); by eapply Hgen.
Qed.

(** C5: on an ARM tag with [max_num_interrupts = -1], [interrupts = [0, 5, 2]]
    gives the one descriptor [{irq: 37, trigger: 1}] and [[0, 5, 4]] the one
    descriptor [{irq: 37, trigger: 0}]; with the SPI field 0 the irq is
    [id + 32], and the trigger is 1 exactly when the flags are below 4. *)
Theorem arm_spi_interrupt_descriptor (is_arch_arm : string -> bool) (arch : string) :
  is_arch_arm arch = true ->
  parse_dtb_node_interrupts is_arch_arm (node_of [CInt 0; CInt 5; CInt 2]) (-1) arch
    = Ok [ {| irq := CInt 37; trigger := 1 |} ]
  /\ parse_dtb_node_interrupts is_arch_arm (node_of [CInt 0; CInt 5; CInt 4]) (-1) arch
    = Ok [ {| irq := CInt 37; trigger := 0 |} ]
  /\ forall id flags : Z,
      parse_dtb_node_interrupts is_arch_arm (node_of [CInt 0; CInt id; CInt flags]) (-1) arch
      = Ok [ {| irq := CInt (id + 32); trigger := if flags <? 4 then 1 else 0 |} ].
Proof.
  intros Harm.
  assert (Hgen : forall id flags : Z,
    parse_dtb_node_interrupts is_arch_arm (node_of [CInt 0; CInt id; CInt flags]) (-1) arch
    = Ok [ {| irq := CInt (id + 32); trigger := if flags <? 4 then 1 else 0 |} ]).
  { intros id flags. unfold parse_dtb_node_interrupts, node_of. simpl.
    rewrite Harm. reflexivity. }
  split; [|split].
  - apply (Hgen 5 2).
  - apply (Hgen 5 4).
  - exact Hgen.
Qed.

Lemma arm_spi_interrupt_descriptor_witness :
  arm_tags "aarch64" = true
  /\ parse_dtb_node_interrupts arm_tags (node_of [CInt 0; CInt 5; CInt 2]) (-1) "aarch64"
     = Ok [ {| irq := CInt 37; trigger := 1 |} ].
Proof.
  split; [reflexivity|].
  apply (arm_spi_interrupt_descriptor arm_tags "aarch64"). reflexivity.
Defined.

(** C10: on an ARM tag the parser never raises one of the two malformed
    errors (its only failure is a [TypeError]); the number of descriptors
    is [len // 3], or [len // 4] in the extended form, so the values after
    a whole multiple of the cell width are ignored; and a cell that is not an integer is not
    rejected: as an id next to a non-zero SPI field it is passed on. *)
Theorem arm_branch_never_malformed (is_arch_arm : string -> bool)
    (node : dtb_node) (max_num_interrupts : Z) (arch : string) :
  is_arch_arm arch = true ->
  (forall e, parse_dtb_node_interrupts is_arch_arm node max_num_interrupts arch = Raise e ->
             e = TypeError)
  /\ (forall ds, parse_dtb_node_interrupts is_arch_arm node max_num_interrupts arch = Ok ds ->
                 length ds = arm_count node)
  /\ (forall l extra : list cell,
        (length l mod 3 = 0)%nat -> (length extra < 3)%nat ->
        parse_dtb_node_interrupts is_arch_arm (node_of (l ++ extra)) max_num_interrupts arch
        = parse_dtb_node_interrupts is_arch_arm (node_of l) max_num_interrupts arch)
  /\ (forall l extra : list cell,
        (length l mod 4 = 0)%nat -> (length extra < 4)%nat ->
        parse_dtb_node_interrupts is_arch_arm (node_extended (l ++ extra))
          max_num_interrupts arch
        = parse_dtb_node_interrupts is_arch_arm (node_extended l) max_num_interrupts arch)
  /\ (forall s : string,
        parse_dtb_node_interrupts is_arch_arm (node_of [CInt 1; CStr s; CInt 2]) (-1) arch
        = Ok [ {| irq := CStr s; trigger := 1 |} ]).
Proof.
  intros Harm. repeat split.
  - intros e. unfold parse_dtb_node_interrupts.
    destruct (interrupts node) as [l|]; [|destruct (interrupts_extended node) as [l|]];
      try discriminate; rewrite Harm;
      (destruct (negb (max_num_interrupts =? -1) && _); [congruence|]);
      intros H; apply for_each_raise in H as (i & Hin & Hi);
      apply elem_of_seq in Hin.
    + apply (arm_interrupt_raises l false i e); [lia | exact Hi].
    + apply (arm_interrupt_raises l true i e); [lia | exact Hi].
  - intros ds. unfold parse_dtb_node_interrupts, arm_count.
    destruct (interrupts node) as [l|]; [|destruct (interrupts_extended node) as [l|]].
    + rewrite Harm. destruct (negb (max_num_interrupts =? -1) && _); [discriminate|].
      intros H. apply for_each_length in H. by rewrite length_seq in H.
    + rewrite Harm. destruct (negb (max_num_interrupts =? -1) && _); [discriminate|].
      intros H. apply for_each_length in H. by rewrite length_seq in H.
    + by intros [= <-].
  - intros l extra Hl Hextra. unfold parse_dtb_node_interrupts, node_of.
    cbn [interrupts]. rewrite Harm.
    assert (Hn : (length (l ++ extra) / 3 = length l / 3)%nat).
    { rewrite length_app.
      pose proof (Nat.div_mod_eq (length l) 3).
      symmetry. apply (Nat.div_unique _ 3 _ (length extra)); lia. }
    rewrite Hn.
    destruct (negb (max_num_interrupts =? -1) && _); [reflexivity|].
    apply for_each_ext. intros i Hi. apply elem_of_seq in Hi.
    pose proof (Nat.Div0.mul_div_le (length l) 3).
    unfold arm_interrupt, index.
    rewrite !lookup_app_l by lia. reflexivity.
  - intros l extra Hl Hextra. unfold parse_dtb_node_interrupts, node_extended.
    cbn [interrupts interrupts_extended]. rewrite Harm.
    assert (Hn : (length (l ++ extra) / 4 = length l / 4)%nat).
    { rewrite length_app.
      pose proof (Nat.div_mod_eq (length l) 4).
      symmetry. apply (Nat.div_unique _ 4 _ (length extra)); lia. }
    rewrite Hn.
    destruct (negb (max_num_interrupts =? -1) && _); [reflexivity|].
    apply for_each_ext. intros i Hi. apply elem_of_seq in Hi.
    pose proof (Nat.Div0.mul_div_le (length l) 4).
    unfold arm_interrupt, index.
    rewrite !lookup_app_l by lia. reflexivity.
  - intros s. unfold parse_dtb_node_interrupts, node_of. simpl.
    rewrite Harm. reflexivity.
Qed.

Lemma arm_branch_never_malformed_witness :
  arm_tags "aarch32" = true
  /\ parse_dtb_node_interrupts arm_tags
       (node_of [CInt 1; CInt 9; CInt 4; CInt 0; CInt 3]) (-1) "aarch32"
     = parse_dtb_node_interrupts arm_tags (node_of [CInt 1; CInt 9; CInt 4]) (-1) "aarch32".
Proof.
  split; [reflexivity|].
  apply (proj1 (proj2 (proj2
    (arm_branch_never_malformed arm_tags (node_of []) (-1) "aarch32" eq_refl)))
    [CInt 1; CInt 9; CInt 4] [CInt 0; CInt 3]); simpl; lia.
Defined.

(** C4, the ARM branch: with two interrupts and a maximum of one the
    raise statement applies [%] to the exception instead of to its
    message, and what the caller sees is a [TypeError]. *)
Theorem arm_too_many_interrupts_is_type_error :
  parse_dtb_node_interrupts arm_tags
    (node_of [CInt 0; CInt 5; CInt 2; CInt 0; CInt 6; CInt 2]) 1 "aarch64"
  = Raise TypeError.
Proof. reflexivity. Qed.

(** The generic branch raises the error the ARM branch means to raise. *)
Lemma generic_too_many_interrupts (is_arch_arm : string -> bool) (arch : string)
    (ints : list cell) (max_num_interrupts : Z) :
  is_arch_arm arch = false ->
  (3 <= length ints)%nat -> (length ints mod 3 = 0)%nat ->
  max_num_interrupts <> -1 -> Z.of_nat (length ints / 3) > max_num_interrupts ->
  parse_dtb_node_interrupts is_arch_arm (node_of ints) max_num_interrupts arch
  = Raise (TemplateError (PeripheralHasInterrupts (length ints / 3) max_num_interrupts)).
Proof.
  intros Harm Hlen Hmod Hmax Hgt. unfold parse_dtb_node_interrupts, node_of.
  cbn [interrupts]. rewrite Harm.
  destruct (Nat.ltb_spec (length ints) 3) as [?|_]; [lia|].
  rewrite Hmod. cbn [Nat.eqb negb].
  destruct (Z.eqb_spec max_num_interrupts (-1)) as [?|_]; [lia|]. cbn [negb andb].
  assert ((Z.of_nat (length ints / 3) >? max_num_interrupts) = true) as ->
    by (apply Z.gtb_lt; lia).
  reflexivity.
Qed.

(** ** Bits *)

Lemma land_pow2 (k m : Z) :
  0 <= k -> Z.land (2 ^ k) m = if Z.testbit m k then 2 ^ k else 0.
Proof.
  intros Hk. apply Z.bits_inj'. intros n Hn.
  rewrite Z.land_spec, Z.pow2_bits_eqb by lia.
  destruct (Z.eqb_spec k n) as [->|Hne].
  - destruct (Z.testbit m n); [|by rewrite Z.bits_0].
    rewrite Z.pow2_bits_true by lia. reflexivity.
  - destruct (Z.testbit m k); [|by rewrite Z.bits_0].
    rewrite Z.pow2_bits_false by lia. reflexivity.
Qed.

Lemma land_pow2_nonzero (k m : Z) :
  0 <= k -> Z.land (2 ^ k) m <> 0 -> Z.land (2 ^ k) m = 2 ^ k.
Proof.
  intros Hk. rewrite land_pow2 by lia. destruct (Z.testbit m k); congruence.
Qed.

(** Two values inside the mask stay apart when a base outside the mask is
    or-ed into them. *)
Lemma lor_base_inj (a b base mask : Z) :
  Z.land base mask = 0 -> Z.land a mask = a -> Z.land b mask = b ->
  Z.lor a base = Z.lor b base -> a = b.
Proof.
  intros Hbase Ha Hb Heq.
  assert (H : forall x, Z.land x mask = x -> Z.land (Z.lor x base) mask = x).
  { intros x Hx. by rewrite Z.land_lor_distr_l, Hx, Hbase, Z.lor_0_r. }
  rewrite <- (H a Ha), <- (H b Hb). by rewrite Heq.
Qed.

(** ** The notification cursor *)

Section NotificationFacts.
Variable BadgeBits : nat.
Variable end_ : string.
Variable mask : Z.

Local Abbreviation width := (2 ^ Z.of_nat BadgeBits).
Local Abbreviation rec := (Notification.set_next_badge_rec BadgeBits).

Lemma next_candidate_pos (c : Z) : 0 <= c -> 0 < next_candidate c /\ c < next_candidate c.
Proof.
  intros Hc. unfold next_candidate. destruct (Z.eqb_spec c 0) as [->|Hne]; [lia|].
  rewrite Z.shiftl_mul_pow2 by lia. lia.
Qed.

Lemma next_candidate_double (c : Z) : 0 < c -> next_candidate c = 2 * c.
Proof.
  intros Hc. unfold next_candidate. destruct (Z.eqb_spec c 0) as [->|Hne]; [lia|].
  rewrite Z.shiftl_mul_pow2 by lia. lia.
Qed.

Lemma iter_candidate_lower (c : Z) (n : nat) :
  0 <= c -> 2 ^ Z.of_nat n <= Nat.iter (S n) next_candidate c.
Proof.
  intros Hc. induction n as [|n IH].
  - simpl. pose proof (next_candidate_pos c Hc). lia.
  - change (Nat.iter (S (S n)) next_candidate c)
      with (next_candidate (Nat.iter (S n) next_candidate c)).
    assert (0 < 2 ^ Z.of_nat n) by (apply Z.pow_pos_nonneg; lia).
    rewrite next_candidate_double by lia.
    rewrite Nat2Z.inj_succ, Z.pow_succ_r by lia. lia.
Qed.

(** One call, unfolded as the Python body reads. *)
Lemma rec_unfold (fuel : nat) (c : Z) :
  rec (S fuel) end_ c mask =
    if c >=? width then Raise (CouldntAllocateNotificationBadge end_)
    else if Z.land (next_candidate c) mask =? 0
         then rec fuel end_ (next_candidate c) mask
         else Ok (next_candidate c).
Proof. reflexivity. Qed.

Lemma rec_returns (n fuel : nat) (c : Z) :
  (n < fuel)%nat ->
  (forall i, (i <= n)%nat -> Nat.iter i next_candidate c < width) ->
  (forall i, (1 <= i <= n)%nat -> Z.land (Nat.iter i next_candidate c) mask = 0) ->
  Z.land (Nat.iter (S n) next_candidate c) mask <> 0 ->
  rec fuel end_ c mask = Ok (Nat.iter (S n) next_candidate c).
Proof.
  revert fuel c. induction n as [|n IH]; intros fuel c Hfuel Hlt Hskip Hhit;
    (destruct fuel as [|fuel]; [lia|]); rewrite rec_unfold.
  - pose proof (Hlt 0%nat ltac:(lia)) as H0. simpl in H0.
    destruct (Z.geb_spec c width) as [?|_]; [lia|].
    simpl in Hhit. destruct (Z.eqb_spec (Z.land (next_candidate c) mask) 0); [lia|].
    reflexivity.
  - pose proof (Hlt 0%nat ltac:(lia)) as H0. simpl in H0.
    destruct (Z.geb_spec c width) as [?|_]; [lia|].
    pose proof (Hskip 1%nat ltac:(lia)) as H1. simpl in H1. rewrite H1, Z.eqb_refl.
    rewrite (Nat.iter_succ_r (S n)).
    apply IH; [lia| | |].
    + intros i Hi. rewrite <- Nat.iter_succ_r. apply Hlt. lia.
    + intros i Hi. rewrite <- Nat.iter_succ_r. apply Hskip. lia.
    + rewrite <- Nat.iter_succ_r. exact Hhit.
Qed.

Lemma rec_raises (n fuel : nat) (c : Z) :
  (n < fuel)%nat ->
  (forall i, (i < n)%nat -> Nat.iter i next_candidate c < width) ->
  (forall i, (1 <= i <= n)%nat -> Z.land (Nat.iter i next_candidate c) mask = 0) ->
  width <= Nat.iter n next_candidate c ->
  rec fuel end_ c mask = Raise (CouldntAllocateNotificationBadge end_).
Proof.
  revert fuel c. induction n as [|n IH]; intros fuel c Hfuel Hlt Hskip Hover;
    (destruct fuel as [|fuel]; [lia|]); rewrite rec_unfold.
  - simpl in Hover. destruct (Z.geb_spec c width) as [_|?]; [reflexivity|lia].
  - pose proof (Hlt 0%nat ltac:(lia)) as H0. simpl in H0.
    destruct (Z.geb_spec c width) as [?|_]; [lia|].
    pose proof (Hskip 1%nat ltac:(lia)) as H1. simpl in H1. rewrite H1, Z.eqb_refl.
    apply IH; [lia| | |].
    + intros i Hi. rewrite <- Nat.iter_succ_r. apply Hlt. lia.
    + intros i Hi. rewrite <- Nat.iter_succ_r. apply Hskip. lia.
    + rewrite <- Nat.iter_succ_r. exact Hover.
Qed.

(** The cursors below the width are at most [BadgeBits + 1] steps from
    a non-negative start. *)
Lemma cursor_steps_bounded (c : Z) (n : nat) :
  0 <= c -> Nat.iter n next_candidate c < width -> (n <= BadgeBits)%nat.
Proof.
  intros Hc Hlt. destruct n as [|n]; [lia|].
  pose proof (iter_candidate_lower c n Hc) as Hlow.
  assert (2 ^ Z.of_nat n < 2 ^ Z.of_nat BadgeBits) as Hpow by lia.
  apply Z.pow_lt_mono_r_iff in Hpow; lia.
Qed.
End NotificationFacts.

(** C3, as amended: from cursor 0 the candidate is 1, from a cursor above
    0 the cursor shifted left by one bit; a candidate that shares no bit
    with the mask is stepped again in the same way, the candidate 1 too,
    and the first candidate that shares a bit with the mask is returned
    when it is below [2 ^ BadgeBits] (so from 0 the result is 1 only when
    bit 0 is in the mask).  When the cursor is [2 ^ BadgeBits] or more, or
    the candidates get there with none of them sharing a bit with the
    mask, the call raises the allocation error.  Nothing is said here of
    a candidate of [2 ^ BadgeBits] or more that shares a bit with the
    mask. *)
Theorem set_next_badge_skips_masked_bits (BadgeBits : nat) (end_ : string)
    (cursor mask : Z) (n : nat) :
  0 <= cursor ->
  (forall i, (1 <= i <= n)%nat -> Z.land (Nat.iter i next_candidate cursor) mask = 0) ->
  ((forall i, (i <= S n)%nat -> Nat.iter i next_candidate cursor < 2 ^ Z.of_nat BadgeBits) ->
   Z.land (Nat.iter (S n) next_candidate cursor) mask <> 0 ->
   Notification.set_next_badge BadgeBits end_ cursor mask
   = Ok (Nat.iter (S n) next_candidate cursor))
  /\
  ((forall i, (i < n)%nat -> Nat.iter i next_candidate cursor < 2 ^ Z.of_nat BadgeBits) ->
   2 ^ Z.of_nat BadgeBits <= Nat.iter n next_candidate cursor ->
   Notification.set_next_badge BadgeBits end_ cursor mask
   = Raise (CouldntAllocateNotificationBadge end_)).
Proof.
  intros Hc Hskip. split.
  - intros Hlt Hhit. unfold Notification.set_next_badge.
    apply rec_returns; [| |exact Hskip|exact Hhit].
    + pose proof (cursor_steps_bounded BadgeBits cursor n Hc (Hlt n ltac:(lia))). lia.
    + intros i Hi. apply Hlt. lia.
  - intros Hlt Hover. unfold Notification.set_next_badge.
    apply (rec_raises BadgeBits end_ mask n); [|exact Hlt|exact Hskip|exact Hover].
    destruct n as [|n]; [lia|].
    pose proof (cursor_steps_bounded BadgeBits cursor n Hc (Hlt n ltac:(lia))). lia.
Qed.

Lemma set_next_badge_skips_masked_bits_witness :
  Notification.set_next_badge 28 "a.ev" 0 6 = Ok 2.
Proof.
  apply (proj1 (set_next_badge_skips_masked_bits 28 "a.ev" 0 6 1 ltac:(lia)
    ltac:(intros i Hi; assert (i = 1%nat) as -> by lia; reflexivity))).
  - intros i Hi. assert (i = 0 \/ i = 1 \/ i = 2)%nat as [->|[->| ->]] by lia;
      vm_compute; reflexivity.
  - vm_compute. discriminate.
Defined.

(** C3, as it is stated, at the default configuration: the default base
    is 1 and the default mask leaves bit 0 out, and the cursor moves from
    0 to 2. *)
Lemma set_next_badge_from_zero_is_not_one :
  Notification.set_next_badge 28 "a.ev" 0 (Z.land (2 ^ 28 - 1) (Z.lnot 1)) = Ok 2
  /\ Notification.set_next_badge 28 "a.ev" 0 (Z.land (2 ^ 28 - 1) (Z.lnot 1)) <> Ok 1.
Proof. split; [reflexivity | discriminate]. Qed.

Section NotificationCursor.
Variable BadgeBits : nat.
Variable end_ : string.
Variable mask : Z.

Local Abbreviation width := (2 ^ Z.of_nat BadgeBits).
Local Abbreviation rec := (Notification.set_next_badge_rec BadgeBits).

(** From 0 or a power of two the call returns a power of two inside the
    mask, above the cursor it started from. *)
Lemma rec_power_of_two (fuel : nat) (c v : Z) :
  (c = 0 \/ exists k : nat, c = 2 ^ Z.of_nat k) ->
  rec fuel end_ c mask = Ok v ->
  (exists k : nat, v = 2 ^ Z.of_nat k) /\ Z.land v mask = v /\ c < v.
Proof.
  revert c. induction fuel as [|fuel IH]; intros c Hc; [discriminate|].
  rewrite rec_unfold.
  destruct (Z.geb_spec c width) as [?|Hlt]; [discriminate|].
  assert (Hc' : exists k : nat, next_candidate c = 2 ^ Z.of_nat k).
  { destruct Hc as [->|[k ->]].
    - by exists 0%nat.
    - exists (S k). rewrite next_candidate_double by (apply Z.pow_pos_nonneg; lia).
      rewrite Nat2Z.inj_succ, Z.pow_succ_r by lia. reflexivity. }
  assert (Hpos : 0 <= c).
  { destruct Hc as [->|[k ->]]; [lia|]. apply Z.pow_nonneg. lia. }
  pose proof (next_candidate_pos c Hpos) as [_ Hgt].
  destruct (Z.eqb_spec (Z.land (next_candidate c) mask) 0) as [_|Hne].
  - intros H. apply IH in H; [|by right]. destruct H as (Hk & Hm & Hv).
    repeat split; [exact Hk | exact Hm | lia].
  - intros [= <-]. repeat split; [exact Hc' | | lia].
    destruct Hc' as [k Hk]. rewrite Hk in *. apply land_pow2_nonzero; [lia|exact Hne].
Qed.

(** The bound of the model on the depth of the recursion is never
    reached from a non-negative cursor. *)
Lemma rec_fuel_suffices (fuel : nat) (c : Z) (k : nat) :
  0 <= c -> (k = 0%nat \/ 2 ^ (Z.of_nat k - 1) <= c) ->
  (BadgeBits + 2 <= k + fuel)%nat -> (1 <= fuel)%nat ->
  rec fuel end_ c mask <> Raise OutOfFuel.
Proof.
  revert c k. induction fuel as [|fuel IH]; intros c k Hc Hk Hfuel Hone; [lia|].
  rewrite rec_unfold.
  destruct (Z.geb_spec c width) as [?|Hlt]; [discriminate|].
  destruct (Z.eqb_spec (Z.land (next_candidate c) mask) 0) as [_|_]; [|discriminate].
  assert (Hkb : (k <= BadgeBits)%nat).
  { destruct Hk as [->|Hk]; [lia|].
    assert (2 ^ (Z.of_nat k - 1) < 2 ^ Z.of_nat BadgeBits) as Hpow by lia.
    destruct k as [|k]; [lia|].
    apply Z.pow_lt_mono_r_iff in Hpow; lia. }
  pose proof (next_candidate_pos c Hc) as [Hpos _].
  apply (IH _ (S k)); [lia| |lia|lia].
  right. destruct Hk as [->|Hk]; [simpl; lia|].
  destruct k as [|k]; [simpl; lia|].
  assert (0 < 2 ^ (Z.of_nat (S k) - 1)) by (apply Z.pow_pos_nonneg; lia).
  rewrite next_candidate_double by lia.
  replace (Z.of_nat (S (S k)) - 1) with (Z.succ (Z.of_nat (S k) - 1)) by lia.
  rewrite Z.pow_succ_r by lia. lia.
Qed.

Lemma set_next_badge_total (c : Z) :
  0 <= c -> Notification.set_next_badge BadgeBits end_ c mask <> Raise OutOfFuel.
Proof.
  intros Hc. unfold Notification.set_next_badge.
  apply (rec_fuel_suffices _ c 0); [exact Hc|by left|lia|lia].
Qed.
End NotificationCursor.

(** ** The notification scan *)

Lemma emitted_between_weaken (base mask lo hi lo' hi' b : Z) :
  lo' <= lo -> hi <= hi' ->
  emitted_between base mask lo hi b -> emitted_between base mask lo' hi' b.
Proof.
  intros Hlo Hhi (raw & -> & Hm & Hr). exists raw. repeat split; [exact Hm|lia|lia].
Qed.

Lemma emitted_between_emitted (base mask lo hi b : Z) :
  emitted_between base mask lo hi b -> emitted base mask b.
Proof. intros (raw & -> & Hm & _). by exists raw. Qed.

(** Badges from disjoint cursor ranges differ when the base is outside the mask. *)
Lemma emitted_between_apart (base mask lo mid hi a b : Z) :
  Z.land base mask = 0 ->
  emitted_between base mask lo mid a -> emitted_between base mask mid hi b -> a <> b.
Proof.
  intros Hbase (ra & -> & Hma & Hra) (rb & -> & Hmb & Hrb) Heq.
  apply (lor_base_inj ra rb base mask Hbase Hma Hmb) in Heq. lia.
Qed.

Section NotificationScan.
Variable BadgeBits : nat.
Variable is_arch_arm : string -> bool.
Variable configuration : Configuration.
Variable arch : string.
Variable end_ : ConnectionEnd.
Variable base mask : Z.

Local Abbreviation snb := (Notification.set_next_badge BadgeBits (end_str end_)).

Lemma snb_power (c v : Z) :
  (c = 0 \/ power_in_mask mask c) -> snb c mask = Ok v ->
  power_in_mask mask v /\ c < v.
Proof.
  intros Hc H. apply rec_power_of_two in H.
  - destruct H as (Hk & Hm & Hlt). by repeat split.
  - destruct Hc as [->|[Hk _]]; [by left | by right].
Qed.

Lemma irq_loop_spec (irqs : list descriptor) (c : Z) (r : list Z * Z) :
  power_in_mask mask c ->
  Notification.irq_loop BadgeBits end_ base mask irqs c = Ok r ->
  power_in_mask mask (snd r) /\ c <= snd r
  /\ length (fst r) = length irqs
  /\ Forall (emitted_between base mask c (snd r)) (fst r)
  /\ (Z.land base mask = 0 -> NoDup (fst r)).
Proof.
  revert c r. induction irqs as [|d irqs IH]; intros c r Hc; simpl.
  - intros [= <-]. simpl. repeat split; [apply Hc|apply Hc|lia|constructor|constructor].
  - destruct (snb c mask) as [c1|e] eqn:Hstep; simpl; [|discriminate].
    apply snb_power in Hstep as [Hc1 Hlt]; [|by right].
    destruct (Notification.irq_loop _ _ _ _ irqs c1) as [r1|e] eqn:Hrest; simpl;
      [|discriminate].
    intros [= <-]. simpl.
    destruct (IH c1 r1 Hc1 Hrest) as (Hp & Hle & Hlen & Hall & Hnd).
    assert (Hhead : emitted_between base mask c c1 (Z.lor c base)).
    { exists c. repeat split; [apply Hc|lia|lia]. }
    repeat split; [apply Hp|apply Hp|lia|by rewrite Hlen| |].
    + constructor.
      * eapply emitted_between_weaken; [| |exact Hhead]; lia.
      * eapply Forall_impl; [exact Hall|]. intros b Hb.
        eapply emitted_between_weaken; [| |exact Hb]; lia.
    + intros Hbase. constructor; [|by apply Hnd].
      intros Hin. rewrite Forall_forall in Hall.
      by apply (emitted_between_apart base mask c c1 (snd r1) _ _ Hbase Hhead (Hall _ Hin)).
Qed.

Lemma threadless_ends_spec (ends : list ConnectionEnd) (c : Z) (f : flow badges Z) :
  power_in_mask mask c ->
  Notification.threadless_ends BadgeBits is_arch_arm configuration arch end_ base mask
    ends c = Ok f ->
  scan_post base mask f.
Proof.
  revert c. induction ends as [|to_end ends IH]; intros c Hc; simpl.
  - intros [= <-]. exact Hc.
  - destruct (negb _); [by apply IH|].
    destruct (match get_dtb configuration (end_str to_end) with
              | Some query => index query 0 | None => Raise AttributeError end)
      as [dtb|e]; simpl; [|discriminate].
    destruct (parse_dtb_node_interrupts is_arch_arm dtb (-1) arch) as [irqs|e]; simpl;
      [|discriminate].
    destruct (Notification.irq_loop _ _ _ _ irqs c) as [r|e] eqn:Hloop; simpl;
      [|discriminate].
    apply irq_loop_spec in Hloop as (Hp & _ & _ & Hall & Hnd); [|exact Hc].
    destruct (is_end end_ to_end).
    + intros [= <-]. split; [|exact Hnd]. simpl.
      eapply Forall_impl; [exact Hall|]. intros b. apply emitted_between_emitted.
    + by apply IH.
Qed.

Lemma global_ends_spec (ends : list ConnectionEnd) (c : Z) (f : flow badges Z) :
  power_in_mask mask c ->
  Notification.global_ends BadgeBits end_ base mask ends c = Ok f ->
  scan_post base mask f.
Proof.
  revert c. induction ends as [|i ends IH]; intros c Hc; simpl.
  - intros [= <-]. exact Hc.
  - destruct (is_instance _ _); [|by apply IH].
    destruct (is_end end_ i).
    + intros [= <-]. split; simpl.
      * constructor; [|constructor]. exists c. split; [reflexivity|apply Hc].
      * intros _. apply NoDup_singleton.
    + destruct (snb c mask) as [c1|e] eqn:Hstep; simpl; [|discriminate].
      apply snb_power in Hstep as [Hc1 _]; [|by right]. by apply IH.
Qed.

Lemma connection_step_spec (conn : Connection) (c : Z) (f : flow badges Z) :
  power_in_mask mask c ->
  Notification.connection_step BadgeBits is_arch_arm configuration arch end_ base mask
    conn c = Ok f ->
  scan_post base mask f.
Proof.
  intros Hc. unfold Notification.connection_step, and_then.
  destruct (if _ && _ then _ else _) as [[r|c1]|e] eqn:H1; simpl; try discriminate.
  { intros [= <-]. destruct (_ && _); [|discriminate].
    by apply (threadless_ends_spec _ _ _ Hc H1). }
  assert (Hc1 : power_in_mask mask c1).
  { destruct (_ && _); [|by injection H1 as <-].
    by apply (threadless_ends_spec _ _ _ Hc H1). }
  clear H1.
  destruct (if attribute_set (type conn) "from_global_endpoint" then _ else _)
    as [[r|c2]|e] eqn:H2; simpl; try discriminate.
  { intros [= <-]. destruct (attribute_set _ _); [|discriminate].
    by apply (global_ends_spec _ _ _ Hc1 H2). }
  assert (Hc2 : power_in_mask mask c2).
  { destruct (attribute_set _ _); [|by injection H2 as <-].
    by apply (global_ends_spec _ _ _ Hc1 H2). }
  clear H2.
  destruct (attribute_set _ _); [|by intros [= <-]].
  by apply global_ends_spec.
Qed.

Lemma scan_spec (cs : list Connection) (c : Z) (r : badges) :
  power_in_mask mask c ->
  Notification.scan BadgeBits is_arch_arm configuration arch end_ base mask cs c = Ok r ->
  sound_badges base mask r.
Proof.
  revert c. induction cs as [|conn cs IH]; intros c Hc; simpl; [discriminate|].
  destruct (Notification.connection_step _ _ _ _ _ _ _ conn c) as [f|e] eqn:Hstep;
    simpl; [|discriminate].
  apply connection_step_spec in Hstep; [|exact Hc].
  destruct f as [v|c1].
  - by intros [= <-].
  - by apply IH.
Qed.
End NotificationScan.

(** The scan never leaves the model by fuel: its errors are Python's. *)
Section NotificationFuel.
Variable BadgeBits : nat.
Variable is_arch_arm : string -> bool.
Variable configuration : Configuration.
Variable arch : string.
Variable end_ : ConnectionEnd.
Variable base mask : Z.

Local Abbreviation snb := (Notification.set_next_badge BadgeBits (end_str end_)).

Lemma snb_fuel_free (c : Z) :
  power_in_mask mask c -> snb c mask <> Raise OutOfFuel.
Proof.
  intros [[k ->] _]. apply set_next_badge_total. apply Z.pow_nonneg. lia.
Qed.

Lemma irq_loop_fuel_free (irqs : list descriptor) (c : Z) :
  power_in_mask mask c ->
  Notification.irq_loop BadgeBits end_ base mask irqs c <> Raise OutOfFuel.
Proof.
  revert c. induction irqs as [|d irqs IH]; intros c Hc; simpl; [discriminate|].
  pose proof (snb_fuel_free c Hc) as Hfree.
  destruct (snb c mask) as [c1|e] eqn:Hstep; simpl; [|congruence].
  apply (snb_power BadgeBits end_ mask) in Hstep as [Hc1 _]; [|by right].
  pose proof (IH c1 Hc1) as Hrest.
  destruct (Notification.irq_loop _ _ _ _ irqs c1) as [r1|e]; simpl; congruence.
Qed.

Lemma threadless_ends_fuel_free (ends : list ConnectionEnd) (c : Z) :
  power_in_mask mask c ->
  Notification.threadless_ends BadgeBits is_arch_arm configuration arch end_ base mask
    ends c <> Raise OutOfFuel.
Proof.
  revert c. induction ends as [|to_end ends IH]; intros c Hc; simpl; [discriminate|].
  destruct (negb _); [by apply IH|].
  assert (Hdtb : match get_dtb configuration (end_str to_end) with
                 | Some query => index query 0 | None => Raise AttributeError end
                 <> Raise OutOfFuel).
  { unfold index. destruct (get_dtb _ _) as [[|n q]|]; simpl; discriminate. }
  destruct (match get_dtb configuration (end_str to_end) with
            | Some query => index query 0 | None => Raise AttributeError end)
    as [dtb|e]; simpl; [|congruence].
  pose proof (parse_dtb_node_interrupts_fuel_free is_arch_arm dtb (-1) arch) as Hparse.
  destruct (parse_dtb_node_interrupts is_arch_arm dtb (-1) arch) as [irqs|e]; simpl;
    [|congruence].
  pose proof (irq_loop_fuel_free irqs c Hc) as Hloop.
  destruct (Notification.irq_loop _ _ _ _ irqs c) as [r|e] eqn:Hr; simpl; [|congruence].
  apply irq_loop_spec in Hr as (Hp & _); [|exact Hc].
  destruct (is_end end_ to_end); [discriminate|by apply IH].
Qed.

Lemma global_ends_fuel_free (ends : list ConnectionEnd) (c : Z) :
  power_in_mask mask c ->
  Notification.global_ends BadgeBits end_ base mask ends c <> Raise OutOfFuel.
Proof.
  revert c. induction ends as [|i ends IH]; intros c Hc; simpl; [discriminate|].
  destruct (is_instance _ _); [|by apply IH].
  destruct (is_end end_ i); [discriminate|].
  pose proof (snb_fuel_free c Hc) as Hfree.
  destruct (snb c mask) as [c1|e] eqn:Hstep; simpl; [|congruence].
  apply (snb_power BadgeBits end_ mask) in Hstep as [Hc1 _]; [|by right]. by apply IH.
Qed.

Lemma connection_step_fuel_free (conn : Connection) (c : Z) :
  power_in_mask mask c ->
  Notification.connection_step BadgeBits is_arch_arm configuration arch end_ base mask
    conn c <> Raise OutOfFuel.
Proof.
  intros Hc. unfold Notification.connection_step, and_then.
  destruct (if _ && _ then _ else _) as [[r|c1]|e] eqn:H1; simpl; [discriminate| |].
  - assert (Hc1 : power_in_mask mask c1).
    { destruct (_ && _); [|by injection H1 as <-].
      by apply (threadless_ends_spec _ _ _ _ _ _ _ _ _ _ Hc H1). }
    clear H1.
    destruct (if attribute_set (type conn) "from_global_endpoint" then _ else _)
      as [[r|c2]|e] eqn:H2; simpl; [discriminate| |].
    + assert (Hc2 : power_in_mask mask c2).
      { destruct (attribute_set _ _); [|by injection H2 as <-].
        by apply (global_ends_spec _ _ _ _ _ _ _ Hc1 H2). }
      clear H2.
      destruct (attribute_set _ _); [|discriminate]. by apply global_ends_fuel_free.
    + destruct (attribute_set (type conn) "from_global_endpoint"); [|discriminate].
      intros [= ->]. exact (global_ends_fuel_free _ _ Hc1 H2).
  - destruct (_ && _); [|discriminate].
    intros [= ->]. exact (threadless_ends_fuel_free _ _ Hc H1).
Qed.

Lemma scan_fuel_free (cs : list Connection) (c : Z) :
  power_in_mask mask c ->
  Notification.scan BadgeBits is_arch_arm configuration arch end_ base mask cs c
  <> Raise OutOfFuel.
Proof.
  revert c. induction cs as [|conn cs IH]; intros c Hc; simpl; [discriminate|].
  pose proof (connection_step_fuel_free conn c Hc) as Hfree.
  destruct (Notification.connection_step _ _ _ _ _ _ _ conn c) as [[v|c1]|e] eqn:Hstep;
    simpl; [discriminate| |congruence].
  apply connection_step_spec in Hstep; [|exact Hc]. by apply IH.
Qed.
End NotificationFuel.

Lemma global_endpoint_badges_fuel_free (BadgeBits : nat) (is_arch_arm : string -> bool)
    (composition : Composition) (end_ : ConnectionEnd)
    (configuration : Configuration) (arch : string) :
  Notification.global_endpoint_badges BadgeBits is_arch_arm composition end_
    configuration arch <> Raise OutOfFuel.
Proof.
  unfold Notification.global_endpoint_badges.
  pose proof (set_next_badge_total BadgeBits (end_str end_)
                (Notification.mask_of BadgeBits configuration end_) 0 ltac:(lia)) as Hfree.
  destruct (Notification.set_next_badge _ _ 0 _) as [c|e] eqn:Hfirst; simpl; [|congruence].
  apply snb_power in Hfirst as [Hc _]; [|by left].
  by apply scan_fuel_free.
Qed.

(** Every result of the notification allocator is sound for the base and
    the mask configured for the instance of the end. *)
Lemma global_endpoint_badges_sound (BadgeBits : nat) (is_arch_arm : string -> bool)
    (composition : Composition) (end_ : ConnectionEnd)
    (configuration : Configuration) (arch : string) (r : badges) :
  Notification.global_endpoint_badges BadgeBits is_arch_arm composition end_
    configuration arch = Ok r ->
  sound_badges (Notification.base_of configuration end_)
    (Notification.mask_of BadgeBits configuration end_) r.
Proof.
  unfold Notification.global_endpoint_badges.
  destruct (Notification.set_next_badge _ _ 0 _) as [c|e] eqn:Hfirst; simpl;
    [|discriminate].
  apply snb_power in Hfirst as [Hc _]; [|by left].
  by apply scan_spec.
Qed.

(** ** The RPC cursor *)

Ltac bitwise mask x :=
  apply Z.bits_inj'; intros ? ?;
  repeat first [ rewrite Z.land_spec | rewrite Z.lor_spec
               | rewrite Z.lnot_spec by lia | rewrite Z.bits_0 ];
  match goal with
  | n : Z |- _ => destruct (Z.testbit mask n), (Z.testbit x n); reflexivity
  end.

(** A value is the sum of its bits inside the mask and its bits outside it. *)
Lemma split_by_mask (mask x : Z) :
  Z.land mask x + Z.land (Z.lnot mask) x = x.
Proof.
  assert (H : Z.land (Z.land mask x) (Z.land (Z.lnot mask) x) = 0) by bitwise mask x.
  rewrite (Z.add_nocarry_lxor _ _ H), (Z.lxor_lor _ _ H). bitwise mask x.
Qed.

Lemma land_comm_eq (mask x : Z) : Z.land x mask = x <-> Z.land (Z.lnot mask) x = 0.
Proof.
  pose proof (split_by_mask mask x) as H. rewrite (Z.land_comm x mask). lia.
Qed.

(** Adding the disallowed bits of [x] to [x] clears the lowest of them
    and leaves nothing disallowed below it. *)
Lemma repair_clears (mask x : Z) (k : nat) :
  Z.land (Z.lnot mask) x mod 2 ^ Z.of_nat k = 0 ->
  Z.land (Z.lnot mask) (Z.land (Z.lnot mask) x + x) mod 2 ^ Z.of_nat (S k) = 0.
Proof.
  intros Hw.
  pose proof (split_by_mask mask x) as Hsplit.
  set (w := Z.land (Z.lnot mask) x) in *. set (g := Z.land mask x) in *.
  assert (Hpow : 0 < 2 ^ Z.of_nat k) by (apply Z.pow_pos_nonneg; lia).
  assert (Hsucc : 2 ^ Z.of_nat (S k) = 2 * 2 ^ Z.of_nat k)
    by (rewrite Nat2Z.inj_succ, Z.pow_succ_r by lia; reflexivity).
  rewrite <- Z.land_ones, <- Z.land_assoc, Z.land_ones by lia.
  assert (Hmod : (w + x) mod 2 ^ Z.of_nat (S k) = g mod 2 ^ Z.of_nat (S k)).
  { apply Z.mod_divide in Hw; [|lia]. destruct Hw as [q Hq].
    replace (w + x) with (g + q * 2 ^ Z.of_nat (S k)) by lia.
    apply Z.mod_add. lia. }
  rewrite Hmod, <- Z.land_ones, Z.land_assoc by lia.
  replace (Z.land (Z.lnot mask) g) with 0; [apply Z.land_0_l|].
  symmetry. unfold g. bitwise mask x.
Qed.

Section RpcCursor.
Variable BadgeBits : nat.
Variable end_ : string.
Variable mask : Z.

Local Abbreviation width := (2 ^ Z.of_nat BadgeBits).
Local Abbreviation rec := (Rpc.set_next_badge_rec BadgeBits).

Lemma rpc_rec_unfold (fuel : nat) (x : Z) :
  rec (S fuel) end_ x mask =
    if x >=? Z.min width mask then Raise (CouldntAllocateEndpointBadge end_)
    else if negb (Z.land x mask =? x)
         then rec fuel end_ (Z.land (Z.lnot mask) x + x) mask
         else Ok x.
Proof. reflexivity. Qed.

(** What the call returns is inside the mask, below the width and the
    mask, and not below what it was called with. *)
Lemma rpc_rec_returns (fuel : nat) (x v : Z) :
  0 <= x -> rec fuel end_ x mask = Ok v ->
  x <= v /\ Z.land v mask = v /\ v < Z.min width mask.
Proof.
  revert x. induction fuel as [|fuel IH]; intros x Hx; [discriminate|].
  rewrite rpc_rec_unfold.
  destruct (Z.geb_spec x (Z.min width mask)) as [?|Hlt]; [discriminate|].
  destruct (Z.eqb_spec (Z.land x mask) x) as [Heq|Hne]; simpl.
  - intros [= <-]. repeat split; [lia|exact Heq|lia].
  - assert (0 <= Z.land (Z.lnot mask) x) by (apply Z.land_nonneg; by right).
    intros H'. apply IH in H'; [|lia]. destruct H' as (Hle & Hm & Hb).
    repeat split; [lia|exact Hm|lia].
Qed.

Lemma rpc_rec_fuel_suffices (fuel : nat) (x : Z) (k : nat) :
  0 <= x -> Z.land (Z.lnot mask) x mod 2 ^ Z.of_nat k = 0 ->
  (BadgeBits + 2 <= k + fuel)%nat -> (1 <= fuel)%nat ->
  rec fuel end_ x mask <> Raise OutOfFuel.
Proof.
  revert x k. induction fuel as [|fuel IH]; intros x k Hx Hk Hfuel Hone; [lia|].
  rewrite rpc_rec_unfold.
  destruct (Z.geb_spec x (Z.min width mask)) as [?|Hlt]; [discriminate|].
  destruct (Z.eqb_spec (Z.land x mask) x) as [Heq|Hne]; simpl; [discriminate|].
  pose proof (split_by_mask mask x) as Hsplit.
  assert (Hw : 0 <= Z.land (Z.lnot mask) x) by (apply Z.land_nonneg; by right).
  assert (Hg : 0 <= Z.land mask x) by (apply Z.land_nonneg; by right).
  assert (Hnz : Z.land (Z.lnot mask) x <> 0) by (by rewrite <- land_comm_eq).
  assert (Hpow : 0 < 2 ^ Z.of_nat k) by (apply Z.pow_pos_nonneg; lia).
  assert (Hge : 2 ^ Z.of_nat k <= Z.land (Z.lnot mask) x).
  { apply Z.mod_divide in Hk; [|lia]. apply Z.divide_pos_le; [lia|exact Hk]. }
  assert (Hkb : (k < BadgeBits)%nat).
  { assert (2 ^ Z.of_nat k < 2 ^ Z.of_nat BadgeBits) as Hlt' by lia.
    apply Z.pow_lt_mono_r_iff in Hlt'; lia. }
  apply (IH _ (S k)); [lia|by apply repair_clears|lia|lia].
Qed.

Lemma rpc_set_next_badge_total (x : Z) :
  0 <= x -> Rpc.set_next_badge BadgeBits end_ x mask <> Raise OutOfFuel.
Proof.
  intros Hx. unfold Rpc.set_next_badge.
  apply (rpc_rec_fuel_suffices _ x 0); [exact Hx| |lia|lia].
  simpl. apply Z.mod_1_r.
Qed.
End RpcCursor.

(** ** The RPC scan *)

Section RpcScan.
Variable BadgeBits : nat.
Variable end_ : ConnectionEnd.
Variable base mask : Z.

Local Abbreviation snb := (Rpc.set_next_badge BadgeBits (end_str end_)).

Lemma rpc_snb_inside (c v : Z) :
  0 <= c -> snb c mask = Ok v -> inside_mask mask v /\ c <= v.
Proof.
  intros Hc H. apply rpc_rec_returns in H; [|exact Hc].
  destruct H as (Hle & Hm & _). repeat split; [lia|exact Hm|exact Hle].
Qed.

Lemma peer_loop_spec (peers : list ConnectionEnd) (acc : list Z) (c : Z)
    (r : list Z * Z) :
  inside_mask mask c ->
  Rpc.peer_loop BadgeBits end_ base mask peers acc c = Ok r ->
  exists new,
    fst r = (acc ++ new)%list /\ length new = length peers
    /\ Forall (emitted_between base mask c (snd r)) new
    /\ (Z.land base mask = 0 -> NoDup new)
    /\ inside_mask mask (snd r) /\ c <= snd r.
Proof.
  revert acc c r. induction peers as [|p peers IH]; intros acc c r Hc; simpl.
  - intros [= <-]. exists []. simpl. rewrite app_nil_r.
    repeat split; [constructor|constructor|apply Hc|apply Hc|lia].
  - destruct (snb (c + 1) mask) as [c1|e] eqn:Hstep; simpl; [|discriminate].
    destruct Hc as [Hc0 Hcm].
    apply rpc_snb_inside in Hstep as [Hc1 Hle]; [|lia].
    intros H. apply IH in H; [|exact Hc1].
    destruct H as (new & Hfst & Hlen & Hall & Hnd & Hin & Hle').
    assert (Hhead : emitted_between base mask c c1 (Z.lor c base)).
    { exists c. repeat split; [exact Hcm|lia|lia]. }
    exists (Z.lor c base :: new).
    repeat split; [by rewrite Hfst, <- app_assoc|simpl; by rewrite Hlen| |
                   |apply Hin|apply Hin|lia].
    + constructor.
      * eapply emitted_between_weaken; [| |exact Hhead]; lia.
      * eapply Forall_impl; [exact Hall|]. intros b Hb.
        eapply emitted_between_weaken; [| |exact Hb]; lia.
    + intros Hbase. constructor; [|by apply Hnd].
      intros Hmem. rewrite Forall_forall in Hall.
      by apply (emitted_between_apart base mask c c1 (snd r) _ _ Hbase Hhead
                  (Hall _ Hmem)).
Qed.

Lemma rpc_ends_spec (ends peers : list ConnectionEnd) (c : Z)
    (f : flow (list Z) (list Z * Z)) :
  inside_mask mask c ->
  Rpc.rpc_ends BadgeBits end_ base mask ends peers ([], c) = Ok f ->
  rpc_post base mask (length peers) f
  /\ (forall bs, f = Return bs -> exists i, i ∈ ends /\ is_end end_ i = true).
Proof.
  revert c. induction ends as [|i ends IH]; intros c Hc; simpl.
  - intros [= <-]. split; [by split|discriminate].
  - destruct (is_instance _ _).
    + destruct (Rpc.peer_loop _ _ _ _ peers [] c) as [r|e] eqn:Hloop; simpl;
        [|discriminate].
      apply peer_loop_spec in Hloop as (new & Hfst & Hlen & Hall & Hnd & Hin & _);
        [|exact Hc].
      simpl in Hfst. destruct (is_end end_ i) eqn:Hend.
      * intros [= <-]. split.
        -- simpl. rewrite Hfst. repeat split; [exact Hlen| |exact Hnd].
           eapply Forall_impl; [exact Hall|]. intros b. apply emitted_between_emitted.
        -- intros _ _. exists i. split; [constructor|exact Hend].
      * intros H. apply IH in H as [Hpost Hret]; [|exact Hin].
        split; [exact Hpost|]. intros bs Hbs.
        destruct (Hret bs Hbs) as (j & Hj & Hje). exists j. split; [by constructor|exact Hje].
    + intros H. apply IH in H as [Hpost Hret]; [|exact Hc].
      split; [exact Hpost|]. intros bs Hbs.
      destruct (Hret bs Hbs) as (j & Hj & Hje). exists j. split; [by constructor|exact Hje].
Qed.

Lemma rpc_connection_step_spec (conn : Connection) (c : Z)
    (f : flow (list Z) (list Z * Z)) :
  inside_mask mask c ->
  Rpc.connection_step BadgeBits end_ base mask conn ([], c) = Ok f ->
  match f with
  | Return bs =>
      Forall (emitted base mask) bs /\ (Z.land base mask = 0 -> NoDup bs)
      /\ serves end_ conn (length bs)
  | Continue st => fst st = [] /\ inside_mask mask (snd st)
  end.
Proof.
  intros Hc. unfold Rpc.connection_step, and_then.
  destruct (attribute_set (type conn) "from_global_rpc_endpoint").
  - destruct (Rpc.rpc_ends _ _ _ _ (from_ends conn) _ _) as [[bs|st]|e] eqn:H1; simpl;
      [| |discriminate].
    + intros [= <-]. apply rpc_ends_spec in H1 as [(Hlen & Hall & Hnd) Hret]; [|exact Hc].
      repeat split; [exact Hall|exact Hnd|].
      destruct (Hret bs eq_refl) as (i & Hi & Hie). left. by exists i.
    + apply rpc_ends_spec in H1 as [[Hfst Hst] _]; [|exact Hc].
      destruct st as [acc c1]. simpl in Hfst, Hst. subst acc.
      destruct (attribute_set (type conn) "to_global_rpc_endpoint"); [|by intros [= <-]].
      intros H2. apply rpc_ends_spec in H2 as [Hpost Hret]; [|exact Hst].
      destruct f as [bs|st]; [|exact Hpost].
      destruct Hpost as (Hlen & Hall & Hnd). repeat split; [exact Hall|exact Hnd|].
      destruct (Hret bs eq_refl) as (i & Hi & Hie). right. by exists i.
  - simpl. destruct (attribute_set (type conn) "to_global_rpc_endpoint"); [|by intros [= <-]].
    intros H2. apply rpc_ends_spec in H2 as [Hpost Hret]; [|exact Hc].
    destruct f as [bs|st]; [|exact Hpost].
    destruct Hpost as (Hlen & Hall & Hnd). repeat split; [exact Hall|exact Hnd|].
    destruct (Hret bs eq_refl) as (i & Hi & Hie). right. by exists i.
Qed.

Lemma rpc_scan_spec (cs : list Connection) (c : Z) (bs : list Z) :
  inside_mask mask c ->
  Rpc.scan BadgeBits end_ base mask cs ([], c) = Ok bs ->
  Forall (emitted base mask) bs /\ (Z.land base mask = 0 -> NoDup bs)
  /\ exists conn, conn ∈ cs /\ serves end_ conn (length bs).
Proof.
  revert c. induction cs as [|conn cs IH]; intros c Hc; simpl; [discriminate|].
  destruct (Rpc.connection_step _ _ _ _ conn _) as [f|e] eqn:Hstep; simpl;
    [|discriminate].
  apply rpc_connection_step_spec in Hstep; [|exact Hc].
  destruct f as [v|[acc c1]].
  - intros [= <-]. destruct Hstep as (Hall & Hnd & Hserves).
    repeat split; [exact Hall|exact Hnd|]. exists conn. split; [constructor|exact Hserves].
  - simpl in Hstep. destruct Hstep as [-> Hc1].
    intros H. apply IH in H as (Hall & Hnd & conn' & Hin & Hserves); [|exact Hc1].
    repeat split; [exact Hall|exact Hnd|]. exists conn'. split; [by constructor|exact Hserves].
Qed.
End RpcScan.

Section RpcFuel.
Variable BadgeBits : nat.
Variable end_ : ConnectionEnd.
Variable base mask : Z.

Local Abbreviation snb := (Rpc.set_next_badge BadgeBits (end_str end_)).

Lemma peer_loop_fuel_free (peers : list ConnectionEnd) (acc : list Z) (c : Z) :
  inside_mask mask c ->
  Rpc.peer_loop BadgeBits end_ base mask peers acc c <> Raise OutOfFuel.
Proof.
  revert acc c. induction peers as [|p peers IH]; intros acc c [Hc0 Hcm]; simpl;
    [discriminate|].
  pose proof (rpc_set_next_badge_total BadgeBits (end_str end_) mask (c + 1) ltac:(lia))
    as Hfree.
  destruct (snb (c + 1) mask) as [c1|e] eqn:Hstep; simpl; [|congruence].
  apply (rpc_snb_inside BadgeBits end_ mask) in Hstep as [Hc1 _]; [|lia]. by apply IH.
Qed.

Lemma rpc_ends_fuel_free (ends peers : list ConnectionEnd) (acc : list Z) (c : Z) :
  inside_mask mask c ->
  Rpc.rpc_ends BadgeBits end_ base mask ends peers (acc, c) <> Raise OutOfFuel.
Proof.
  revert acc c. induction ends as [|i ends IH]; intros acc c Hc; simpl; [discriminate|].
  destruct (is_instance _ _); [|by apply IH].
  pose proof (peer_loop_fuel_free peers acc c Hc) as Hfree.
  destruct (Rpc.peer_loop _ _ _ _ peers acc c) as [[acc1 c1]|e] eqn:Hloop; simpl;
    [|congruence].
  apply peer_loop_spec in Hloop as (new & _ & _ & _ & _ & Hin & _); [|exact Hc].
  destruct (is_end end_ i); [discriminate|by apply IH].
Qed.

Lemma rpc_connection_step_fuel_free (conn : Connection) (c : Z) :
  inside_mask mask c ->
  Rpc.connection_step BadgeBits end_ base mask conn ([], c) <> Raise OutOfFuel.
Proof.
  intros Hc. unfold Rpc.connection_step, and_then.
  destruct (attribute_set (type conn) "from_global_rpc_endpoint").
  - pose proof (rpc_ends_fuel_free (from_ends conn) (to_ends conn) [] c Hc) as Hfree.
    destruct (Rpc.rpc_ends _ _ _ _ (from_ends conn) _ _) as [[bs|[acc c1]]|e] eqn:H1;
      simpl; [discriminate| |congruence].
    apply rpc_ends_spec in H1 as [[_ Hst] _]; [|exact Hc].
    destruct (attribute_set _ _); [|discriminate]. by apply rpc_ends_fuel_free.
  - simpl. destruct (attribute_set _ _); [|discriminate]. by apply rpc_ends_fuel_free.
Qed.

Lemma rpc_scan_fuel_free (cs : list Connection) (c : Z) :
  inside_mask mask c ->
  Rpc.scan BadgeBits end_ base mask cs ([], c) <> Raise OutOfFuel.
Proof.
  revert c. induction cs as [|conn cs IH]; intros c Hc; simpl; [discriminate|].
  pose proof (rpc_connection_step_fuel_free conn c Hc) as Hfree.
  destruct (Rpc.connection_step _ _ _ _ conn _) as [[v|[acc c1]]|e] eqn:Hstep; simpl;
    [discriminate| |congruence].
  apply rpc_connection_step_spec in Hstep as [Hacc Hc1]; [|exact Hc].
  simpl in Hacc, Hc1. subst acc. by apply IH.
Qed.
End RpcFuel.

Lemma global_rpc_endpoint_badges_fuel_free (BadgeBits : nat) (composition : Composition)
    (end_ : ConnectionEnd) (configuration : Configuration) :
  Rpc.global_rpc_endpoint_badges BadgeBits composition end_ configuration
  <> Raise OutOfFuel.
Proof.
  unfold Rpc.global_rpc_endpoint_badges.
  pose proof (rpc_set_next_badge_total BadgeBits (end_str end_)
                (Rpc.mask_of BadgeBits configuration end_) 1 ltac:(lia)) as Hfree.
  destruct (Rpc.set_next_badge _ _ 1 _) as [c|e] eqn:Hfirst; simpl; [|congruence].
  apply rpc_snb_inside in Hfirst as [Hc _]; [|lia].
  by apply rpc_scan_fuel_free.
Qed.

(** What [global_rpc_endpoint_badges] returns: emitted badges, distinct if
    the base is outside the mask, one for each end on the other side of a
    connection of the end. *)
Lemma global_rpc_endpoint_badges_sound (BadgeBits : nat) (composition : Composition)
    (end_ : ConnectionEnd) (configuration : Configuration) (bs : list Z) :
  Rpc.global_rpc_endpoint_badges BadgeBits composition end_ configuration = Ok bs ->
  let base := Rpc.base_of configuration end_ in
  let mask := Rpc.mask_of BadgeBits configuration end_ in
  Forall (emitted base mask) bs /\ (Z.land base mask = 0 -> NoDup bs)
  /\ exists conn, conn ∈ connections composition /\ serves end_ conn (length bs).
Proof.
  unfold Rpc.global_rpc_endpoint_badges.
  destruct (Rpc.set_next_badge _ _ 1 _) as [c|e] eqn:Hfirst; simpl; [|discriminate].
  apply rpc_snb_inside in Hfirst as [Hc _]; [|lia].
  by apply rpc_scan_spec.
Qed.

(** C2, the notification allocator on a 28-bit badge with the mask
    0xFFFFFFFE configured for the receiver: the 28th end gets the raw
    badge [2 ^ 28], which is inside the mask and one bit too wide.  The
    width is tested on the cursor before it is shifted, not after. *)
Theorem notification_badge_exceeds_width :
  Notification.global_endpoint_badges 28 arm_tags (notification_composition 28)
    (receiver_end 27) (with_int "a" "global_endpoint_mask" (2 ^ 32 - 2) no_configuration)
    "aarch32"
  = Ok (Badge (Z.lor (2 ^ 28) 1))
  /\ Z.land (2 ^ 28) (2 ^ 32 - 2) = 2 ^ 28
  /\ ~ 2 ^ 28 < 2 ^ 28.
Proof. split; [vm_compute; reflexivity|]. split; [reflexivity|lia]. Qed.

(** ** The allocator does not depend on the identities of the objects *)

Lemma and_then_ext {R S T : Type} (r : result (flow R S))
    (k k' : S -> result (flow R T)) :
  (forall s, k s = k' s) -> and_then r k = and_then r k'.
Proof. intros H. unfold and_then. destruct r as [[v|s]|e]; simpl; auto. Qed.

Section Renaming.
Variable BadgeBits : nat.
Variable is_arch_arm : string -> bool.
Variable configuration : Configuration.
Variable arch : string.
Variables fi fe : nat -> nat.
Hypothesis fi_inj : forall a b, fi a = fi b -> a = b.
Hypothesis fe_inj : forall a b, fe a = fe b -> a = b.

Lemma eqb_inj (f : nat -> nat) (a b : nat) :
  (forall x y, f x = f y -> x = y) -> Nat.eqb (f a) (f b) = Nat.eqb a b.
Proof.
  intros Hf. destruct (Nat.eqb_spec a b) as [->|Hne].
  - apply Nat.eqb_refl.
  - apply Nat.eqb_neq. intros H. by apply Hne, Hf.
Qed.

Lemma is_instance_rename (a b : Instance) :
  is_instance (rename_instance fi a) (rename_instance fi b) = is_instance a b.
Proof. unfold is_instance. simpl. by apply eqb_inj. Qed.

Lemma is_end_rename (a b : ConnectionEnd) :
  is_end (rename_end fi fe a) (rename_end fi fe b) = is_end a b.
Proof. unfold is_end. simpl. by apply eqb_inj. Qed.

Variable end_ : ConnectionEnd.
Variable base mask : Z.

Lemma irq_loop_rename (irqs : list descriptor) (c : Z) :
  Notification.irq_loop BadgeBits (rename_end fi fe end_) base mask irqs c
  = Notification.irq_loop BadgeBits end_ base mask irqs c.
Proof.
  revert c. induction irqs as [|d irqs IH]; intros c; simpl; [reflexivity|].
  destruct (Notification.set_next_badge _ _ c mask) as [c1|e]; simpl; [|reflexivity].
  by rewrite IH.
Qed.

Lemma threadless_ends_rename (ends : list ConnectionEnd) (c : Z) :
  Notification.threadless_ends BadgeBits is_arch_arm configuration arch
    (rename_end fi fe end_) base mask (map (rename_end fi fe) ends) c
  = Notification.threadless_ends BadgeBits is_arch_arm configuration arch
    end_ base mask ends c.
Proof.
  revert c. induction ends as [|to_end ends IH]; intros c; simpl; [reflexivity|].
  destruct (negb _); [apply IH|].
  destruct (match get_dtb configuration (end_str to_end) with
            | Some query => index query 0 | None => Raise AttributeError end)
    as [dtb|e]; simpl; [|reflexivity].
  destruct (parse_dtb_node_interrupts is_arch_arm dtb (-1) arch) as [irqs|e]; simpl;
    [|reflexivity].
  rewrite irq_loop_rename.
  destruct (Notification.irq_loop _ _ _ _ irqs c) as [r|e]; simpl; [|reflexivity].
  rewrite is_end_rename. destruct (is_end end_ to_end); [reflexivity|apply IH].
Qed.

Lemma global_ends_rename (ends : list ConnectionEnd) (c : Z) :
  Notification.global_ends BadgeBits (rename_end fi fe end_) base mask
    (map (rename_end fi fe) ends) c
  = Notification.global_ends BadgeBits end_ base mask ends c.
Proof.
  revert c. induction ends as [|i ends IH]; intros c; simpl; [reflexivity|].
  rewrite is_instance_rename. destruct (is_instance _ _); [|apply IH].
  rewrite is_end_rename. destruct (is_end end_ i); [reflexivity|].
  destruct (Notification.set_next_badge _ _ c mask) as [c1|e]; simpl; [|reflexivity].
  apply IH.
Qed.

Lemma instance_among_rename (ends : list ConnectionEnd) :
    instance_in (instance (rename_end fi fe end_))
    (map instance (map (rename_end fi fe) ends))
  = instance_in (instance end_) (map instance ends).
Proof.
  unfold instance_in. induction ends as [|i ends IH]; simpl; [reflexivity|].
  by rewrite is_instance_rename, <- IH.
Qed.

Lemma connection_step_rename (conn : Connection) (c : Z) :
  Notification.connection_step BadgeBits is_arch_arm configuration arch
    (rename_end fi fe end_) base mask (rename_connection fi fe conn) c
  = Notification.connection_step BadgeBits is_arch_arm configuration arch
    end_ base mask conn c.
Proof.
  unfold Notification.connection_step. cbn [rename_connection type to_ends from_ends].
  rewrite instance_among_rename, threadless_ends_rename.
  apply and_then_ext. intros c1. rewrite global_ends_rename.
  apply and_then_ext. intros c2. by rewrite global_ends_rename.
Qed.

Lemma scan_rename (cs : list Connection) (c : Z) :
  Notification.scan BadgeBits is_arch_arm configuration arch
    (rename_end fi fe end_) base mask (map (rename_connection fi fe) cs) c
  = Notification.scan BadgeBits is_arch_arm configuration arch end_ base mask cs c.
Proof.
  revert c. induction cs as [|conn cs IH]; intros c; simpl; [reflexivity|].
  rewrite connection_step_rename.
  destruct (Notification.connection_step _ _ _ _ _ _ _ conn c) as [[v|c1]|e]; simpl;
    [reflexivity|apply IH|reflexivity].
Qed.
End Renaming.

(** The result does not depend on the identities of the objects of the
    graph, as long as distinct objects stay distinct. *)
Lemma global_endpoint_badges_rename (BadgeBits : nat)
    (is_arch_arm : string -> bool) (composition : Composition) (end_ : ConnectionEnd)
    (configuration : Configuration) (arch : string) (fi fe : nat -> nat) :
  (forall a b, fi a = fi b -> a = b) ->
  (forall a b, fe a = fe b -> a = b) ->
  Notification.global_endpoint_badges BadgeBits is_arch_arm
    (rename_composition fi fe composition) (rename_end fi fe end_)
    configuration arch
  = Notification.global_endpoint_badges BadgeBits is_arch_arm
    composition end_ configuration arch.
Proof.
  intros Hfi Hfe. unfold Notification.global_endpoint_badges.
  change (Notification.base_of configuration (rename_end fi fe end_))
    with (Notification.base_of configuration end_).
  change (Notification.mask_of BadgeBits configuration (rename_end fi fe end_))
    with (Notification.mask_of BadgeBits configuration end_).
  change (end_str (rename_end fi fe end_)) with (end_str end_).
  destruct (Notification.set_next_badge _ _ 0 _) as [c|e]; simpl; [|reflexivity].
  by apply scan_rename.
Qed.

(** ** The allocator leaves no state behind *)

Lemma alter_fresh (s : Stored.store) (xs : list Z) (f : list Z -> list Z) :
  alter f (length s) (s ++ [xs]) = s ++ [f xs].
Proof.
  rewrite <- (Nat.add_0_r (length s)). rewrite alter_app_r. reflexivity.
Qed.

Lemma agrees_later {A B : Type} (same : Stored.store -> Stored.store -> A -> B -> Prop)
    (before middle : Stored.store) (pure : result A)
    (outcome : result B * Stored.store) :
  (forall after a b, same middle after a b -> same before after a b) ->
  before `prefix_of` middle ->
  Stored.agrees same middle pure outcome -> Stored.agrees same before pure outcome.
Proof.
  intros Hsame Hprefix [Hp Hmatch]. split; [by etrans|].
  destruct pure as [a|e], (fst outcome) as [b|e']; try done. by apply Hsame.
Qed.

Lemma same_value_later (before middle after : Stored.store) (b : badges)
    (v : Stored.value) :
  before `prefix_of` middle ->
  Stored.same_value middle after b v -> Stored.same_value before after b v.
Proof.
  intros Hprefix. destruct b as [b|bs], v as [b'|a]; try done.
  cbn [Stored.same_value]. intros [Hle Hlook]. split; [|exact Hlook].
  apply prefix_length in Hprefix. lia.
Qed.

Lemma same_flow_later (before middle after : Stored.store) (f : flow badges Z)
    (g : flow Stored.value Z) :
  before `prefix_of` middle ->
  Stored.same_flow middle after f g -> Stored.same_flow before after f g.
Proof.
  intros Hprefix. destruct f as [b|c], g as [v|c']; try done.
  by apply same_value_later.
Qed.

Section StoredFacts.
Variable BadgeBits : nat.
Variable is_arch_arm : string -> bool.
Variable configuration : Configuration.
Variable arch : string.
Variable end_ : ConnectionEnd.
Variable base mask : Z.

Lemma irq_loop_step (d : descriptor) (irqs : list descriptor) (address : nat) (c : Z)
    (s : Stored.store) :
  Stored.irq_loop BadgeBits end_ base mask (d :: irqs) address c s
  = match Notification.set_next_badge BadgeBits (end_str end_) c mask with
    | Ok c1 =>
        Stored.irq_loop BadgeBits end_ base mask irqs address c1
          (alter (fun xs => xs ++ [Z.lor c base]) address s)
    | Raise e => (Raise e, alter (fun xs => xs ++ [Z.lor c base]) address s)
    end.
Proof.
  cbn [Stored.irq_loop]. unfold Stored.bind_run, Stored.append, Stored.lift.
  by destruct (Notification.set_next_badge BadgeBits (end_str end_) c mask).
Qed.

Lemma irq_loop_stored (irqs : list descriptor) (address : nat) (c : Z)
    (s : Stored.store) :
  exists bs,
    snd (Stored.irq_loop BadgeBits end_ base mask irqs address c s)
    = alter (fun xs => xs ++ bs) address s
    /\ match Notification.irq_loop BadgeBits end_ base mask irqs c with
       | Ok r =>
           fst (Stored.irq_loop BadgeBits end_ base mask irqs address c s) = Ok (snd r)
           /\ bs = fst r
       | Raise e =>
           fst (Stored.irq_loop BadgeBits end_ base mask irqs address c s) = Raise e
       end.
Proof.
  revert c s. induction irqs as [|d irqs IH]; intros c s.
  - exists []. cbn [Stored.irq_loop Notification.irq_loop Stored.ret fst snd].
    split; [|by split].
    symmetry. apply list_alter_id. intros xs. apply app_nil_r.
  - rewrite irq_loop_step. cbn [Notification.irq_loop].
    destruct (Notification.set_next_badge BadgeBits (end_str end_) c mask) as [c1|e];
      cbn [bind].
    + destruct (IH c1 (alter (fun xs => xs ++ [Z.lor c base]) address s))
        as (bs & Hstore & Hresult).
      exists (Z.lor c base :: bs). split.
      * rewrite Hstore, list_alter_alter_eq. apply list_alter_ext; [|reflexivity].
        intros xs _. cbn. by rewrite <- app_assoc.
      * destruct (Notification.irq_loop BadgeBits end_ base mask irqs c1) as [r|e];
          cbn [bind fst snd]; [|exact Hresult].
        destruct Hresult as [-> ->]. by split.
    + exists [Z.lor c base]. by split.
Qed.

Lemma threadless_ends_step (to_end : ConnectionEnd) (ends : list ConnectionEnd) (c : Z)
    (s : Stored.store) :
  Stored.threadless_ends BadgeBits is_arch_arm configuration arch end_ base mask
    (to_end :: ends) c s
  = if negb (default false (get_bool configuration (end_str to_end) "generate_interrupts"))
    then Stored.threadless_ends BadgeBits is_arch_arm configuration arch end_ base mask
           ends c s
    else
      match (let* dtb :=
               match get_dtb configuration (end_str to_end) with
               | None => Raise AttributeError
               | Some query => index query 0
               end in
             parse_dtb_node_interrupts is_arch_arm dtb (-1) arch) with
      | Raise e => (Raise e, s)
      | Ok irqs =>
          match Stored.irq_loop BadgeBits end_ base mask irqs (length s) c (s ++ [[]]) with
          | (Ok c1, s1) =>
              if is_end end_ to_end
              then (Ok (Return (Stored.ListObject (length s))), s1)
              else Stored.threadless_ends BadgeBits is_arch_arm configuration arch end_
                     base mask ends c1 s1
          | (Raise e, s1) => (Raise e, s1)
          end
      end.
Proof.
  cbn [Stored.threadless_ends]. destruct (negb _); [reflexivity|].
  unfold Stored.bind_run, Stored.lift, Stored.new_list.
  destruct (match get_dtb configuration (end_str to_end) with
            | Some query => index query 0 | None => Raise AttributeError end)
    as [dtb|e]; cbn [bind]; [|reflexivity].
  destruct (parse_dtb_node_interrupts is_arch_arm dtb (-1) arch) as [irqs|e];
    [|reflexivity].
  destruct (Stored.irq_loop BadgeBits end_ base mask irqs (length s) c (s ++ [[]]))
    as [[c1|e] s1]; [|reflexivity].
  by destruct (is_end end_ to_end).
Qed.

Lemma threadless_ends_stored (ends : list ConnectionEnd) (c : Z) (s : Stored.store) :
  Stored.agrees Stored.same_flow s
    (Notification.threadless_ends BadgeBits is_arch_arm configuration arch end_ base mask
       ends c)
    (Stored.threadless_ends BadgeBits is_arch_arm configuration arch end_ base mask
       ends c s).
Proof.
  revert c s. induction ends as [|to_end ends IH]; intros c s.
  - by split.
  - rewrite threadless_ends_step. cbn [Notification.threadless_ends].
    destruct (negb _); [apply IH|].
    destruct (match get_dtb configuration (end_str to_end) with
              | Some query => index query 0 | None => Raise AttributeError end)
      as [dtb|e]; cbn [bind]; [|by split].
    destruct (parse_dtb_node_interrupts is_arch_arm dtb (-1) arch) as [irqs|e];
      cbn [bind]; [|by split].
    destruct (irq_loop_stored irqs (length s) c (s ++ [[]])) as (bs & Hstore & Hresult).
    rewrite alter_fresh in Hstore. cbn [app] in Hstore.
    destruct (Stored.irq_loop BadgeBits end_ base mask irqs (length s) c (s ++ [[]]))
      as [r s1]. cbn [fst snd] in Hstore, Hresult. subst s1.
    destruct (Notification.irq_loop BadgeBits end_ base mask irqs c) as [[bs' c1]|e];
      cbn [bind fst snd] in *.
    + destruct Hresult as [-> ->].
      destruct (is_end end_ to_end).
      * split; [by apply prefix_app_r|].
        cbn [fst snd Stored.same_flow Stored.same_value]. split; [lia|].
        rewrite lookup_app_r by lia. by rewrite Nat.sub_diag.
      * apply (agrees_later _ s (s ++ [bs'])); [|by apply prefix_app_r|apply IH].
        intros after f g. apply same_flow_later. by apply prefix_app_r.
    + rewrite Hresult. split; [by apply prefix_app_r | done].
Qed.

Lemma global_ends_stored (ends : list ConnectionEnd) (c : Z) (s : Stored.store) :
  Stored.agrees Stored.same_flow s
    (Notification.global_ends BadgeBits end_ base mask ends c)
    (Stored.global_ends BadgeBits end_ base mask ends c s).
Proof.
  revert c. induction ends as [|i ends IH]; intros c;
    cbn [Stored.global_ends Notification.global_ends].
  - by split.
  - destruct (is_instance _ _); [|apply IH].
    destruct (is_end end_ i); [by split|].
    unfold Stored.bind_run, Stored.lift.
    destruct (Notification.set_next_badge BadgeBits (end_str end_) c mask) as [c1|e];
      cbn [bind]; [apply IH | by split].
Qed.

Lemma and_then_stored (p : result (flow badges Z)) (m : Stored.run (flow Stored.value Z))
    (k : Z -> result (flow badges Z)) (k' : Z -> Stored.run (flow Stored.value Z))
    (s : Stored.store) :
  Stored.agrees Stored.same_flow s p (m s) ->
  (forall c s', Stored.agrees Stored.same_flow s' (k c) (k' c s')) ->
  Stored.agrees Stored.same_flow s (and_then p k) (Stored.and_then_run m k' s).
Proof.
  intros [Hprefix Hsame] Hk. unfold and_then, Stored.and_then_run, Stored.bind_run.
  destruct (m s) as [[g|e'] s1], p as [f|e]; cbn [fst snd bind] in *; try done.
  destruct f as [b|c], g as [v|c']; try done.
  cbn [Stored.same_flow] in Hsame. subst c'.
  apply (agrees_later _ s s1); [|exact Hprefix|apply Hk].
  intros after f g. by apply same_flow_later.
Qed.

Lemma connection_step_stored (conn : Connection) (c : Z) (s : Stored.store) :
  Stored.agrees Stored.same_flow s
    (Notification.connection_step BadgeBits is_arch_arm configuration arch end_ base mask
       conn c)
    (Stored.connection_step BadgeBits is_arch_arm configuration arch end_ base mask
       conn c s).
Proof.
  unfold Notification.connection_step, Stored.connection_step.
  apply and_then_stored.
  - destruct (_ && _); [apply threadless_ends_stored | by split].
  - intros c1 s1. apply and_then_stored.
    + destruct (attribute_set _ _); [apply global_ends_stored | by split].
    + intros c2 s2. destruct (attribute_set _ _); [apply global_ends_stored | by split].
Qed.

Lemma scan_stored (cs : list Connection) (c : Z) (s : Stored.store) :
  Stored.agrees Stored.same_value s
    (Notification.scan BadgeBits is_arch_arm configuration arch end_ base mask cs c)
    (Stored.scan BadgeBits is_arch_arm configuration arch end_ base mask cs c s).
Proof.
  revert c s. induction cs as [|conn cs IH]; intros c s;
    cbn [Notification.scan Stored.scan]; [by split|].
  pose proof (connection_step_stored conn c s) as [Hprefix Hsame].
  unfold Stored.bind_run.
  destruct (Stored.connection_step _ _ _ _ _ _ _ conn c s) as [[g|e'] s1],
    (Notification.connection_step _ _ _ _ _ _ _ conn c) as [f|e];
    cbn [fst snd bind] in *; try done.
  destruct f as [b|c1], g as [v|c1']; try done.
  cbn [Stored.same_flow] in Hsame. subst c1'.
  apply (agrees_later _ s s1); [|exact Hprefix|apply IH].
  intros after b v. by apply same_value_later.
Qed.
End StoredFacts.

Lemma global_endpoint_badges_stored (BadgeBits : nat) (is_arch_arm : string -> bool)
    (composition : Composition) (end_ : ConnectionEnd)
    (configuration : Configuration) (arch : string) (s : Stored.store) :
  Stored.agrees Stored.same_value s
    (Notification.global_endpoint_badges BadgeBits is_arch_arm composition end_
       configuration arch)
    (Stored.global_endpoint_badges BadgeBits is_arch_arm composition end_
       configuration arch s).
Proof.
  unfold Notification.global_endpoint_badges, Stored.global_endpoint_badges.
  unfold Stored.bind_run, Stored.lift.
  destruct (Notification.set_next_badge _ _ 0 _) as [c|e]; cbn [bind]; [|by split].
  apply scan_stored.
Qed.

(** What the caller sees of the call on the store is what the allocator
    on integers and lists gives. *)
Lemma observe_stored (BadgeBits : nat) (is_arch_arm : string -> bool)
    (composition : Composition) (end_ : ConnectionEnd)
    (configuration : Configuration) (arch : string) (s : Stored.store) :
  Stored.observe
    (Stored.global_endpoint_badges BadgeBits is_arch_arm composition end_
       configuration arch s)
  = Notification.global_endpoint_badges BadgeBits is_arch_arm composition end_
      configuration arch.
Proof.
  destruct (global_endpoint_badges_stored BadgeBits is_arch_arm composition end_
              configuration arch s) as [_ Hsame].
  unfold Stored.observe.
  destruct (Notification.global_endpoint_badges _ _ _ _ _ _) as [[b|bs]|e],
    (Stored.global_endpoint_badges _ _ _ _ _ _ s) as [[[b'|a]|e'] s1];
    cbn [fst snd Stored.same_value] in *; try done.
  - by subst.
  - destruct Hsame as [_ ->]. reflexivity.
  - by subst.
Qed.

(** C9: two invocations of the notification allocator give the same
    result, the same badge, a list of the same badges or the same error,
    whatever the store of list objects is in which each of them starts: the
    one the first invocation has left, changed or not by the caller, or any
    other.  An invocation changes no object that was there before it, and
    the list it returns is an object it has made itself.  So no state of
    one call reaches another; and what the caller sees is what the
    allocator gives when it is written on integers and lists alone. *)
Theorem global_endpoint_badges_repeatable (BadgeBits : nat)
    (is_arch_arm : string -> bool) (composition : Composition) (end_ : ConnectionEnd)
    (configuration : Configuration) (arch : string) :
  (forall first second : Stored.store,
     Stored.observe
       (Stored.global_endpoint_badges BadgeBits is_arch_arm composition end_
          configuration arch first)
     = Stored.observe
         (Stored.global_endpoint_badges BadgeBits is_arch_arm composition end_
            configuration arch second))
  /\ (forall before : Stored.store,
        before `prefix_of`
          snd (Stored.global_endpoint_badges BadgeBits is_arch_arm composition end_
                 configuration arch before)
        /\ Stored.fresh_in before
             (Stored.global_endpoint_badges BadgeBits is_arch_arm composition end_
                configuration arch before))
  /\ (forall s : Stored.store,
        Stored.observe
          (Stored.global_endpoint_badges BadgeBits is_arch_arm composition end_
             configuration arch s)
        = Notification.global_endpoint_badges BadgeBits is_arch_arm composition end_
            configuration arch).
Proof.
  split; [|split]; [| |apply observe_stored].
  - intros first second. by rewrite !observe_stored.
  - intros before.
    destruct (global_endpoint_badges_stored BadgeBits is_arch_arm composition end_
                configuration arch before) as [Hprefix Hsame].
    split; [exact Hprefix|]. unfold Stored.fresh_in.
    destruct (Notification.global_endpoint_badges _ _ _ _ _ _) as [[b|bs]|e],
      (Stored.global_endpoint_badges _ _ _ _ _ _ before) as [[[b'|a]|e'] s1];
      cbn [fst snd Stored.same_value] in *; try done.
    destruct Hsame as [Hle Hlook]. split; [exact Hle|].
    apply lookup_lt_is_Some. by eexists.
Qed.

(** The device of the sample gets the badges 3 and 5 for its two
    interrupts, in a new list object: after a first call whose list the
    caller has emptied, the second call makes another list with the same
    badges. *)
Lemma global_endpoint_badges_repeatable_witness :
  Stored.global_endpoint_badges 28 arm_tags hardware_composition device_end
    hardware_configuration "aarch32" [[7]]
  = (Ok (Stored.ListObject 1), [[7]; [3; 5]])
  /\ Stored.global_endpoint_badges 28 arm_tags hardware_composition device_end
       hardware_configuration "aarch32" [[7]; []]
     = (Ok (Stored.ListObject 2), [[7]; []; [3; 5]])
  /\ Stored.observe
       (Stored.global_endpoint_badges 28 arm_tags hardware_composition device_end
          hardware_configuration "aarch32" [[7]])
     = Stored.observe
         (Stored.global_endpoint_badges 28 arm_tags hardware_composition device_end
            hardware_configuration "aarch32" [[7]; []]).
Proof.
  split; [vm_compute; reflexivity|]. split; [vm_compute; reflexivity|].
  apply (proj1 (global_endpoint_badges_repeatable 28 arm_tags hardware_composition
                  device_end hardware_configuration "aarch32")).
Defined.


(** ** virtqueue_get_client_id *)

Lemma list_index_three (e0 e1 e2 : ConnectionEnd) :
  end_id e0 <> end_id e1 -> end_id e0 <> end_id e2 -> end_id e1 <> end_id e2 ->
  list_index e0 [e0; e1; e2] = Ok 0%nat
  /\ list_index e1 [e0; e1; e2] = Ok 1%nat
  /\ list_index e2 [e0; e1; e2] = Ok 2%nat.
Proof.
  intros H01 H02 H12. unfold list_index, is_end.
  rewrite !Nat.eqb_refl.
  apply Nat.eqb_neq in H01, H02, H12. rewrite H01, H02, H12. by repeat split.
Qed.

(** C8: an instance with three seL4VirtQueues ends, one of them pinned to
    2 by its [<interface>_id] setting and the other two not pinned: the
    two get 0 and 1 in declaration order, whichever of the three is the
    pinned one, and the pinned end keeps 2. *)
Theorem virtqueue_ids_skip_pinned (composition : Composition)
    (configuration : Configuration) (inst : Instance) (e0 e1 e2 : ConnectionEnd) :
  virtqueue_ends composition inst = [e0; e1; e2] ->
  instance e0 = inst -> instance e1 = inst -> instance e2 = inst ->
  end_id e0 <> end_id e1 -> end_id e0 <> end_id e2 -> end_id e1 <> end_id e2 ->
  let ids := map (pinned_id configuration inst) [e0; e1; e2] in
  let id_of e := virtqueue_get_client_id composition e configuration in
  (ids = [Some 2; None; None] ->
   id_of e0 = Ok (Some 2) /\ id_of e1 = Ok (Some 0) /\ id_of e2 = Ok (Some 1))
  /\ (ids = [None; Some 2; None] ->
   id_of e0 = Ok (Some 0) /\ id_of e1 = Ok (Some 2) /\ id_of e2 = Ok (Some 1))
  /\ (ids = [None; None; Some 2] ->
   id_of e0 = Ok (Some 0) /\ id_of e1 = Ok (Some 1) /\ id_of e2 = Ok (Some 2)).
Proof.
  intros Hends H0 H1 H2 H01 H02 H12 ids id_of. subst ids id_of.
  destruct (list_index_three e0 e1 e2 H01 H02 H12) as (I0 & I1 & I2).
  unfold virtqueue_get_client_id. rewrite H0, H1, H2, Hends, I0, I1, I2.
  repeat split; rewrite H; reflexivity.
Qed.

Lemma virtqueue_ids_skip_pinned_witness :
  virtqueue_get_client_id virtqueue_composition (vm_end 0)
    (with_int "vm" "q1_id" 2 no_configuration) = Ok (Some 0)
  /\ virtqueue_get_client_id virtqueue_composition (vm_end 2)
    (with_int "vm" "q1_id" 2 no_configuration) = Ok (Some 1).
Proof.
  pose proof (virtqueue_ids_skip_pinned virtqueue_composition
    (with_int "vm" "q1_id" 2 no_configuration) vm (vm_end 0) (vm_end 1) (vm_end 2)
    eq_refl eq_refl eq_refl eq_refl ltac:(simpl; lia) ltac:(simpl; lia) ltac:(simpl; lia))
    as (_ & H & _).
  destruct (H eq_refl) as (A & _ & B). split; [exact A|exact B].
Defined.

(** ** The dictionary of labels *)

Lemma dict_get_set (k v k' : string) (d : dict) :
  dict_get k' (dict_set k v d) = if decide (k = k') then Some v else dict_get k' d.
Proof.
  induction d as [|[k0 v0] d IH]; simpl.
  - destruct (String.eqb_spec k' k) as [->|Hne]; case_decide; congruence.
  - destruct (String.eqb_spec k k0) as [->|Hne]; simpl.
    + destruct (String.eqb_spec k' k0) as [->|Hne']; case_decide; congruence.
    + destruct (String.eqb_spec k' k0) as [->|Hne'].
      * case_decide; congruence.
      * exact IH.
Qed.

Lemma dict_get_None (k : string) (d : dict) : dict_get k d = None <-> k ∉ keys d.
Proof.
  induction d as [|[k0 v0] d IH]; simpl.
  - split; [intros _; apply not_elem_of_nil|reflexivity].
  - rewrite not_elem_of_cons. destruct (String.eqb_spec k k0) as [->|Hne].
    + split; [discriminate|intros [? _]; congruence].
    + rewrite IH. split; [by split|by intros [_ ?]].
Qed.

Lemma dict_get_Some (k v : string) (d : dict) : dict_get k d = Some v -> k ∈ keys d.
Proof.
  intros H. destruct (decide (k ∈ keys d)) as [Hin|Hout]; [exact Hin|].
  apply dict_get_None in Hout. congruence.
Qed.

Lemma keys_set (k v x : string) (d : dict) :
  x ∈ keys (dict_set k v d) <-> x = k \/ x ∈ keys d.
Proof.
  induction d as [|[k0 v0] d IH]; simpl.
  - rewrite list_elem_of_singleton. split; [by left|intros [?|H]; [done|by apply elem_of_nil in H]].
  - destruct (String.eqb_spec k k0) as [->|Hne]; simpl.
    + rewrite !elem_of_cons. tauto.
    + rewrite !elem_of_cons, IH. tauto.
Qed.

Lemma keys_length (d : dict) : length (keys d) = length d.
Proof. apply length_map. Qed.

(** ** get_canonical_label *)

Lemma redirects_snoc (gl : dict) (pre : list string) (x y : string) :
  redirects gl (pre ++ [x]) -> dict_get x gl = Some y -> redirects gl ((pre ++ [x]) ++ [y]).
Proof.
  intros H Hx. induction pre as [|a pre IH]; simpl in *; [by split|].
  destruct pre as [|b pre]; simpl in *.
  - destruct H as [Ha _]. by repeat split.
  - destruct H as [Ha H]. split; [exact Ha|]. by apply IH.
Qed.

Lemma redirects_keys (gl : dict) (pre : list string) (x : string) :
  redirects gl (pre ++ [x]) -> forall a, a ∈ pre -> a ∈ keys gl.
Proof.
  induction pre as [|b pre IH]; intros H a Ha; [by apply elem_of_nil in Ha|].
  assert (Hb : b ∈ keys gl /\ redirects gl (pre ++ [x])).
  { destruct pre as [|c pre]; simpl in H; destruct H as [Hb H];
      (split; [by eapply dict_get_Some|exact H]). }
  apply elem_of_cons in Ha as [->|Ha]; [apply Hb|]. by apply IH; [apply Hb|].
Qed.

(** Distinct names that are all keys are no more than the entries. *)
Lemma distinct_keys_bounded (gl : dict) (l : list string) :
  NoDup l -> (forall a, a ∈ l -> a ∈ keys gl) -> (length l <= length gl)%nat.
Proof.
  intros Hnd Hin. rewrite <- keys_length.
  apply submseteq_length, NoDup_submseteq; [exact Hnd|exact Hin].
Qed.

Section CanonicalLabel.
Variable gl : dict.

Lemma loop_returns_canonical (fuel : nat) (group : string) (seen : list string)
    (g : string) :
  get_canonical_label_loop fuel gl group seen = Ok g -> dict_get g gl = None.
Proof.
  revert group seen. induction fuel as [|fuel IH]; intros group seen; simpl;
    [discriminate|].
  destruct (dict_get group gl) as [group'|] eqn:Hget.
  - case_bool_decide; [discriminate|]. apply IH.
  - by intros [= <-].
Qed.

(** A chain that comes back to one of its names: the loop follows it to
    its end and raises the error with the chain in it. *)
Lemma loop_follows_cycle (suffix : list string) (fuel : nat) (group : string)
    (pre : list string) (z again : string) :
  (length suffix < fuel)%nat ->
  redirects gl (group :: suffix) ->
  NoDup ((pre ++ [group]) ++ suffix) ->
  last (group :: suffix) = Some z -> dict_get z gl = Some again ->
  again ∈ (pre ++ [group]) ++ suffix ->
  get_canonical_label_loop fuel gl group (pre ++ [group])
  = Raise (TemplateError (CycleInGroupLabelling ((pre ++ [group]) ++ suffix))).
Proof.
  revert fuel group pre.
  induction suffix as [|s suffix IH]; intros fuel group pre Hfuel Hred Hnd Hlast Hz Hin;
    (destruct fuel as [|fuel]; [simpl in Hfuel; lia|]); simpl.
  - injection Hlast as <-. rewrite Hz. rewrite app_nil_r in *.
    by rewrite bool_decide_eq_true_2.
  - destruct Hred as [Hgs Hred]. rewrite Hgs.
    rewrite bool_decide_eq_false_2.
    + replace ((pre ++ [group]) ++ s :: suffix)
        with (((pre ++ [group]) ++ [s]) ++ suffix) in * by (by rewrite <- app_assoc).
      apply IH; [simpl in Hfuel; lia|exact Hred|exact Hnd| |exact Hz|exact Hin].
      by rewrite last_cons_cons in Hlast.
    + apply NoDup_app in Hnd as (_ & Hdisj & _). intros Hs.
      apply (Hdisj s Hs). constructor.
Qed.

(** The loop raises nothing but the cycle error, and never reaches the
    bound of the model. *)
Lemma loop_raises_cycle (fuel : nat) (pre : list string) (group : string)
    (e : py_error) :
  redirects gl (pre ++ [group]) -> NoDup (pre ++ [group]) ->
  (length gl + 2 <= fuel + length (pre ++ [group]))%nat ->
  get_canonical_label_loop fuel gl group (pre ++ [group]) = Raise e ->
  exists chain z again,
    e = TemplateError (CycleInGroupLabelling (chain ++ [z]))
    /\ (pre ++ [group]) `prefix_of` (chain ++ [z])
    /\ redirects gl (chain ++ [z]) /\ NoDup (chain ++ [z])
    /\ dict_get z gl = Some again /\ again ∈ chain ++ [z].
Proof.
  revert pre group. induction fuel as [|fuel IH]; intros pre group Hred Hnd Hfuel.
  - exfalso.
    assert (length pre <= length gl)%nat.
    { apply distinct_keys_bounded; [by apply NoDup_app in Hnd as (? & _)|].
      by apply (redirects_keys gl pre group). }
    rewrite length_app in Hfuel. simpl in Hfuel. lia.
  - simpl. destruct (dict_get group gl) as [group'|] eqn:Hget; [|discriminate].
    case_bool_decide as Hseen.
    + intros [= <-]. exists pre, group, group'. by repeat split.
    + intros H. apply IH in H.
      * destruct H as (chain & z & again & He & Hpre & H).
        exists chain, z, again. repeat split; try apply H; [exact He|].
        etrans; [|exact Hpre]. by apply prefix_app_r.
      * by apply redirects_snoc.
      * apply NoDup_app. repeat split; [exact Hnd| |apply NoDup_singleton].
        intros x Hx Hx'. apply list_elem_of_singleton in Hx'. by subst.
      * rewrite length_app. simpl. lia.
Qed.
End CanonicalLabel.

(** C7: canonicalisation follows the redirects, and it fails exactly when a
    name comes back on its own chain: the only error it raises is the
    cycle error, with the chain of names seen in it; every chain from a
    name that comes back to one of its names raises it; and with A
    redirected to B and B to A, both A and B raise it. *)
Theorem get_canonical_label_cycle (group_labels : dict) :
  (forall l e,
     get_canonical_label group_labels l = Raise e ->
     exists chain z again,
       e = TemplateError (CycleInGroupLabelling (chain ++ [z]))
       /\ head (chain ++ [z]) = Some l
       /\ redirects group_labels (chain ++ [z]) /\ NoDup (chain ++ [z])
       /\ dict_get z group_labels = Some again /\ again ∈ chain ++ [z])
  /\ (forall l rest z again,
        redirects group_labels (l :: rest) -> NoDup (l :: rest) ->
        last (l :: rest) = Some z -> dict_get z group_labels = Some again ->
        again ∈ l :: rest ->
        get_canonical_label group_labels l
        = Raise (TemplateError (CycleInGroupLabelling (l :: rest))))
  /\ (forall A B,
        A <> B -> dict_get A group_labels = Some B -> dict_get B group_labels = Some A ->
        get_canonical_label group_labels A
          = Raise (TemplateError (CycleInGroupLabelling [A; B]))
        /\ get_canonical_label group_labels B
          = Raise (TemplateError (CycleInGroupLabelling [B; A]))).
Proof.
  assert (Hcycle : forall l rest z again,
    redirects group_labels (l :: rest) -> NoDup (l :: rest) ->
    last (l :: rest) = Some z -> dict_get z group_labels = Some again ->
    again ∈ l :: rest ->
    get_canonical_label group_labels l
    = Raise (TemplateError (CycleInGroupLabelling (l :: rest)))).
  { intros l rest z again Hred Hnd Hlast Hz Hin. unfold get_canonical_label.
    apply (loop_follows_cycle group_labels rest _ l [] z again);
      [|exact Hred|exact Hnd|exact Hlast|exact Hz|exact Hin].
    assert (length (l :: rest) <= length group_labels)%nat; [|simpl in *; lia].
    apply distinct_keys_bounded; [exact Hnd|].
    apply last_Some in Hlast as [body Hbody]. rewrite Hbody in *.
    intros a Ha. apply elem_of_app in Ha as [Ha|Ha].
    - by apply (redirects_keys group_labels body z).
    - apply list_elem_of_singleton in Ha as ->. by eapply dict_get_Some. }
  split; [|split].
  - intros l e H. unfold get_canonical_label in H.
    apply (loop_raises_cycle group_labels _ [] l) in H;
      [|exact I|apply NoDup_singleton|simpl; lia].
    destruct H as (chain & z & again & He & [k Hpre] & Hred & Hnd & Hz & Hin).
    exists chain, z, again. repeat split; try done. by rewrite Hpre.
  - exact Hcycle.
  - intros A B Hne HA HB. split.
    + apply (Hcycle A [B] B A); [by split| |reflexivity|exact HB|constructor].
      apply NoDup_cons. split; [by rewrite list_elem_of_singleton|apply NoDup_singleton].
    + apply (Hcycle B [A] A B); [by split| |reflexivity|exact HA|constructor].
      apply NoDup_cons. split; [by rewrite list_elem_of_singleton|apply NoDup_singleton].
Qed.

Lemma get_canonical_label_cycle_witness :
  get_canonical_label [("A", "B"); ("B", "A")] "A"
    = Raise (TemplateError (CycleInGroupLabelling ["A"; "B"]))
  /\ get_canonical_label [("A", "B"); ("B", "A")] "B"
    = Raise (TemplateError (CycleInGroupLabelling ["B"; "A"])).
Proof.
  apply (proj2 (proj2 (get_canonical_label_cycle [("A", "B"); ("B", "A")])) "A" "B").
  - discriminate.
  - reflexivity.
  - reflexivity.
Defined.

(** ** integrity_group_labels *)

Lemma get_canonical_label_canonical (gl : dict) (l g : string) :
  get_canonical_label gl l = Ok g -> g ∉ keys gl.
Proof.
  intros H. apply dict_get_None. by apply loop_returns_canonical in H.
Qed.

Lemma label_groups_keys (cs : list Instance) (gl gl' : dict) :
  label_groups cs gl = Ok gl' ->
  (forall k, k ∈ keys gl -> k ∈ keys gl')
  /\ (forall c, c ∈ cs -> address_space c <> inst_name c -> inst_name c ∈ keys gl').
Proof.
  revert gl. induction cs as [|c cs IH]; intros gl; simpl.
  - intros [= <-]. split; [done|]. intros c Hc. by apply elem_of_nil in Hc.
  - destruct (String.eqb_spec (address_space c) (inst_name c)) as [Heq|Hne]; simpl.
    + intros H. apply IH in H as [Hmono Hin]. split; [exact Hmono|].
      intros c' Hc'. apply elem_of_cons in Hc' as [->|Hc']; [done|by apply Hin].
    + destruct (get_canonical_label gl (address_space c)) as [l|e]; simpl; [|discriminate].
      intros H. apply IH in H as [Hmono Hin]. split.
      * intros k Hk. apply Hmono, keys_set. by right.
      * intros c' Hc'. apply elem_of_cons in Hc' as [->|Hc']; [|by apply Hin].
        intros _. apply Hmono, keys_set. by left.
Qed.

Lemma label_configured_keys (cfg : Configuration) (cs : list Instance) (gl gl' : dict) :
  label_configured cfg cs gl = Ok gl' ->
  (forall k, k ∈ keys gl -> k ∈ keys gl')
  /\ (forall c, c ∈ cs -> is_Some (get_str cfg (inst_name c) "integrity_label") ->
                inst_name c ∈ keys gl').
Proof.
  revert gl. induction cs as [|c cs IH]; intros gl; simpl.
  - intros [= <-]. split; [done|]. intros c Hc. by apply elem_of_nil in Hc.
  - destruct (get_str cfg (inst_name c) "integrity_label") as [l|] eqn:Hl.
    + destruct (get_canonical_label gl l) as [l'|e]; simpl; [|discriminate].
      intros H. apply IH in H as [Hmono Hin]. split.
      * intros k Hk. apply Hmono, keys_set. by right.
      * intros c' Hc'. apply elem_of_cons in Hc' as [->|Hc']; [|by apply Hin].
        intros _. apply Hmono, keys_set. by left.
    + intros H. apply IH in H as [Hmono Hin]. split; [exact Hmono|].
      intros c' Hc'. apply elem_of_cons in Hc' as [->|Hc']; [|by apply Hin].
      rewrite Hl. by intros [? ?].
Qed.

Lemma label_connections_keys (conns : list Connection) (gl gl' : dict) :
  label_connections conns gl = Ok gl' -> forall k, k ∈ keys gl -> k ∈ keys gl'.
Proof.
  revert gl. induction conns as [|conn conns IH]; intros gl; simpl.
  - by intros [= <-].
  - destruct (connection_groups gl conn) as [groups|e]; simpl; [|discriminate].
    destruct (elements groups) as [|g [|g' rest]]; try apply IH.
    intros H k Hk. apply (IH _ H), keys_set. by right.
Qed.

Lemma label_connections_app (pre post : list Connection) (gl : dict) :
  label_connections (pre ++ post) gl
  = let* gl' := label_connections pre gl in label_connections post gl'.
Proof.
  revert gl. induction pre as [|conn pre IH]; intros gl; simpl; [reflexivity|].
  destruct (connection_groups gl conn) as [groups|e]; simpl; [|reflexivity].
  destruct (elements groups) as [|g [|g' rest]]; apply IH.
Qed.

(** The comprehension at the end keeps the keys and makes every value a
    name [group_labels] does not redirect. *)
Lemma canonical_values (gl d labels : dict) :
  for_each (fun cg => let* l := get_canonical_label gl (snd cg) in Ok (fst cg, l)) d
    = Ok labels ->
  keys labels = keys d /\ (forall k v, (k, v) ∈ labels -> v ∉ keys gl).
Proof.
  revert labels. induction d as [|[k0 v0] d IH]; intros labels; simpl.
  - intros [= <-]. split; [reflexivity|]. intros k v H. by apply elem_of_nil in H.
  - destruct (get_canonical_label gl v0) as [l|e] eqn:Hl; simpl; [|discriminate].
    destruct (for_each _ d) as [labels'|e]; simpl; [|discriminate].
    intros [= <-]. destruct (IH labels' eq_refl) as [Hkeys Hvals]. split.
    + simpl. by rewrite Hkeys.
    + intros k v H. apply elem_of_cons in H as [[= -> ->]|H]; [|by eapply Hvals].
      by eapply get_canonical_label_canonical.
Qed.

(** The only way the function fails is the cycle error. *)
Lemma get_canonical_label_raises (gl : dict) (l : string) (e : py_error) :
  get_canonical_label gl l = Raise e -> is_cycle_error e.
Proof.
  intros H. unfold get_canonical_label in H.
  apply (loop_raises_cycle gl _ [] l) in H; [|exact I|apply NoDup_singleton|simpl; lia].
  destruct H as (chain & z & _ & -> & _). by eexists.
Qed.

Lemma label_groups_raises (cs : list Instance) (gl : dict) (e : py_error) :
  label_groups cs gl = Raise e -> is_cycle_error e.
Proof.
  revert gl. induction cs as [|c cs IH]; intros gl; simpl; [discriminate|].
  destruct (negb _); [|apply IH].
  destruct (get_canonical_label gl (address_space c)) as [l|e'] eqn:Hl; simpl; [apply IH|].
  intros [= <-]. by eapply get_canonical_label_raises.
Qed.

Lemma label_configured_raises (cfg : Configuration) (cs : list Instance) (gl : dict)
    (e : py_error) :
  label_configured cfg cs gl = Raise e -> is_cycle_error e.
Proof.
  revert gl. induction cs as [|c cs IH]; intros gl; simpl; [discriminate|].
  destruct (get_str cfg (inst_name c) "integrity_label") as [l|]; [|apply IH].
  destruct (get_canonical_label gl l) as [l'|e'] eqn:Hl; simpl; [apply IH|].
  intros [= <-]. by eapply get_canonical_label_raises.
Qed.

Lemma label_connections_raises (conns : list Connection) (gl : dict) (e : py_error) :
  label_connections conns gl = Raise e -> is_cycle_error e.
Proof.
  revert gl. induction conns as [|conn conns IH]; intros gl; simpl; [discriminate|].
  unfold connection_groups.
  destruct (for_each _ (from_ends conn ++ to_ends conn)) as [ls|e'] eqn:Hls; simpl.
  - destruct (elements _) as [|g [|g' rest]]; apply IH.
  - intros [= <-]. apply for_each_raise in Hls as (x & _ & Hx).
    by eapply get_canonical_label_raises.
Qed.

Lemma integrity_group_labels_raises (composition : Composition)
    (configuration : Configuration) (e : py_error) :
  integrity_group_labels composition configuration = Raise e -> is_cycle_error e.
Proof.
  unfold integrity_group_labels.
  destruct (label_groups (instances composition) []) as [gl0|e0] eqn:H0; simpl;
    [|intros [= <-]; by eapply label_groups_raises].
  destruct (label_configured configuration (instances composition) gl0) as [gl1|e1] eqn:H1;
    simpl; [|intros [= <-]; by eapply label_configured_raises].
  destruct (label_connections (connections composition) gl1) as [gl2|e2] eqn:H2; simpl;
    [|intros [= <-]; by eapply label_connections_raises].
  intros H. apply for_each_raise in H as ([k v] & _ & Hx). simpl in Hx.
  destruct (get_canonical_label gl2 v) as [l|e'] eqn:Hl; simpl in Hx; [discriminate|].
  injection Hx as <-. by eapply get_canonical_label_raises.
Qed.

(** A connection whose ends all resolve to [g] has the one group [g]. *)
Lemma connection_groups_one (gl : dict) (conn : Connection) (g : string) :
  (from_ends conn ++ to_ends conn)%list <> [] ->
  (forall e, e ∈ (from_ends conn ++ to_ends conn)%list ->
     get_canonical_label gl (inst_name (instance e)) = Ok g) ->
  exists groups, connection_groups gl conn = Ok groups /\ elements groups = [g].
Proof.
  unfold connection_groups. generalize (from_ends conn ++ to_ends conn)%list.
  intros ends Hne Hall. exists {[ g ]}. split; [|apply elements_singleton].
  assert (Hls : exists ls,
    for_each (fun e => get_canonical_label gl (inst_name (instance e))) ends = Ok ls
    /\ (ends <> [] -> list_to_set ls = ({[ g ]} : gset string))).
  { clear Hne. induction ends as [|e ends IH]; cbn [for_each].
    - exists []. split; [reflexivity | done].
    - rewrite (Hall e) by constructor. cbn [bind].
      destruct IH as (ls & Hls & Hset); [intros e' He'; apply Hall; by constructor|].
      rewrite Hls. cbn [bind]. exists (g :: ls). split; [reflexivity|]. intros _.
      cbn [list_to_set]. destruct ends as [|e' ends].
      + cbn [for_each] in Hls. injection Hls as <-. cbn [list_to_set].
        apply (right_id_L ∅ (∪)).
      + rewrite Hset by done. apply (idemp_L (∪)). }
  destruct Hls as (ls & -> & Hset). cbn [bind]. by rewrite Hset.
Qed.

(** C6, as amended: when [integrity_group_labels] returns, the keys of the
    mapping include every instance that is in a group (its address space
    is not its own name) or has an [integrity_label] setting, and every
    connection whose ends all resolve to one label when it is scanned.
    No value of the mapping is a key of it. *)
Theorem integrity_group_labels_canonical (composition : Composition)
    (configuration : Configuration) (labels : dict) :
  integrity_group_labels composition configuration = Ok labels ->
  (forall c, c ∈ instances composition ->
     address_space c <> inst_name c
     \/ is_Some (get_str configuration (inst_name c) "integrity_label") ->
     inst_name c ∈ keys labels)
  /\ (forall pre conn post,
        connections composition = pre ++ conn :: post ->
        internal_when_scanned composition configuration pre conn ->
        conn_name conn ∈ keys labels)
  /\ (forall k v, (k, v) ∈ labels -> v ∉ keys labels).
Proof.
  unfold integrity_group_labels.
  destruct (label_groups (instances composition) []) as [gl0|e] eqn:H0; simpl;
    [|discriminate].
  destruct (label_configured configuration (instances composition) gl0) as [gl1|e] eqn:H1;
    simpl; [|discriminate].
  destruct (label_connections (connections composition) gl1) as [gl2|e] eqn:H2; simpl;
    [|discriminate].
  intros Hfinal. apply canonical_values in Hfinal as [Hkeys Hvals].
  pose proof (label_groups_keys _ _ _ H0) as [_ Hgrouped].
  pose proof (label_configured_keys _ _ _ _ H1) as [Hmono1 Hconfigured].
  pose proof (label_connections_keys _ _ _ H2) as Hmono2.
  rewrite Hkeys. split; [|split].
  - intros c Hc [Hgroup|Hlabel]; apply Hmono2.
    + by apply Hmono1, Hgrouped.
    + by apply Hconfigured.
  - intros pre conn post Hconns (gl & g & Hbefore & Hends & Hresolve).
    destruct (connection_groups_one gl conn g Hends Hresolve) as (groups & Hgroups & Hone).
    unfold labels_before in Hbefore. rewrite H0 in Hbefore. simpl in Hbefore.
    rewrite H1 in Hbefore. simpl in Hbefore.
    rewrite Hconns, label_connections_app in H2.
    rewrite Hbefore in H2. simpl in H2. rewrite Hgroups in H2. simpl in H2.
    rewrite Hone in H2.
    apply (label_connections_keys _ _ _ H2), keys_set. by left.
  - intros k v Hkv. by eapply Hvals.
Qed.

Lemma integrity_group_labels_canonical_witness :
  integrity_group_labels grouped_composition
    (with_str "z" "integrity_label" "trusted" no_configuration)
  = Ok [("x", "grp"); ("y", "grp"); ("z", "trusted"); ("inner", "grp")]
  /\ "x" ∈ keys [("x", "grp"); ("y", "grp"); ("z", "trusted"); ("inner", "grp")]
  /\ "z" ∈ keys [("x", "grp"); ("y", "grp"); ("z", "trusted"); ("inner", "grp")]
  /\ "inner" ∈ keys [("x", "grp"); ("y", "grp"); ("z", "trusted"); ("inner", "grp")].
Proof.
  set (configuration := with_str "z" "integrity_label" "trusted" no_configuration).
  set (labels := [("x", "grp"); ("y", "grp"); ("z", "trusted"); ("inner", "grp")]).
  assert (H : integrity_group_labels grouped_composition configuration = Ok labels)
    by (vm_compute; reflexivity).
  split; [exact H|].
  destruct (integrity_group_labels_canonical grouped_composition configuration _ H)
    as (Hinst & Hconn & _).
  split; [|split].
  - apply (Hinst (grouped 0 "x")); [constructor|]. left. discriminate.
  - apply (Hinst alone); [do 2 constructor; constructor|]. right. by eexists.
  - apply (Hconn [] {| conn_name := "inner"; type := rpc_connector;
                       from_ends := [end_of 0 (grouped 0 "x") "out"];
                       to_ends := [end_of 1 (grouped 1 "y") "in"] |}
                 [ {| conn_name := "outer"; type := rpc_connector;
                      from_ends := [end_of 2 (grouped 0 "x") "out2"];
                      to_ends := [end_of 3 alone "in"] |} ]); [reflexivity|].
    exists [("x", "grp"); ("y", "grp"); ("z", "trusted")], "grp".
    split; [vm_compute; reflexivity|]. split; [discriminate|].
    intros e He. cbn [from_ends to_ends app] in He.
    apply elem_of_cons in He as [->|He]; [vm_compute; reflexivity|].
    apply list_elem_of_singleton in He as ->. vm_compute. reflexivity.
Defined.

(** C6, as it is stated, on a composition of one instance on its own: the
    mapping returned is empty, and the instance is not a key of it. *)
Lemma lone_instance_is_not_labelled :
  integrity_group_labels lone_composition no_configuration = Ok []
  /\ alone ∈ instances lone_composition
  /\ inst_name alone ∉ keys [].
Proof.
  split; [reflexivity|]. split; [constructor|apply not_elem_of_nil].
Qed.

(** ** Two ends of one instance never share a badge *)

Lemma emitted_between_above (base mask lo hi b : Z) :
  emitted_between base mask lo hi b -> raw_above base mask lo b.
Proof. intros (raw & -> & Hm & Hr). exists raw. repeat split; [exact Hm|lia]. Qed.

Lemma emitted_between_below (base mask lo hi b : Z) :
  emitted_between base mask lo hi b -> raw_below base mask hi b.
Proof. intros (raw & -> & Hm & Hr). exists raw. repeat split; [exact Hm|lia]. Qed.

Lemma raw_below_above_differ (base mask mid a b : Z) :
  Z.land base mask = 0 -> raw_below base mask mid a -> raw_above base mask mid b -> a <> b.
Proof.
  intros Hbase (ra & -> & Hma & Hra) (rb & -> & Hmb & Hrb) Heq.
  apply (lor_base_inj ra rb base mask Hbase Hma Hmb) in Heq. lia.
Qed.

Section TwoCallsFacts.
Context {R S : Type}.
Variables base mask : Z.
Variable values : R -> list Z.
Variable cursor : S -> Z.
Variable good : S -> Prop.

Local Abbreviation above' := (above base mask values).
Local Abbreviation below' := (below base mask values).
Local Abbreviation apart' := (apart base mask values).
Local Abbreviation post_one' := (post_one base mask values cursor good).
Local Abbreviation post_two' := (post_two base mask values cursor).
Local Abbreviation sat_one' := (sat_one base mask values cursor good).
Local Abbreviation sat_two' := (sat_two base mask values cursor good).

Lemma above_weaken (lo lo' : Z) (r : R) : lo' <= lo -> above' lo r -> above' lo' r.
Proof.
  intros Hlo H. eapply Forall_impl; [exact H|]. intros b (raw & -> & Hm & Hr).
  exists raw. repeat split; [exact Hm|lia].
Qed.

Lemma below_weaken (hi hi' : Z) (r : R) : hi <= hi' -> below' hi r -> below' hi' r.
Proof.
  intros Hhi H. eapply Forall_impl; [exact H|]. intros b (raw & -> & Hm & Hr).
  exists raw. repeat split; [exact Hm|lia].
Qed.

Lemma post_one_weaken (c c' : Z) (f : flow R S) : c' <= c -> post_one' c f -> post_one' c' f.
Proof.
  intros Hc. destruct f as [r|s]; simpl.
  - by apply above_weaken.
  - intros [Hg Hle]. split; [exact Hg|lia].
Qed.

Lemma apart_differ (r1 r2 : R) (a b : Z) :
  Z.land base mask = 0 -> apart' r1 r2 -> a ∈ values r1 -> b ∈ values r2 -> a <> b.
Proof.
  intros Hbase [mid [[H1 H2]|[H2 H1]]] Ha Hb; unfold below, above in *;
    rewrite Forall_forall in H1, H2.
  - by eapply raw_below_above_differ; [exact Hbase|apply H1|apply H2].
  - intros Heq. symmetry in Heq. revert Heq.
    by eapply raw_below_above_differ; [exact Hbase|apply H2|apply H1].
Qed.

Lemma apart_sym (r1 r2 : R) : apart' r1 r2 -> apart' r2 r1.
Proof. intros [mid [H|H]]; exists mid; [by right|by left]. Qed.

Lemma skip_one : sat_one' (fun s => Ok (Continue s)).
Proof. intros s f Hs [= <-]. split; [exact Hs|lia]. Qed.

Lemma skip_two : sat_two' (fun s => Ok (Continue s)) (fun s => Ok (Continue s)).
Proof. by intros s f1 f2 Hs [= <-] [= <-]. Qed.

Lemma and_then_one (k1 k2 : S -> result (flow R S)) :
  sat_one' k1 -> sat_one' k2 -> sat_one' (fun s => and_then (k1 s) k2).
Proof.
  intros H1 H2 s f Hs. unfold and_then.
  destruct (k1 s) as [[r|s1]|e] eqn:Hk1; simpl; [|intros Hk2|discriminate].
  - intros [= <-]. by apply (H1 s).
  - destruct (H1 s _ Hs Hk1) as [Hs1 Hle].
    apply (post_one_weaken (cursor s1)); [exact Hle|]. by apply (H2 s1).
Qed.

Lemma and_then_two (k1 k1' k2 k2' : S -> result (flow R S)) :
  sat_one' k1 -> sat_one' k1' -> sat_one' k2 -> sat_one' k2' ->
  sat_two' k1 k1' -> sat_two' k2 k2' ->
  sat_two' (fun s => and_then (k1 s) k2) (fun s => and_then (k1' s) k2').
Proof.
  intros A1 A1' A2 A2' B1 B2 s f1 f2 Hs. unfold and_then.
  destruct (k1 s) as [g1|e] eqn:Hg1; simpl; [|discriminate].
  destruct (k1' s) as [g2|e] eqn:Hg2; simpl; [|destruct g1; discriminate].
  pose proof (B1 s g1 g2 Hs Hg1 Hg2) as Hpair.
  pose proof (A1 s g1 Hs Hg1) as Hone. pose proof (A1' s g2 Hs Hg2) as Hone'.
  destruct g1 as [r1|s1], g2 as [r2|s2]; simpl in *.
  - by intros [= <-] [= <-].
  - intros [= <-] Hk. destruct Hone' as [Hs2 _].
    pose proof (A2' s2 f2 Hs2 Hk) as Hrest. destruct f2 as [r2|s3]; simpl in *.
    + exists (cursor s2). by left.
    + eapply below_weaken; [|exact Hpair]. lia.
  - intros Hk [= <-]. destruct Hone as [Hs1 _].
    pose proof (A2 s1 f1 Hs1 Hk) as Hrest. destruct f1 as [r1|s3]; simpl in *.
    + exists (cursor s1). by right.
    + eapply below_weaken; [|exact Hpair]. lia.
  - subst s2. destruct Hone as [Hs1 _]. by apply B2.
Qed.
End TwoCallsFacts.

Section NotificationTwoCalls.
Variable BadgeBits : nat.
Variable is_arch_arm : string -> bool.
Variable configuration : Configuration.
Variable arch : string.
Variable base mask : Z.

Local Abbreviation one :=
  (sat_one base mask badges_values (fun c : Z => c) (power_in_mask mask)).
Local Abbreviation two :=
  (sat_two base mask badges_values (fun c : Z => c) (power_in_mask mask)).
Local Abbreviation threadless :=
  (Notification.threadless_ends BadgeBits is_arch_arm configuration arch).
Local Abbreviation global := (Notification.global_ends BadgeBits).
Local Abbreviation step :=
  (Notification.connection_step BadgeBits is_arch_arm configuration arch).
Local Abbreviation scan :=
  (Notification.scan BadgeBits is_arch_arm configuration arch).

(** The end a call is made for only shows in the text of its errors. *)
Lemma rec_returns_for_any_end (fuel : nat) (s1 s2 : string) (c v : Z) :
  Notification.set_next_badge_rec BadgeBits fuel s1 c mask = Ok v ->
  Notification.set_next_badge_rec BadgeBits fuel s2 c mask = Ok v.
Proof.
  revert c. induction fuel as [|fuel IH]; intros c; [discriminate|].
  rewrite !rec_unfold. destruct (c >=? _); [discriminate|].
  destruct (Z.land _ mask =? 0); [apply IH|done].
Qed.

Lemma set_next_badge_for_any_end (s1 s2 : string) (c v : Z) :
  Notification.set_next_badge BadgeBits s1 c mask = Ok v ->
  Notification.set_next_badge BadgeBits s2 c mask = Ok v.
Proof. apply rec_returns_for_any_end. Qed.

Lemma irq_loop_for_any_end (e1 e2 : ConnectionEnd) (irqs : list descriptor) (c : Z)
    (r : list Z * Z) :
  Notification.irq_loop BadgeBits e1 base mask irqs c = Ok r ->
  Notification.irq_loop BadgeBits e2 base mask irqs c = Ok r.
Proof.
  revert c r. induction irqs as [|d irqs IH]; intros c r; simpl; [done|].
  destruct (Notification.set_next_badge _ (end_str e1) c mask) as [c1|e] eqn:H1; simpl;
    [|discriminate].
  rewrite (set_next_badge_for_any_end _ (end_str e2) _ _ H1). simpl.
  destruct (Notification.irq_loop _ e1 _ _ irqs c1) as [r1|e] eqn:Hr; simpl;
    [|discriminate].
  by rewrite (IH _ _ Hr).
Qed.

Lemma threadless_one (e : ConnectionEnd) (ends : list ConnectionEnd) :
  one (threadless e base mask ends).
Proof.
  induction ends as [|to_end ends IH]; intros c f Hc; simpl.
  - intros [= <-]. split; [exact Hc|lia].
  - destruct (negb _); [by apply IH|].
    destruct (match get_dtb configuration (end_str to_end) with
              | Some query => index query 0 | None => Raise AttributeError end)
      as [dtb|err]; simpl; [|discriminate].
    destruct (parse_dtb_node_interrupts is_arch_arm dtb (-1) arch) as [irqs|err]; simpl;
      [|discriminate].
    destruct (Notification.irq_loop _ _ _ _ irqs c) as [r|err] eqn:Hloop; simpl;
      [|discriminate].
    apply irq_loop_spec in Hloop as (Hp & Hle & _ & Hall & _); [|exact Hc].
    destruct (is_end e to_end).
    + intros [= <-]. simpl. eapply Forall_impl; [exact Hall|].
      intros b. apply emitted_between_above.
    + intros H. apply (post_one_weaken _ _ _ _ _ (snd r)); [exact Hle|]. by apply IH.
Qed.

Lemma threadless_two (e1 e2 : ConnectionEnd) (ends : list ConnectionEnd) :
  end_id e1 <> end_id e2 ->
  two (threadless e1 base mask ends) (threadless e2 base mask ends).
Proof.
  intros Hne. induction ends as [|to_end ends IH]; intros c f1 f2 Hc; simpl.
  - by intros [= <-] [= <-].
  - destruct (negb _); [by apply IH|].
    destruct (match get_dtb configuration (end_str to_end) with
              | Some query => index query 0 | None => Raise AttributeError end)
      as [dtb|err]; simpl; [|discriminate].
    destruct (parse_dtb_node_interrupts is_arch_arm dtb (-1) arch) as [irqs|err]; simpl;
      [|discriminate].
    destruct (Notification.irq_loop _ e1 _ _ irqs c) as [r|err] eqn:Hloop; simpl;
      [|discriminate].
    rewrite (irq_loop_for_any_end e1 e2 _ _ _ Hloop). simpl.
    apply irq_loop_spec in Hloop as (Hp & Hle & _ & Hall & _); [|exact Hc].
    assert (Hbelow : Forall (raw_below base mask (snd r)) (fst r)).
    { eapply Forall_impl; [exact Hall|]. intros b. apply emitted_between_below. }
    unfold is_end.
    destruct (Nat.eqb_spec (end_id e1) (end_id to_end)) as [E1|N1];
      destruct (Nat.eqb_spec (end_id e2) (end_id to_end)) as [E2|N2]; [congruence| | |].
    + intros [= <-] H2. pose proof (threadless_one e2 ends _ _ Hp H2) as Hrest.
      destruct f2 as [r2|c2]; simpl in *.
      * exists (snd r). by left.
      * eapply Forall_impl; [exact Hbelow|]. intros b (raw & -> & Hm & Hr).
        exists raw. repeat split; [exact Hm|lia].
    + intros H1 [= <-]. pose proof (threadless_one e1 ends _ _ Hp H1) as Hrest.
      destruct f1 as [r1|c1]; simpl in *.
      * exists (snd r). by right.
      * eapply Forall_impl; [exact Hbelow|]. intros b (raw & -> & Hm & Hr).
        exists raw. repeat split; [exact Hm|lia].
    + by apply IH.
Qed.

Lemma global_one (e : ConnectionEnd) (ends : list ConnectionEnd) :
  one (global e base mask ends).
Proof.
  induction ends as [|i ends IH]; intros c f Hc; simpl.
  - intros [= <-]. split; [exact Hc|lia].
  - destruct (is_instance _ _); [|by apply IH].
    destruct (is_end e i).
    + intros [= <-]. simpl. constructor; [|constructor].
      exists c. repeat split; [apply Hc|lia].
    + destruct (Notification.set_next_badge _ _ c mask) as [c1|err] eqn:Hstep; simpl;
        [|discriminate].
      apply (snb_power BadgeBits e mask) in Hstep as [Hc1 Hlt]; [|by right].
      intros H. apply (post_one_weaken _ _ _ _ _ c1); [lia|]. by apply IH.
Qed.

Lemma global_two (e1 e2 : ConnectionEnd) (ends : list ConnectionEnd) :
  instance e1 = instance e2 -> end_id e1 <> end_id e2 ->
  two (global e1 base mask ends) (global e2 base mask ends).
Proof.
  intros Hinst Hne. induction ends as [|i ends IH]; intros c f1 f2 Hc; simpl.
  - by intros [= <-] [= <-].
  - rewrite <- Hinst. destruct (is_instance _ _); [|by apply IH].
    assert (Hhere : raw_below base mask (c + 1) (Z.lor c base)).
    { exists c. repeat split; [apply Hc|lia]. }
    unfold is_end.
    destruct (Nat.eqb_spec (end_id e1) (end_id i)) as [E1|N1];
      destruct (Nat.eqb_spec (end_id e2) (end_id i)) as [E2|N2]; [congruence| | |].
    + intros [= <-].
      destruct (Notification.set_next_badge _ _ c mask) as [c1|err] eqn:Hstep; simpl;
        [|discriminate].
      apply (snb_power BadgeBits e2 mask) in Hstep as [Hc1 Hlt]; [|by right].
      intros H2. pose proof (global_one e2 ends _ _ Hc1 H2) as Hrest.
      destruct f2 as [r2|c2]; simpl in *.
      * exists c1. left. split; [|exact Hrest]. constructor; [|constructor].
        destruct Hhere as (raw & -> & Hm & Hr). exists raw. repeat split; [exact Hm|lia].
      * constructor; [|constructor].
        destruct Hhere as (raw & -> & Hm & Hr). exists raw. repeat split; [exact Hm|lia].
    + destruct (Notification.set_next_badge _ _ c mask) as [c1|err] eqn:Hstep; simpl;
        [|discriminate].
      apply (snb_power BadgeBits e1 mask) in Hstep as [Hc1 Hlt]; [|by right].
      intros H1 [= <-]. pose proof (global_one e1 ends _ _ Hc1 H1) as Hrest.
      destruct f1 as [r1|c1']; simpl in *.
      * exists c1. right. split; [|exact Hrest]. constructor; [|constructor].
        destruct Hhere as (raw & -> & Hm & Hr). exists raw. repeat split; [exact Hm|lia].
      * constructor; [|constructor].
        destruct Hhere as (raw & -> & Hm & Hr). exists raw. repeat split; [exact Hm|lia].
    + destruct (Notification.set_next_badge _ (end_str e1) c mask) as [c1|err] eqn:Hstep;
        simpl; [|discriminate].
      rewrite (set_next_badge_for_any_end _ (end_str e2) _ _ Hstep). simpl.
      apply (snb_power BadgeBits e1 mask) in Hstep as [Hc1 Hlt]; [|by right].
      by apply IH.
Qed.

Lemma step_one (e : ConnectionEnd) (conn : Connection) : one (step e base mask conn).
Proof.
  unfold Notification.connection_step.
  apply and_then_one; [|apply and_then_one].
  - destruct (_ && _); [apply threadless_one|apply skip_one].
  - destruct (attribute_set _ _); [apply global_one|apply skip_one].
  - destruct (attribute_set _ _); [apply global_one|apply skip_one].
Qed.

Lemma step_two (e1 e2 : ConnectionEnd) (conn : Connection) :
  instance e1 = instance e2 -> end_id e1 <> end_id e2 ->
  two (step e1 base mask conn) (step e2 base mask conn).
Proof.
  intros Hinst Hne. unfold Notification.connection_step. rewrite <- Hinst.
  apply and_then_two; [| |apply and_then_one|apply and_then_one| |apply and_then_two];
    try (destruct (attribute_set _ _); [apply global_one|apply skip_one]);
    try (destruct (attribute_set _ _); [by apply global_two|apply skip_two]);
    try (destruct (_ && _); [apply threadless_one|apply skip_one]).
  destruct (_ && _); [by apply threadless_two|apply skip_two].
Qed.

Lemma scan_one (e : ConnectionEnd) (cs : list Connection) (c : Z) (r : badges) :
  power_in_mask mask c -> scan e base mask cs c = Ok r ->
  above base mask badges_values c r.
Proof.
  revert c. induction cs as [|conn cs IH]; intros c Hc; simpl; [discriminate|].
  destruct (step e base mask conn c) as [f|err] eqn:Hstep; simpl; [|discriminate].
  apply step_one in Hstep; [|exact Hc]. destruct f as [v|c1]; simpl in Hstep.
  - by intros [= <-].
  - destruct Hstep as [Hc1 Hle]. intros H.
    eapply above_weaken; [exact Hle|]. by apply IH.
Qed.

Lemma scan_two (e1 e2 : ConnectionEnd) (cs : list Connection) (c : Z) (r1 r2 : badges) :
  instance e1 = instance e2 -> end_id e1 <> end_id e2 ->
  power_in_mask mask c ->
  scan e1 base mask cs c = Ok r1 -> scan e2 base mask cs c = Ok r2 ->
  apart base mask badges_values r1 r2.
Proof.
  intros Hinst Hne. revert c. induction cs as [|conn cs IH]; intros c Hc; simpl;
    [discriminate|].
  destruct (step e1 base mask conn c) as [f1|err] eqn:H1; simpl; [|discriminate].
  destruct (step e2 base mask conn c) as [f2|err] eqn:H2; simpl;
    [|destruct f1; discriminate].
  pose proof (step_two e1 e2 conn Hinst Hne c f1 f2 Hc H1 H2) as Hpair.
  pose proof (step_one e1 conn c f1 Hc H1) as Hone1.
  pose proof (step_one e2 conn c f2 Hc H2) as Hone2.
  destruct f1 as [v1|c1], f2 as [v2|c2]; simpl in *.
  - by intros [= <-] [= <-].
  - intros [= <-] Hrest. destruct Hone2 as [Hc2 _].
    exists c2. left. split; [exact Hpair|]. by apply (scan_one e2 cs).
  - intros Hrest [= <-]. destruct Hone1 as [Hc1 _].
    exists c1. right. split; [exact Hpair|]. by apply (scan_one e1 cs).
  - subst c2. destruct Hone1 as [Hc1 _]. by apply IH.
Qed.
End NotificationTwoCalls.

(** Two ends of one instance get different notification badges. *)
Lemma global_endpoint_badges_apart (BadgeBits : nat) (is_arch_arm : string -> bool)
    (composition : Composition) (e1 e2 : ConnectionEnd)
    (configuration : Configuration) (arch : string) (r1 r2 : badges) :
  instance e1 = instance e2 -> end_id e1 <> end_id e2 ->
  Z.land (Notification.base_of configuration e1)
         (Notification.mask_of BadgeBits configuration e1) = 0 ->
  Notification.global_endpoint_badges BadgeBits is_arch_arm composition e1
    configuration arch = Ok r1 ->
  Notification.global_endpoint_badges BadgeBits is_arch_arm composition e2
    configuration arch = Ok r2 ->
  forall a b, a ∈ badges_values r1 -> b ∈ badges_values r2 -> a <> b.
Proof.
  intros Hinst Hne Hbase. unfold Notification.global_endpoint_badges.
  assert (Hb : Notification.base_of configuration e2 = Notification.base_of configuration e1)
    by (unfold Notification.base_of; by rewrite Hinst).
  assert (Hm : Notification.mask_of BadgeBits configuration e2
               = Notification.mask_of BadgeBits configuration e1)
    by (unfold Notification.mask_of, Notification.base_of; by rewrite Hinst).
  rewrite Hb, Hm.
  destruct (Notification.set_next_badge _ (end_str e1) 0 _) as [c|err] eqn:Hfirst; simpl;
    [|discriminate].
  rewrite (set_next_badge_for_any_end _ _ _ (end_str e2) _ _ Hfirst). simpl.
  apply snb_power in Hfirst as [Hc _]; [|by left].
  intros H1 H2 a b.
  apply (apart_differ (Notification.base_of configuration e1)
           (Notification.mask_of BadgeBits configuration e1) badges_values r1 r2 a b Hbase).
  by apply (scan_two BadgeBits is_arch_arm configuration arch _ _ e1 e2
              (connections composition) c).
Qed.

Section RpcTwoCalls.
Variable BadgeBits : nat.
Variable base mask : Z.

Local Abbreviation one :=
  (sat_one base mask (fun bs : list Z => bs) (snd : list Z * Z -> Z) (rpc_state_ok mask)).
Local Abbreviation two :=
  (sat_two base mask (fun bs : list Z => bs) (snd : list Z * Z -> Z) (rpc_state_ok mask)).
Local Abbreviation ends_of := (Rpc.rpc_ends BadgeBits).
Local Abbreviation step := (Rpc.connection_step BadgeBits).
Local Abbreviation scan := (Rpc.scan BadgeBits).

Lemma rpc_rec_returns_for_any_end (fuel : nat) (s1 s2 : string) (c v : Z) :
  Rpc.set_next_badge_rec BadgeBits fuel s1 c mask = Ok v ->
  Rpc.set_next_badge_rec BadgeBits fuel s2 c mask = Ok v.
Proof.
  revert c. induction fuel as [|fuel IH]; intros c; [discriminate|].
  rewrite !rpc_rec_unfold. destruct (c >=? _); [discriminate|].
  destruct (negb _); [apply IH|done].
Qed.

Lemma rpc_set_next_badge_for_any_end (s1 s2 : string) (c v : Z) :
  Rpc.set_next_badge BadgeBits s1 c mask = Ok v ->
  Rpc.set_next_badge BadgeBits s2 c mask = Ok v.
Proof. apply rpc_rec_returns_for_any_end. Qed.

Lemma peer_loop_for_any_end (e1 e2 : ConnectionEnd) (peers : list ConnectionEnd)
    (acc : list Z) (c : Z) (r : list Z * Z) :
  Rpc.peer_loop BadgeBits e1 base mask peers acc c = Ok r ->
  Rpc.peer_loop BadgeBits e2 base mask peers acc c = Ok r.
Proof.
  revert acc c. induction peers as [|p peers IH]; intros acc c; simpl; [done|].
  destruct (Rpc.set_next_badge _ (end_str e1) (c + 1) mask) as [c1|e] eqn:H1; simpl;
    [|discriminate].
  rewrite (rpc_set_next_badge_for_any_end _ (end_str e2) _ _ H1). simpl. apply IH.
Qed.

Lemma rpc_ends_one_from (e : ConnectionEnd) (ends peers : list ConnectionEnd) (c : Z)
    (f : flow (list Z) (list Z * Z)) :
  inside_mask mask c -> ends_of e base mask ends peers ([], c) = Ok f ->
  post_one base mask (fun bs : list Z => bs) snd (rpc_state_ok mask) c f.
Proof.
  revert c. induction ends as [|i ends IH]; intros c Hc; simpl.
  - intros [= <-]. simpl. repeat split; [apply Hc|apply Hc|lia].
  - destruct (is_instance _ _); [|by apply IH].
    destruct (Rpc.peer_loop _ _ _ _ peers [] c) as [r|err] eqn:Hloop; simpl;
      [|discriminate].
    apply peer_loop_spec in Hloop as (new & Hfst & _ & Hall & _ & Hin & Hle); [|exact Hc].
    simpl in Hfst. destruct (is_end e i).
    + intros [= <-]. simpl. rewrite Hfst.
      eapply Forall_impl; [exact Hall|]. intros b. apply emitted_between_above.
    + intros H. apply (post_one_weaken _ _ _ _ _ (snd r)); [exact Hle|]. by apply IH.
Qed.

Lemma rpc_ends_one (e : ConnectionEnd) (ends peers : list ConnectionEnd) :
  one (fun st => ends_of e base mask ends peers st).
Proof.
  intros [acc c] f [Hacc Hc]. simpl in Hacc, Hc. subst acc. by apply rpc_ends_one_from.
Qed.

Lemma rpc_ends_two_from (e1 e2 : ConnectionEnd) (ends peers : list ConnectionEnd) (c : Z)
    (f1 f2 : flow (list Z) (list Z * Z)) :
  instance e1 = instance e2 -> end_id e1 <> end_id e2 -> inside_mask mask c ->
  ends_of e1 base mask ends peers ([], c) = Ok f1 ->
  ends_of e2 base mask ends peers ([], c) = Ok f2 ->
  post_two base mask (fun bs : list Z => bs) snd f1 f2.
Proof.
  intros Hinst Hne. revert c. induction ends as [|i ends IH]; intros c Hc; simpl.
  - by intros [= <-] [= <-].
  - rewrite <- Hinst. destruct (is_instance _ _); [|by apply IH].
    destruct (Rpc.peer_loop _ e1 _ _ peers [] c) as [r|err] eqn:Hloop; simpl;
      [|discriminate].
    rewrite (peer_loop_for_any_end e1 e2 _ _ _ _ Hloop). simpl.
    apply peer_loop_spec in Hloop as (new & Hfst & _ & Hall & _ & Hin & Hle); [|exact Hc].
    simpl in Hfst.
    assert (Hbelow : Forall (raw_below base mask (snd r)) (fst r)).
    { rewrite Hfst. eapply Forall_impl; [exact Hall|]. intros b.
      apply emitted_between_below. }
    unfold is_end.
    destruct (Nat.eqb_spec (end_id e1) (end_id i)) as [E1|N1];
      destruct (Nat.eqb_spec (end_id e2) (end_id i)) as [E2|N2]; [congruence| | |].
    + intros [= <-] H2. pose proof (rpc_ends_one_from e2 ends peers _ _ Hin H2) as Hrest.
      destruct f2 as [r2|s2]; simpl in *.
      * exists (snd r). by left.
      * destruct Hrest as [_ Hle2]. eapply Forall_impl; [exact Hbelow|].
        intros b (raw & -> & Hm & Hr). exists raw. repeat split; [exact Hm|lia].
    + intros H1 [= <-]. pose proof (rpc_ends_one_from e1 ends peers _ _ Hin H1) as Hrest.
      destruct f1 as [r1|s1]; simpl in *.
      * exists (snd r). by right.
      * destruct Hrest as [_ Hle1]. eapply Forall_impl; [exact Hbelow|].
        intros b (raw & -> & Hm & Hr). exists raw. repeat split; [exact Hm|lia].
    + by apply IH.
Qed.

Lemma rpc_ends_two (e1 e2 : ConnectionEnd) (ends peers : list ConnectionEnd) :
  instance e1 = instance e2 -> end_id e1 <> end_id e2 ->
  two (fun st => ends_of e1 base mask ends peers st)
      (fun st => ends_of e2 base mask ends peers st).
Proof.
  intros Hinst Hne [acc c] f1 f2 [Hacc Hc]. simpl in Hacc, Hc. subst acc.
  by apply rpc_ends_two_from.
Qed.

Lemma rpc_step_one (e : ConnectionEnd) (conn : Connection) : one (step e base mask conn).
Proof.
  unfold Rpc.connection_step. apply and_then_one.
  - destruct (attribute_set _ _); [apply rpc_ends_one|apply skip_one].
  - destruct (attribute_set _ _); [apply rpc_ends_one|apply skip_one].
Qed.

Lemma rpc_step_two (e1 e2 : ConnectionEnd) (conn : Connection) :
  instance e1 = instance e2 -> end_id e1 <> end_id e2 ->
  two (step e1 base mask conn) (step e2 base mask conn).
Proof.
  intros Hinst Hne. unfold Rpc.connection_step.
  apply and_then_two;
    try (destruct (attribute_set _ _); [apply rpc_ends_one|apply skip_one]);
    (destruct (attribute_set _ _); [by apply rpc_ends_two|apply skip_two]).
Qed.

Lemma rpc_scan_one (e : ConnectionEnd) (cs : list Connection) (st : list Z * Z)
    (bs : list Z) :
  rpc_state_ok mask st -> scan e base mask cs st = Ok bs ->
  above base mask (fun bs : list Z => bs) (snd st) bs.
Proof.
  revert st. induction cs as [|conn cs IH]; intros st Hst; simpl; [discriminate|].
  destruct (step e base mask conn st) as [f|err] eqn:Hstep; simpl; [|discriminate].
  apply rpc_step_one in Hstep; [|exact Hst]. destruct f as [v|st1]; simpl in Hstep.
  - by intros [= <-].
  - destruct Hstep as [Hst1 Hle]. intros H.
    eapply above_weaken; [exact Hle|]. by apply IH.
Qed.

Lemma rpc_scan_two (e1 e2 : ConnectionEnd) (cs : list Connection) (st : list Z * Z)
    (r1 r2 : list Z) :
  instance e1 = instance e2 -> end_id e1 <> end_id e2 ->
  rpc_state_ok mask st ->
  scan e1 base mask cs st = Ok r1 -> scan e2 base mask cs st = Ok r2 ->
  apart base mask (fun bs : list Z => bs) r1 r2.
Proof.
  intros Hinst Hne. revert st. induction cs as [|conn cs IH]; intros st Hst; simpl;
    [discriminate|].
  destruct (step e1 base mask conn st) as [f1|err] eqn:H1; simpl; [|discriminate].
  destruct (step e2 base mask conn st) as [f2|err] eqn:H2; simpl;
    [|destruct f1; discriminate].
  pose proof (rpc_step_two e1 e2 conn Hinst Hne st f1 f2 Hst H1 H2) as Hpair.
  pose proof (rpc_step_one e1 conn st f1 Hst H1) as Hone1.
  pose proof (rpc_step_one e2 conn st f2 Hst H2) as Hone2.
  destruct f1 as [v1|s1], f2 as [v2|s2]; simpl in *.
  - by intros [= <-] [= <-].
  - intros [= <-] Hrest. destruct Hone2 as [Hs2 _].
    exists (snd s2). left. split; [exact Hpair|]. by apply (rpc_scan_one e2 cs).
  - intros Hrest [= <-]. destruct Hone1 as [Hs1 _].
    exists (snd s1). right. split; [exact Hpair|]. by apply (rpc_scan_one e1 cs).
  - subst s2. destruct Hone1 as [Hs1 _]. by apply IH.
Qed.
End RpcTwoCalls.

(** Two ends of one instance get different RPC badges. *)
Lemma global_rpc_endpoint_badges_apart (BadgeBits : nat) (composition : Composition)
    (e1 e2 : ConnectionEnd) (configuration : Configuration) (r1 r2 : list Z) :
  instance e1 = instance e2 -> end_id e1 <> end_id e2 ->
  Z.land (Rpc.base_of configuration e1) (Rpc.mask_of BadgeBits configuration e1) = 0 ->
  Rpc.global_rpc_endpoint_badges BadgeBits composition e1 configuration = Ok r1 ->
  Rpc.global_rpc_endpoint_badges BadgeBits composition e2 configuration = Ok r2 ->
  forall a b, a ∈ r1 -> b ∈ r2 -> a <> b.
Proof.
  intros Hinst Hne Hbase. unfold Rpc.global_rpc_endpoint_badges.
  assert (Hb : Rpc.base_of configuration e2 = Rpc.base_of configuration e1)
    by (unfold Rpc.base_of; by rewrite Hinst).
  assert (Hm : Rpc.mask_of BadgeBits configuration e2 = Rpc.mask_of BadgeBits configuration e1)
    by (unfold Rpc.mask_of; by rewrite Hinst).
  rewrite Hb, Hm.
  destruct (Rpc.set_next_badge _ (end_str e1) 1 _) as [c|err] eqn:Hfirst; simpl;
    [|discriminate].
  rewrite (rpc_set_next_badge_for_any_end _ _ _ (end_str e2) _ _ Hfirst). simpl.
  apply rpc_snb_inside in Hfirst as [Hc _]; [|lia].
  intros H1 H2 a b.
  apply (apart_differ (Rpc.base_of configuration e1)
           (Rpc.mask_of BadgeBits configuration e1) (fun bs : list Z => bs) r1 r2 a b Hbase).
  by apply (rpc_scan_two BadgeBits _ _ e1 e2 (connections composition) ([], c)).
Qed.

(** C1, as amended: when the configured base shares no bit with the
    configured mask, the badges an allocator hands out for one instance
    are pairwise distinct: those one call returns, and those two calls
    return for two different ends of the instance.  A call of
    [global_rpc_endpoint_badges] that returns, for an end whose
    connections have 3 ends on the other side, returns 3 pairwise distinct
    badges, each a value inside the mask with the base or-ed into it.  A
    call that does not return raises one of Python's errors: the bound of
    the model on the cursor step is not what stops it. *)
Theorem badges_of_one_instance_distinct (BadgeBits : nat) (is_arch_arm : string -> bool)
    (composition : Composition) (end_ : ConnectionEnd)
    (configuration : Configuration) (arch : string) :
  let notification e :=
    Notification.global_endpoint_badges BadgeBits is_arch_arm composition e
      configuration arch in
  let rpc e := Rpc.global_rpc_endpoint_badges BadgeBits composition e configuration in
  (Z.land (Notification.base_of configuration end_)
          (Notification.mask_of BadgeBits configuration end_) = 0 ->
   (forall r, notification end_ = Ok r -> NoDup (badges_values r))
   /\ (forall other r r',
         instance other = instance end_ -> end_id other <> end_id end_ ->
         notification end_ = Ok r -> notification other = Ok r' ->
         forall a b, a ∈ badges_values r -> b ∈ badges_values r' -> a <> b))
  /\
  (Z.land (Rpc.base_of configuration end_) (Rpc.mask_of BadgeBits configuration end_) = 0 ->
   (forall bs,
      rpc end_ = Ok bs ->
      NoDup bs
      /\ Forall (emitted (Rpc.base_of configuration end_)
                         (Rpc.mask_of BadgeBits configuration end_)) bs
      /\ ((forall conn n, conn ∈ connections composition -> serves end_ conn n -> n = 3%nat) ->
          length bs = 3%nat))
   /\ (forall other bs bs',
         instance other = instance end_ -> end_id other <> end_id end_ ->
         rpc end_ = Ok bs -> rpc other = Ok bs' ->
         forall a b, a ∈ bs -> b ∈ bs' -> a <> b))
  /\
  (notification end_ <> Raise OutOfFuel /\ rpc end_ <> Raise OutOfFuel).
Proof.
  intros notification rpc. subst notification rpc. split; [|split].
  - intros Hbase. split.
    + intros r Hr. apply global_endpoint_badges_sound in Hr as [_ Hnd]. by apply Hnd.
    + intros other r r' Hinst Hne Hr Hr'.
      by apply (global_endpoint_badges_apart BadgeBits is_arch_arm composition end_ other
                  configuration arch r r').
  - intros Hbase. split.
    + intros bs Hbs.
      apply global_rpc_endpoint_badges_sound in Hbs as (Hall & Hnd & conn & Hin & Hserves).
      repeat split; [by apply Hnd|exact Hall|].
      intros Hthree. by apply (Hthree conn).
    + intros other bs bs' Hinst Hne Hbs Hbs'.
      by apply (global_rpc_endpoint_badges_apart BadgeBits composition end_ other
                  configuration bs bs').
  - split; [apply global_endpoint_badges_fuel_free
           |apply global_rpc_endpoint_badges_fuel_free].
Qed.

Lemma badges_of_one_instance_distinct_witness :
  Rpc.global_rpc_endpoint_badges 28 rpc_composition server_end no_configuration
    = Ok [2; 4; 6]
  /\ NoDup [2; 4; 6].
Proof.
  split; [reflexivity|].
  apply (proj1 (proj1 (proj2 (badges_of_one_instance_distinct 28 arm_tags rpc_composition
                                server_end no_configuration "aarch32")) eq_refl)
           [2; 4; 6] eq_refl).
Defined.

(** C1, as it is stated, with a base and a mask that are both configured
    for the server and share bit 1 (base 2, mask 14): the raw values 4 and
    6 differ in that bit only, so the second and the third client get the
    same badge. *)
Lemma rpc_badges_collide_under_overlapping_base :
  Rpc.base_of
    (with_int "server" "global_rpc_endpoint_mask" 14
       (with_int "server" "global_rpc_endpoint_base" 2 no_configuration)) server_end = 2
  /\ Rpc.mask_of 28
       (with_int "server" "global_rpc_endpoint_mask" 14
          (with_int "server" "global_rpc_endpoint_base" 2 no_configuration)) server_end = 14
  /\ Z.land 2 14 = 2
  /\ Rpc.global_rpc_endpoint_badges 28 rpc_composition server_end
       (with_int "server" "global_rpc_endpoint_mask" 14
          (with_int "server" "global_rpc_endpoint_base" 2 no_configuration))
     = Ok [2; 6; 6]
  /\ ~ NoDup [2; 6; 6].
Proof.
  do 4 (split; [reflexivity|]).
  intros H. apply NoDup_cons in H as [_ H]. apply NoDup_cons in H as [H _].
  apply H. constructor.
Qed.

(** * Properties of the other macros *)

(** ** Rounding *)

Lemma round_up_bounds (x y : Z) :
  0 < y -> x <= (x + y - 1) / y * y < x + y.
Proof.
  intros Hy. pose proof (Z.div_mod (x + y - 1) y ltac:(lia)) as Hdm.
  pose proof (Z.mod_pos_bound (x + y - 1) y Hy). lia.
Qed.

Lemma round_down_bounds (x y : Z) :
  0 < y -> x / y * y <= x < x / y * y + y.
Proof.
  intros Hy. pose proof (Z.div_mod x y ltac:(lia)) as Hdm.
  pose proof (Z.mod_pos_bound x y Hy). lia.
Qed.

(** X1: for a positive [y], [ROUND_UP(x, y)] is the least multiple of [y]
    that is not below [x], and it is less than [y] above [x]; for a [y]
    that is not positive the assertion fails. *)
Theorem ROUND_UP_least_multiple (x y : Z) :
  (y <= 0 -> ROUND_UP x y = Fault AssertionError)
  /\ (0 < y ->
      exists r, ROUND_UP x y = Done r
        /\ (y | r) /\ x <= r < x + y
        /\ forall m, (y | m) -> x <= m -> r <= m).
Proof.
  unfold ROUND_UP. split; intros Hy.
  - destruct (Z.gtb_spec y 0); [lia|reflexivity].
  - destruct (Z.gtb_spec y 0); [|lia]. simpl.
    exists ((x + y - 1) / y * y).
    pose proof (round_up_bounds x y Hy) as Hb.
    repeat split; [by exists ((x + y - 1) / y)|lia|lia|].
    intros m [k ->] Hm.
    assert ((x + y - 1) / y < k + 1) by (apply (Z.mul_lt_mono_pos_r y); lia).
    apply Z.mul_le_mono_nonneg_r; lia.
Qed.

Lemma ROUND_UP_least_multiple_witness :
  exists r, ROUND_UP 4097 4096 = Done r /\ (4096 | r) /\ 4097 <= r < 4097 + 4096
    /\ forall m, (4096 | m) -> 4097 <= m -> r <= m.
Proof. apply (proj2 (ROUND_UP_least_multiple 4097 4096)). lia. Defined.

(** X2: for a positive [y], [ROUND_DOWN(x, y)] is the greatest multiple
    of [y] that is not above [x], and it is less than [y] below [x]; for
    a [y] that is not positive the assertion fails. *)
Theorem ROUND_DOWN_greatest_multiple (x y : Z) :
  (y <= 0 -> ROUND_DOWN x y = Fault AssertionError)
  /\ (0 < y ->
      exists r, ROUND_DOWN x y = Done r
        /\ (y | r) /\ r <= x < r + y
        /\ forall m, (y | m) -> m <= x -> m <= r).
Proof.
  unfold ROUND_DOWN. split; intros Hy.
  - destruct (Z.gtb_spec y 0); [lia|reflexivity].
  - destruct (Z.gtb_spec y 0); [|lia]. simpl.
    exists (x / y * y).
    pose proof (round_down_bounds x y Hy) as Hb.
    repeat split; [by exists (x / y)|lia|lia|].
    intros m [k ->] Hm.
    assert (k < x / y + 1) by (apply (Z.mul_lt_mono_pos_r y); lia).
    apply Z.mul_le_mono_nonneg_r; lia.
Qed.

Lemma ROUND_DOWN_greatest_multiple_witness :
  exists r, ROUND_DOWN (-1) 4096 = Done r /\ (4096 | r) /\ r <= -1 < r + 4096
    /\ forall m, (4096 | m) -> m <= -1 -> m <= r.
Proof. apply (proj2 (ROUND_DOWN_greatest_multiple (-1) 4096)). lia. Defined.

(** X3: for a positive [y] the two roundings fix their own results, they
    both leave a multiple of [y] as it is, and on any other [x] they are
    [y] apart. *)
Theorem rounding_composes (x y : Z) :
  0 < y ->
  exists d u,
    ROUND_DOWN x y = Done d /\ ROUND_UP x y = Done u
    /\ ROUND_DOWN d y = Done d /\ ROUND_UP u y = Done u
    /\ ROUND_UP d y = Done d /\ ROUND_DOWN u y = Done u
    /\ ((y | x) -> d = x /\ u = x)
    /\ (~ (y | x) -> u = d + y).
Proof.
  intros Hy. unfold ROUND_UP, ROUND_DOWN.
  destruct (Z.gtb_spec y 0); [|lia]. simpl.
  exists (x / y * y), ((x + y - 1) / y * y).
  assert (Hmul : forall k, k * y / y = k) by (intros k; apply Z.div_mul; lia).
  assert (Hup : forall k, (k * y + y - 1) / y = k).
  { intros k. symmetry. apply (Z.div_unique _ _ _ (y - 1)); lia. }
  rewrite !Hmul, !Hup.
  do 6 (split; [reflexivity|]). split.
  - intros [k ->]. rewrite Hmul. split; [reflexivity|]. by rewrite Hup.
  - intros Hnd.
    pose proof (Z.div_mod x y ltac:(lia)) as Hdm.
    pose proof (Z.mod_pos_bound x y Hy) as Hb.
    assert (x mod y <> 0).
    { intros H0. apply Hnd. exists (x / y). lia. }
    assert ((x + y - 1) / y = x / y + 1); [|lia].
    symmetry. apply (Z.div_unique _ _ _ (x mod y - 1)); lia.
Qed.

Lemma rounding_composes_witness :
  exists d u,
    ROUND_DOWN 10000 4096 = Done d /\ ROUND_UP 10000 4096 = Done u
    /\ ROUND_DOWN d 4096 = Done d /\ ROUND_UP u 4096 = Done u
    /\ ROUND_UP d 4096 = Done d /\ ROUND_DOWN u 4096 = Done u
    /\ ((4096 | 10000) -> d = 10000 /\ u = 10000)
    /\ (~ (4096 | 10000) -> u = d + 4096).
Proof. apply (rounding_composes 10000 4096). lia. Defined.

(** ** Pages *)

Section PagesFacts.
Variable page_sizes : string -> list Z.

(** X4: when the first page size of the architecture is a power of two,
    [align_page_address] rounds the address down to a multiple of it: it
    gives what [ROUND_DOWN] gives, the address less its remainder. *)
Theorem align_page_address_rounds_down (address : Z) (arch : string) (k : nat)
    (rest : list Z) :
  page_sizes arch = 2 ^ Z.of_nat k :: rest ->
  align_page_address page_sizes address arch = ROUND_DOWN address (2 ^ Z.of_nat k)
  /\ align_page_address page_sizes address arch
     = Done (address - address mod 2 ^ Z.of_nat k).
Proof.
  intros Hsizes. unfold align_page_address, ROUND_DOWN. rewrite Hsizes.
  assert (Hpow : 0 < 2 ^ Z.of_nat k) by (apply Z.pow_pos_nonneg; lia).
  destruct (Z.gtb_spec (2 ^ Z.of_nat k) 0); [|lia]. simpl.
  assert (Heq : Z.land address (Z.lnot (2 ^ Z.of_nat k - 1))
                = address / 2 ^ Z.of_nat k * 2 ^ Z.of_nat k).
  { rewrite <- Z.ldiff_land, Z.sub_1_r, <- Z.ones_equiv.
    rewrite Z.ldiff_ones_r by lia.
    rewrite Z.shiftl_mul_pow2, Z.shiftr_div_pow2 by lia. reflexivity. }
  rewrite Heq. split; [reflexivity|]. f_equal.
  pose proof (Z.div_mod address (2 ^ Z.of_nat k) ltac:(lia)). lia.
Qed.

Lemma next_page_multiple_loop_spec (turns : nat) (size m : Z) :
  size <= m \/ (size - m) / 16384 + 1 <= Z.of_nat turns ->
  exists r, next_page_multiple_loop turns size m = Done r
    /\ size <= r /\ m <= r /\ (16384 | r - m) /\ (r = m \/ r - 16384 < size).
Proof.
  revert m. induction turns as [|turns IH]; intros m Hturns.
  - simpl. destruct (Z.gtb_spec size m) as [Hgt|Hle].
    + exfalso. destruct Hturns as [?|Hturns]; [lia|].
      assert (0 <= (size - m) / 16384) by (apply Z.div_pos; lia). lia.
    + exists m. repeat split; [lia|lia|exists 0; lia|by left].
  - simpl. destruct (Z.gtb_spec size m) as [Hgt|Hle].
    + destruct (IH (m + 16384)) as (r & Hr & Hs & Hm & [k Hk] & Hmin).
      { right. destruct Hturns as [?|Hturns]; [lia|].
        replace (size - (m + 16384)) with (size - m + -1 * 16384) by lia.
        rewrite Z.div_add by lia. lia. }
      exists r. repeat split; [exact Hr|lia|lia|exists (k + 1); lia|].
      right. destruct Hmin as [->|?]; lia.
    + exists m. repeat split; [lia|lia|exists 0; lia|by left].
Qed.

(** X5: [next_page_multiple] returns the first page size of the
    architecture with as many times 16384 added to it as it takes not to
    be below [size], and no more: the result is the page size itself or
    less than 16384 above [size].  With no page size it is an [IndexError]. *)
Theorem next_page_multiple_least (size : Z) (arch : string) :
  (page_sizes arch = [] -> next_page_multiple page_sizes size arch = Fault ListIndexOutOfRange)
  /\ (forall first rest,
        page_sizes arch = first :: rest ->
        exists r, next_page_multiple page_sizes size arch = Done r
          /\ size <= r /\ first <= r /\ (16384 | r - first)
          /\ (r = first \/ r - 16384 < size)).
Proof.
  unfold next_page_multiple. split.
  - by intros ->.
  - intros first rest ->. apply next_page_multiple_loop_spec.
    destruct (Z.le_gt_cases size first) as [?|Hgt]; [by left|right].
    assert (0 <= (size - first) / 16384) by (apply Z.div_pos; lia). lia.
Qed.

Lemma first_fitting_spec (size : Z) (sizes : list Z) :
  Forall (fun sz => 0 < sz) sizes ->
  exists r, first_fitting size sizes = Done r
    /\ ((r = 0 /\ Forall (fun sz => ~ fits size sz) sizes)
        \/ (exists l1 l2, sizes = l1 ++ r :: l2 /\ fits size r
                          /\ Forall (fun sz => ~ fits size sz) l1)).
Proof.
  induction sizes as [|sz sizes IH]; intros Hpos; simpl.
  - exists 0. split; [reflexivity|]. left. by split.
  - apply Forall_cons in Hpos as [Hsz Hpos].
    destruct (IH Hpos) as (r & Hr & Hcases).
    assert (Hskip : ~ fits size sz ->
      exists r, first_fitting size sizes = Done r
        /\ ((r = 0 /\ Forall (fun sz => ~ fits size sz) (sz :: sizes))
            \/ (exists l1 l2, sz :: sizes = l1 ++ r :: l2 /\ fits size r
                              /\ Forall (fun sz => ~ fits size sz) l1))).
    { intros Hno. exists r. split; [exact Hr|].
      destruct Hcases as [[-> Hall]|(l1 & l2 & -> & Hfit & Hall)].
      - left. split; [reflexivity|by constructor].
      - right. exists (sz :: l1), l2. repeat split; [apply Hfit|apply Hfit|by constructor]. }
    destruct (Z.geb_spec size sz) as [Hge|Hlt]; [|apply Hskip; unfold fits; lia].
    destruct (Z.eqb_spec sz 0) as [?|_]; [lia|].
    destruct (Z.eqb_spec (size mod sz) 0) as [Hmod|Hmod]; [|apply Hskip; unfold fits; lia].
    exists sz. split; [reflexivity|]. right. exists [], sizes.
    repeat split; [lia|exact Hmod|constructor].
Qed.

(** X6: with positive page sizes, [get_page_size] returns the page size
    that divides [size], is not above it, and comes last in the list of
    the architecture: the largest such when the list is in ascending
    order.  It returns 0 exactly when no page size is such. *)
Theorem get_page_size_last_fitting (size : Z) (arch : string) :
  Forall (fun sz => 0 < sz) (page_sizes arch) ->
  exists r, get_page_size page_sizes size arch = Done r
    /\ ((r = 0 /\ forall sz, sz ∈ page_sizes arch -> ~ fits size sz)
        \/ (fits size r
            /\ (exists before after,
                  page_sizes arch = before ++ r :: after
                  /\ forall sz, sz ∈ after -> ~ fits size sz)
            /\ (StronglySorted Z.le (page_sizes arch) ->
                forall sz, sz ∈ page_sizes arch -> fits size sz -> sz <= r))).
Proof.
  intros Hpos. unfold get_page_size.
  destruct (first_fitting_spec size (reverse (page_sizes arch))) as (r & Hr & Hcases).
  { apply Forall_forall. intros sz Hsz. rewrite elem_of_reverse in Hsz.
    rewrite Forall_forall in Hpos. by apply Hpos. }
  exists r. split; [exact Hr|].
  destruct Hcases as [[-> Hall]|(l1 & l2 & Hrev & Hfit & Hall)].
  - left. split; [reflexivity|]. intros sz Hsz.
    rewrite Forall_forall in Hall. apply Hall. by rewrite elem_of_reverse.
  - right. assert (Hsizes : page_sizes arch = reverse l2 ++ r :: reverse l1).
    { rewrite <- (reverse_involutive (page_sizes arch)), Hrev, reverse_app, reverse_cons.
      by rewrite <- app_assoc. }
    assert (Hafter : forall sz, sz ∈ reverse l1 -> ~ fits size sz).
    { intros sz Hsz. rewrite Forall_forall in Hall. apply Hall.
      by rewrite elem_of_reverse in Hsz. }
    split; [exact Hfit|]. split; [by exists (reverse l2), (reverse l1)|].
    intros Hsorted sz Hsz Hfits. rewrite Hsizes in Hsorted, Hsz.
    apply elem_of_app in Hsz as [Hsz|Hsz].
    + revert Hsorted Hsz. generalize (reverse l2). intros l Hsorted Hsz.
      induction l as [|a l IH]; [by apply elem_of_nil in Hsz|].
      simpl in Hsorted. apply StronglySorted_inv in Hsorted as [Hs Hall'].
      apply elem_of_cons in Hsz as [->|Hsz]; [|by apply IH].
      rewrite Forall_forall in Hall'. apply Hall'. apply elem_of_app. right. constructor.
    + apply elem_of_cons in Hsz as [->|Hsz]; [lia|]. by apply Hafter in Hsz.
Qed.
End PagesFacts.

Lemma align_page_address_rounds_down_witness :
  align_page_address sample_page_sizes 20481 "aarch32" = Done (20481 - 20481 mod 2 ^ 12).
Proof.
  apply (proj2 (align_page_address_rounds_down sample_page_sizes 20481 "aarch32" 12
                  [65536; 1048576; 16777216] eq_refl)).
Defined.

Lemma next_page_multiple_least_witness :
  exists r, next_page_multiple sample_page_sizes 20481 "aarch32" = Done r
    /\ 20481 <= r /\ 4096 <= r /\ (16384 | r - 4096) /\ (r = 4096 \/ r - 16384 < 20481).
Proof.
  apply (proj2 (next_page_multiple_least sample_page_sizes 20481 "aarch32")
           4096 [65536; 1048576; 16777216] eq_refl).
Defined.

Lemma get_page_size_last_fitting_witness :
  exists r, get_page_size sample_page_sizes 131072 "aarch32" = Done r
    /\ ((r = 0 /\ forall sz, sz ∈ sample_page_sizes "aarch32" -> ~ fits 131072 sz)
        \/ (fits 131072 r
            /\ (exists before after,
                  sample_page_sizes "aarch32" = before ++ r :: after
                  /\ forall sz, sz ∈ after -> ~ fits 131072 sz)
            /\ (StronglySorted Z.le (sample_page_sizes "aarch32") ->
                forall sz, sz ∈ sample_page_sizes "aarch32" -> fits 131072 sz -> sz <= r))).
Proof.
  apply (get_page_size_last_fitting sample_page_sizes 131072 "aarch32").
  repeat constructor.
Defined.

(** ** Types *)



(** ** Permissions *)

Lemma optional_split (c : ascii) (s : string) :
  exists b : bool, s = ((if b then String c "" else "") ++ optional c s)%string.
Proof.
  destruct s as [|c' s']; [by exists false|]. simpl.
  destruct (Ascii.eqb_spec c c') as [->|_]; [by exists true | by exists false].
Qed.

Lemma match_permissions_spec (perm : string) :
  match_permissions perm = true <-> exists r w x p nl, perm = permissions r w x p nl.
Proof.
  split.
  - unfold match_permissions. intros Hrest.
    destruct (optional_split "R" perm) as [r Hr].
    destruct (optional_split "W" (optional "R" perm)) as [w Hw].
    destruct (optional_split "X" (optional "W" (optional "R" perm))) as [x Hx].
    destruct (optional_split "P" (optional "X" (optional "W" (optional "R" perm))))
      as [p Hp].
    exists r, w, x, p.
    apply orb_true_iff in Hrest as [Hrest|Hrest]; apply String.eqb_eq in Hrest;
      [exists false | exists true];
      rewrite Hrest in Hp; rewrite Hp in Hx; rewrite Hx in Hw; rewrite Hw in Hr;
      rewrite Hr at 1; reflexivity.
  - intros (r & w & x & p & nl & ->).
    destruct r, w, x, p, nl; reflexivity.
Qed.

(** X8: [get_perm] returns [RWXP] when the attribute is missing or
    empty, the attribute itself when it is a subsequence of [RWXP] in
    that order (a newline at its end is let through by [$]), and raises
    for every other text; what it returns is never empty. *)
Theorem get_perm_valid (configuration : Configuration) (instance_name interface_name : string) :
  let perm := get_str configuration instance_name (interface_name ++ "_access")%string in
  ((perm = None \/ perm = Some "") ->
     get_perm configuration instance_name interface_name = Done "RWXP")
  /\ (forall s, perm = Some s -> s <> "" ->
        (exists r w x p nl, s = permissions r w x p nl) ->
        get_perm configuration instance_name interface_name = Done s)
  /\ (forall s, perm = Some s -> s <> "" ->
        ~ (exists r w x p nl, s = permissions r w x p nl) ->
        get_perm configuration instance_name interface_name
        = Fault (InvalidPermissionsAttribute instance_name interface_name))
  /\ (forall s, get_perm configuration instance_name interface_name = Done s ->
        s <> "" /\ exists r w x p nl, s = permissions r w x p nl).
Proof.
  unfold get_perm. cbv zeta.
  destruct (get_str configuration instance_name (interface_name ++ "_access")%string)
    as [perm|].
  - destruct (String.eqb_spec perm "") as [->|Hne].
    + split; [done|]. split; [by intros s [= <-]|]. split; [by intros s [= <-]|].
      intros s [= <-]. split; [done|]. by exists true, true, true, true, false.
    + split; [intros [[=]|[= ->]]; done|].
      destruct (match_permissions perm) eqn:Hm; simpl.
      * apply match_permissions_spec in Hm.
        split; [by intros s [= <-]|].
        split; [intros s [= <-] _ Hnot; by destruct Hnot|].
        by intros s [= <-].
      * assert (Hnot : ~ exists r w x p nl, perm = permissions r w x p nl).
        { intros H. apply match_permissions_spec in H. congruence. }
        split; [intros s [= <-] _ H; by destruct Hnot|].
        split; [done|]. intros s [=].
  - split; [done|]. split; [by intros s [=]|]. split; [by intros s [=]|].
    intros s [= <-]. split; [done|]. by exists true, true, true, true, false.
Qed.

Lemma get_perm_valid_witness :
  get_perm (with_str "comp" "port_access" "RW" no_configuration) "comp" "port" = Done "RW".
Proof.
  apply (proj1 (proj2 (get_perm_valid
           (with_str "comp" "port_access" "RW" no_configuration) "comp" "port")) "RW").
  - reflexivity.
  - discriminate.
  - by exists true, true, false, false, false.
Defined.

(** ** Isabelle identifiers *)

Lemma replace_dots_length (n : string) :
  String.length (replace_dots n) = String.length n.
Proof. induction n as [|c n IH]; simpl; congruence. Qed.

Lemma replace_dots_no_dot (n : string) : occurs "." (replace_dots n) = false.
Proof.
  induction n as [|c n IH]; [done|]. cbn [replace_dots occurs].
  rewrite IH, orb_false_r.
  destruct (Ascii.eqb_spec c ".") as [->|Hne]; [reflexivity|].
  apply Ascii.eqb_neq. congruence.
Qed.

Lemma replace_dots_without_dots (n : string) :
  occurs "." n = false -> replace_dots n = n.
Proof.
  induction n as [|c n IH]; [done|]. cbn [replace_dots occurs]. intros H.
  apply orb_false_iff in H as [Hc Hn]. rewrite (IH Hn).
  rewrite Ascii.eqb_sym, Hc. reflexivity.
Qed.

Lemma replace_dots_injective (n m : string) :
  occurs "'" n = false -> occurs "'" m = false ->
  replace_dots n = replace_dots m -> n = m.
Proof.
  revert m. induction n as [|c n IH]; intros [|d m]; cbn [replace_dots occurs];
    try done.
  intros Hn Hm [= Hhead Htail].
  apply orb_false_iff in Hn as [Hc Hn]. apply orb_false_iff in Hm as [Hd Hm].
  rewrite (IH m Hn Hm Htail). f_equal.
  apply Ascii.eqb_neq in Hc, Hd.
  destruct (Ascii.eqb_spec c "."), (Ascii.eqb_spec d "."); congruence.
Qed.

(** X9: [isabelle_ident] fails exactly on names that do not start with
    a letter or an underscore (the empty name among them); otherwise
    its result has the length of the name and no dot, is the name itself
    when the name has no dot, and two names without a quote that get the
    same result are the same name. *)
Theorem isabelle_ident_mangles (n : string) :
  (isabelle_ident n = Fault AssertionError
   <-> match n with String c _ => is_letter_or_underscore c = false | EmptyString => True end)
  /\ forall r, isabelle_ident n = Done r ->
       String.length r = String.length n
       /\ occurs "." r = false
       /\ (occurs "." n = false -> r = n)
       /\ forall m, isabelle_ident m = Done r ->
            occurs "'" n = false -> occurs "'" m = false -> n = m.
Proof.
  split.
  - unfold isabelle_ident. destruct n as [|c n]; [done|].
    destruct (is_letter_or_underscore c); split; congruence.
  - intros r Hr.
    assert (Hshape : forall k q, isabelle_ident k = Done q -> q = replace_dots k).
    { intros [|c k] q; simpl; [done|].
      destruct (is_letter_or_underscore c); congruence. }
    pose proof (Hshape _ _ Hr) as ->.
    split; [apply replace_dots_length|].
    split; [apply replace_dots_no_dot|].
    split; [apply replace_dots_without_dots|].
    intros m Hm Hqn Hqm. apply Hshape in Hm.
    by apply replace_dots_injective.
Qed.

Lemma isabelle_ident_mangles_witness :
  String.length "a'b" = String.length "a.b"
  /\ occurs "." "a'b" = false
  /\ (occurs "." "a.b" = false -> "a'b" = "a.b")
  /\ forall m, isabelle_ident m = Done "a'b" ->
       occurs "'" "a.b" = false -> occurs "'" m = false -> "a.b" = m.
Proof. apply (proj2 (isabelle_ident_mangles "a.b") "a'b"). reflexivity. Defined.

(** ** Thread control blocks and scheduling contexts *)

(** X10: after [set_tcb_properties] each of priority, maximum priority
    and affinity is the setting with the prefix if there is one,
    otherwise the general setting, otherwise the default of the options,
    whatever the TCB held before; the domain is taken from the prefixed
    setting only, a general [domain] setting is not looked at and without
    the prefixed one the TCB keeps its domain. *)
Theorem set_tcb_properties_precedence (tcb : TCB) (options : Options)
    (configuration : string -> option Z) (prefix : string) :
  let after := set_tcb_properties tcb options configuration prefix in
  let setting general fallback :=
    configured (configuration (prefix ++ general)%string)
               (configured (configuration general) fallback) in
  prio after = setting "priority" (default_priority options)
  /\ max_prio after = setting "max_priority" (default_max_priority options)
  /\ affinity after = setting "affinity" (default_affinity options)
  /\ domain after
     = match configuration (prefix ++ "domain")%string with
       | Some dom => Some dom
       | None => domain tcb
       end.
Proof.
  unfold set_tcb_properties, maybe_set_property_from_configuration, configured.
  cbv zeta.
  destruct (configuration (prefix ++ "priority")%string),
           (configuration "priority"),
           (configuration (prefix ++ "max_priority")%string),
           (configuration "max_priority"),
           (configuration (prefix ++ "affinity")%string),
           (configuration "affinity"),
           (configuration (prefix ++ "domain")%string); done.
Qed.

(** X11: [set_sc_properties] overwrites all four fields of the
    scheduling context: its result does not depend on what the context
    held, so applying it again changes nothing, and each field follows
    the same precedence of prefixed setting, general setting, default. *)
Theorem set_sc_properties_overwrites (sc sc' : SC) (options : Options)
    (configuration : string -> option Z) (prefix : string) :
  let after := set_sc_properties sc options configuration prefix in
  let setting general fallback :=
    configured (configuration (prefix ++ general)%string)
               (configured (configuration general) fallback) in
  after = set_sc_properties sc' options configuration prefix
  /\ set_sc_properties after options configuration prefix = after
  /\ after = {| period := setting "period" (default_period options);
                budget := setting "budget" (default_budget options);
                data := setting "data" (default_data options);
                size_bits := setting "size_bits" (default_size_bits options) |}.
Proof.
  unfold set_sc_properties, maybe_set_property_from_configuration, configured.
  cbv zeta.
  destruct (configuration (prefix ++ "period")%string),
           (configuration "period"),
           (configuration (prefix ++ "budget")%string),
           (configuration "budget"),
           (configuration (prefix ++ "data")%string),
           (configuration "data"),
           (configuration (prefix ++ "size_bits")%string),
           (configuration "size_bits"); done.
Qed.

(** ** The interrupt parser *)

Lemma for_each_Forall {A B : Type} (f : A -> result B) (P : B -> Prop)
    (xs : list A) (ys : list B) :
  (forall x y, x ∈ xs -> f x = Ok y -> P y) ->
  for_each f xs = Ok ys -> Forall P ys.
Proof.
  revert ys. induction xs as [|x xs IH]; intros ys Hf; simpl.
  - intros [= <-]. constructor.
  - destruct (f x) as [y|e] eqn:Hx; simpl; [|discriminate].
    destruct (for_each f xs) as [ys'|e] eqn:Hxs; simpl; [|discriminate].
    intros [= <-]. constructor.
    + apply (Hf x); [constructor | exact Hx].
    + apply IH; [|reflexivity]. intros x' y' Hin. apply Hf. by constructor.
Qed.

Lemma for_each_seq_map {A B : Type} (f : nat -> result B) (g : A -> B)
    (l : list A) (k : nat) :
  (forall i x, l !! i = Some x -> f (k + i)%nat = Ok (g x)) ->
  for_each f (seq k (length l)) = Ok (map g l).
Proof.
  revert k. induction l as [|x l IH]; intros k Hf; [reflexivity|].
  cbn [length seq for_each map].
  rewrite <- (Nat.add_0_r k) at 1. rewrite (Hf 0%nat x eq_refl). cbn [bind].
  rewrite IH; [reflexivity|].
  intros i y Hy. replace (S k + i)%nat with (k + S i)%nat by lia. by apply Hf.
Qed.

Lemma parse_generic_cells (is_arch_arm : string -> bool) (node : dtb_node)
    (max_num_interrupts : Z) (arch : string) :
  is_arch_arm arch = false ->
  parse_dtb_node_interrupts is_arch_arm node max_num_interrupts arch
  = match generic_cells node with
    | Some ints => parse_dtb_node_interrupts is_arch_arm (node_of ints) max_num_interrupts arch
    | None => Ok []
    end.
Proof.
  intros Harm. unfold parse_dtb_node_interrupts, generic_cells, node_of.
  cbn [interrupts interrupts_extended]. rewrite Harm.
  destruct (interrupts node) as [l|]; [reflexivity|].
  destruct (interrupts_extended node) as [l|]; [|reflexivity].
  destruct (1 <? length l)%nat; reflexivity.
Qed.

Lemma arm_interrupt_trigger (ints : list cell) (ext : bool) (i : nat) (d : descriptor) :
  arm_interrupt ints ext i = Ok d -> trigger d = 0 \/ trigger d = 1.
Proof.
  unfold arm_interrupt, index.
  destruct (ints !! _) as [t|]; cbn [bind]; [|discriminate].
  destruct (ints !! _) as [q|]; cbn [bind]; [|discriminate].
  destruct (ints !! _) as [s|]; cbn [bind]; [|discriminate].
  destruct (if is_zero_int s then py_add q 32 else Ok q) as [q'|]; cbn [bind];
    [|discriminate].
  destruct (py_lt t 4) as [[|]|]; cbn [bind]; [| |discriminate];
    intros [= <-]; cbn [trigger]; auto.
Qed.

Lemma generic_interrupt_well_formed (is_arch_arm : string -> bool) (arch : string)
    (ints : list cell) (n cells i : nat) :
  cells = 1%nat \/ cells = 3%nat -> (i * cells + cells <= length ints)%nat ->
  (forall e, generic_interrupt is_arch_arm arch ints n cells i = Raise e ->
             exists t, e = TemplateError t)
  /\ (forall d, generic_interrupt is_arch_arm arch ints n cells i = Ok d -> well_formed d).
Proof.
  intros Hcells Hlen.
  assert (Hint : forall offs name, (offs < cells)%nat ->
    (exists z, parse_int ints n cells i offs name = Ok z)
    \/ (exists t, parse_int ints n cells i offs name = Raise (TemplateError t))).
  { intros offs name Hoffs. unfold parse_int, index.
    destruct (ints !! (i * cells + offs)%nat) as [[z|s]|] eqn:E; cbn [bind]; eauto.
    apply lookup_ge_None in E. lia. }
  unfold generic_interrupt, well_formed.
  destruct Hcells as [-> | ->]; cbn [Nat.eqb].
  - destruct (Hint 0%nat "id") as [[z ->]|[t ->]]; [lia| |]; cbn [bind].
    + split; [discriminate|]. intros d [= <-]. cbn [irq trigger]. eauto.
    + split; [|discriminate]. intros e [= <-]. eauto.
  - destruct (Hint 1%nat "id") as [[z ->]|[t ->]]; [lia| |]; cbn [bind];
      [|split; [intros e [= <-]; eauto | discriminate]].
    destruct (Hint 2%nat "trigger") as [[f ->]|[t ->]]; [lia| |]; cbn [bind];
      [|split; [intros e [= <-]; eauto | discriminate]].
    destruct (Hint 0%nat "type") as [[ty ->]|[t ->]]; [lia| |]; cbn [bind];
      [|split; [intros e [= <-]; eauto | discriminate]].
    split; [discriminate|]. intros d [= <-]. cbn [irq trigger].
    split; [eauto|]. destruct (negb _); auto.
Qed.

(** X12: whatever the architecture, when the parser returns and
    [max_num_interrupts] is not negative, it returns at most that many
    descriptors, and the trigger of every descriptor is 0 or 1. *)
Theorem parse_dtb_node_interrupts_bounded (is_arch_arm : string -> bool)
    (node : dtb_node) (max_num_interrupts : Z) (arch : string) (ds : list descriptor) :
  parse_dtb_node_interrupts is_arch_arm node max_num_interrupts arch = Ok ds ->
  (0 <= max_num_interrupts -> Z.of_nat (length ds) <= max_num_interrupts)
  /\ Forall (fun d => trigger d = 0 \/ trigger d = 1) ds.
Proof.
  assert (Hcheck : forall n : nat,
    negb (max_num_interrupts =? -1) && (Z.of_nat n >? max_num_interrupts) = false ->
    0 <= max_num_interrupts -> Z.of_nat n <= max_num_interrupts).
  { intros n H Hmax. apply andb_false_iff in H as [H|H].
    - apply negb_false_iff, Z.eqb_eq in H. lia.
    - rewrite Z.gtb_ltb in H. apply Z.ltb_ge in H. exact H. }
  assert (Hnone : (0 <= max_num_interrupts -> Z.of_nat (length (@nil descriptor)) <= max_num_interrupts)
                  /\ Forall (fun d => trigger d = 0 \/ trigger d = 1) []).
  { split; [cbn [length]; lia | constructor]. }
  destruct (is_arch_arm arch) eqn:Harm.
  - unfold parse_dtb_node_interrupts. rewrite Harm.
    assert (Hloop : forall ints ext n,
      negb (max_num_interrupts =? -1) && (Z.of_nat n >? max_num_interrupts) = false ->
      for_each (arm_interrupt ints ext) (seq 0 n) = Ok ds ->
      (0 <= max_num_interrupts -> Z.of_nat (length ds) <= max_num_interrupts)
      /\ Forall (fun d => trigger d = 0 \/ trigger d = 1) ds).
    { intros ints ext n Hn Hds. split.
      - apply for_each_length in Hds as ->. rewrite length_seq. by apply Hcheck.
      - eapply for_each_Forall; [|exact Hds].
        intros i d _. apply arm_interrupt_trigger. }
    destruct (interrupts node) as [l|]; [|destruct (interrupts_extended node) as [l|]].
    + destruct (negb (max_num_interrupts =? -1) && _) eqn:Hn; [discriminate|].
      by apply Hloop.
    + destruct (negb (max_num_interrupts =? -1) && _) eqn:Hn; [discriminate|].
      by apply Hloop.
    + by intros [= <-].
  - rewrite (parse_generic_cells _ _ _ _ Harm).
    destruct (generic_cells node) as [ints|]; [|by intros [= <-]].
    unfold parse_dtb_node_interrupts, node_of. cbn [interrupts]. rewrite Harm.
    set (cells := if (length ints <? 3)%nat then 1%nat else 3%nat).
    assert (Hcells : cells = 1%nat \/ cells = 3%nat)
      by (subst cells; destruct (length ints <? 3)%nat; auto).
    destruct (Nat.eqb_spec 0 (length ints mod cells)) as [Hmod|_]; [|discriminate].
    cbn [negb].
    destruct (negb (max_num_interrupts =? -1) && _) eqn:Hn; [discriminate|].
    intros Hds. split.
    + apply for_each_length in Hds as ->. rewrite length_seq. by apply Hcheck.
    + eapply for_each_Forall; [|exact Hds].
      intros i d Hi Hd. apply elem_of_seq in Hi.
      assert (Hfit : (i * cells + cells <= length ints)%nat).
      { pose proof (Nat.div_mod_eq (length ints) cells) as Hdiv.
        rewrite <- Hmod in Hdiv.
        destruct Hi as [_ Hi]. revert Hi Hdiv.
        generalize (length ints / cells)%nat. intros q Hi Hdiv. nia. }
      destruct (generic_interrupt_well_formed is_arch_arm arch ints
                  (length ints / cells) cells i Hcells Hfit) as [_ Hwf].
      by destruct (Hwf d Hd).
Qed.

Lemma parse_dtb_node_interrupts_bounded_witness :
  (0 <= 2 -> Z.of_nat (length [ {| irq := CInt 37; trigger := 1 |} ]) <= 2)
  /\ Forall (fun d => trigger d = 0 \/ trigger d = 1) [ {| irq := CInt 37; trigger := 1 |} ].
Proof.
  apply (parse_dtb_node_interrupts_bounded arm_tags
           (node_of [CInt 0; CInt 5; CInt 2]) 2 "aarch64").
  reflexivity.
Defined.

Lemma max_check_passes (max_num_interrupts : Z) (n : nat) :
  max_num_interrupts = -1 \/ Z.of_nat n <= max_num_interrupts ->
  negb (max_num_interrupts =? -1) && (Z.of_nat n >? max_num_interrupts) = false.
Proof.
  intros [-> | Hle]; [reflexivity|].
  apply andb_false_iff. right. rewrite Z.gtb_ltb. apply Z.ltb_ge. exact Hle.
Qed.

(** X13: on an architecture that is not ARM the parser raises nothing
    but a [TemplateError] (no index leaves the list and no operator meets
    a text), and in every descriptor it returns the irq is an integer. *)
Theorem generic_branch_checks_cells (is_arch_arm : string -> bool)
    (node : dtb_node) (max_num_interrupts : Z) (arch : string) :
  is_arch_arm arch = false ->
  (forall e, parse_dtb_node_interrupts is_arch_arm node max_num_interrupts arch = Raise e ->
             exists t, e = TemplateError t)
  /\ (forall ds, parse_dtb_node_interrupts is_arch_arm node max_num_interrupts arch = Ok ds ->
                 Forall well_formed ds).
Proof.
  intros Harm. rewrite (parse_generic_cells _ _ _ _ Harm).
  destruct (generic_cells node) as [ints|];
    [|split; [discriminate | intros ds [= <-]; constructor]].
  unfold parse_dtb_node_interrupts, node_of. cbn [interrupts]. rewrite Harm.
  set (cells := if (length ints <? 3)%nat then 1%nat else 3%nat).
  assert (Hcells : cells = 1%nat \/ cells = 3%nat)
    by (subst cells; destruct (length ints <? 3)%nat; auto).
  destruct (Nat.eqb_spec 0 (length ints mod cells)) as [Hmod|_]; cbn [negb];
    [|split; [intros e [= <-]; eauto | discriminate]].
  destruct (negb (max_num_interrupts =? -1) && _);
    [split; [intros e [= <-]; eauto | discriminate]|].
  assert (Hfit : forall i, i ∈ seq 0 (length ints / cells) ->
                           (i * cells + cells <= length ints)%nat).
  { intros i Hi. apply elem_of_seq in Hi as [_ Hi].
    pose proof (Nat.div_mod_eq (length ints) cells) as Hdiv.
    rewrite <- Hmod in Hdiv. revert Hi Hdiv.
    generalize (length ints / cells)%nat. intros q Hi Hdiv. nia. }
  split.
  - intros e He. apply for_each_raise in He as (i & Hi & He).
    by apply (generic_interrupt_well_formed is_arch_arm arch ints
                (length ints / cells) cells i Hcells (Hfit i Hi)).
  - intros ds Hds. eapply for_each_Forall; [|exact Hds].
    intros i d Hi Hd.
    by apply (generic_interrupt_well_formed is_arch_arm arch ints
                (length ints / cells) cells i Hcells (Hfit i Hi)).
Qed.

Lemma generic_branch_checks_cells_witness :
  (forall e, parse_dtb_node_interrupts arm_tags (node_of [CInt 7; CStr "x"]) (-1) "riscv64"
             = Raise e -> exists t, e = TemplateError t)
  /\ (forall ds, parse_dtb_node_interrupts arm_tags (node_of [CInt 7; CStr "x"]) (-1) "riscv64"
                 = Ok ds -> Forall well_formed ds).
Proof.
  apply (generic_branch_checks_cells arm_tags (node_of [CInt 7; CStr "x"]) (-1) "riscv64").
  reflexivity.
Defined.

(** X14: the generic branch guesses the format from the number of
    cells alone: fewer than three cells are read as that many one-cell
    interrupts, each of them edge triggered with the cell as its irq. *)
Theorem generic_one_cell_format (is_arch_arm : string -> bool) (arch : string)
    (ids : list Z) (max_num_interrupts : Z) :
  is_arch_arm arch = false ->
  (length ids < 3)%nat ->
  max_num_interrupts = -1 \/ Z.of_nat (length ids) <= max_num_interrupts ->
  parse_dtb_node_interrupts is_arch_arm (node_of (map CInt ids)) max_num_interrupts arch
  = Ok (map edge_descriptor ids).
Proof.
  intros Harm Hlen Hmax. unfold parse_dtb_node_interrupts, node_of.
  cbn [interrupts]. rewrite Harm, length_map.
  destruct (Nat.ltb_spec (length ids) 3) as [_|?]; [|lia].
  rewrite Nat.mod_1_r, Nat.div_1_r. cbn [Nat.eqb negb].
  rewrite (max_check_passes _ _ Hmax).
  apply (for_each_seq_map _ edge_descriptor ids 0).
  intros i id Hi. unfold generic_interrupt, parse_int, index. cbn [Nat.eqb Nat.add].
  rewrite Nat.mul_1_r, Nat.add_0_r, list_lookup_fmap, Hi. reflexivity.
Qed.

Lemma generic_one_cell_format_witness :
  parse_dtb_node_interrupts arm_tags (node_of (map CInt [11; 12])) 2 "riscv64"
  = Ok (map edge_descriptor [11; 12]).
Proof.
  apply (generic_one_cell_format arm_tags "riscv64" [11; 12] 2);
    [reflexivity | simpl; lia | right; simpl; lia].
Defined.

Lemma three_cells_lookup (ts : list (Z * Z * Z)) (i : nat) (type id flags : Z) :
  ts !! i = Some (type, id, flags) ->
  flat_map three_cells ts !! (i * 3 + 0)%nat = Some (CInt type)
  /\ flat_map three_cells ts !! (i * 3 + 1)%nat = Some (CInt id)
  /\ flat_map three_cells ts !! (i * 3 + 2)%nat = Some (CInt flags).
Proof.
  revert i. induction ts as [|[[t0 i0] f0] ts IH]; intros i; [done|].
  destruct i as [|i].
  - intros [= -> -> ->]. done.
  - intros Hi. apply IH in Hi. exact Hi.
Qed.

Lemma three_cells_length (ts : list (Z * Z * Z)) :
  length (flat_map three_cells ts) = (3 * length ts)%nat.
Proof.
  induction ts as [|[[t0 i0] f0] ts IH]; [done|].
  cbn [flat_map three_cells length app]. rewrite IH. lia.
Qed.

(** X15: three cells or more are read as interrupts of three cells
    [< type id flags >]; on an architecture that is not ARM the type is
    ignored, so the irq is the id as it stands (32 is never added), and
    the trigger is 1 exactly when one of the two lowest bits of the flags
    is set. *)
Theorem generic_three_cell_format (is_arch_arm : string -> bool) (arch : string)
    (ts : list (Z * Z * Z)) (max_num_interrupts : Z) :
  is_arch_arm arch = false ->
  ts <> [] ->
  max_num_interrupts = -1 \/ Z.of_nat (length ts) <= max_num_interrupts ->
  parse_dtb_node_interrupts is_arch_arm (node_of (flat_map three_cells ts))
    max_num_interrupts arch
  = Ok (map plain_descriptor ts).
Proof.
  intros Harm Hne Hmax. unfold parse_dtb_node_interrupts, node_of.
  cbn [interrupts]. rewrite Harm, three_cells_length.
  assert (0 < length ts)%nat by (destruct ts; [done | cbn [length]; lia]).
  destruct (Nat.ltb_spec (3 * length ts) 3) as [?|_]; [lia|].
  rewrite (Nat.mul_comm 3), Nat.Div0.mod_mul, Nat.div_mul by lia.
  cbn [Nat.eqb negb]. rewrite (max_check_passes _ _ Hmax).
  apply (for_each_seq_map _ plain_descriptor ts 0).
  intros i [[type id] flags] Hi.
  destruct (three_cells_lookup ts i type id flags Hi) as (Htype & Hid & Hflags).
  unfold generic_interrupt, parse_int, index. cbn [Nat.eqb Nat.add].
  rewrite Hid. cbn [bind]. rewrite Hflags. cbn [bind]. rewrite Htype. cbn [bind].
  rewrite Harm. cbn [andb plain_descriptor].
  destruct (Z.land flags 3 =? 0); reflexivity.
Qed.

Lemma generic_three_cell_format_witness :
  parse_dtb_node_interrupts arm_tags
    (node_of (flat_map three_cells [(0, 5, 4); (0, 6, 1)])) (-1) "riscv64"
  = Ok (map plain_descriptor [(0, 5, 4); (0, 6, 1)]).
Proof.
  apply (generic_three_cell_format arm_tags "riscv64" [(0, 5, 4); (0, 6, 1)] (-1));
    [reflexivity | discriminate | by left].
Defined.

(** X16: three cells or more whose number is not a multiple of three
    are rejected with the error that tells the number found and the 3
    expected, so four one-cell interrupts cannot be given. *)
Theorem generic_rejects_incomplete_triples (is_arch_arm : string -> bool)
    (node : dtb_node) (ints : list cell) (max_num_interrupts : Z) (arch : string) :
  is_arch_arm arch = false ->
  generic_cells node = Some ints ->
  (3 <= length ints)%nat -> (length ints mod 3 <> 0)%nat ->
  parse_dtb_node_interrupts is_arch_arm node max_num_interrupts arch
  = Raise (TemplateError (ValuesPerInterrupt (length ints) 3)).
Proof.
  intros Harm Hcells Hlen Hmod.
  rewrite (parse_generic_cells _ _ _ _ Harm), Hcells.
  unfold parse_dtb_node_interrupts, node_of. cbn [interrupts]. rewrite Harm.
  destruct (Nat.ltb_spec (length ints) 3) as [?|_]; [lia|].
  destruct (Nat.eqb_spec 0 (length ints mod 3)) as [?|_]; [lia|]. reflexivity.
Qed.

Lemma generic_rejects_incomplete_triples_witness :
  parse_dtb_node_interrupts arm_tags
    (node_extended [CInt 1; CInt 11; CInt 12; CInt 13; CInt 14]) (-1) "riscv64"
  = Raise (TemplateError (ValuesPerInterrupt 4 3)).
Proof.
  apply (generic_rejects_incomplete_triples arm_tags
           (node_extended [CInt 1; CInt 11; CInt 12; CInt 13; CInt 14])
           [CInt 11; CInt 12; CInt 13; CInt 14] (-1) "riscv64");
    [reflexivity | reflexivity | simpl; lia | simpl; lia].
Defined.

(** X17: on an architecture that is not ARM the first element of
    [interrupts_extended], the reference to the controller, is dropped
    and the rest is parsed as [interrupts] would be; with nothing after
    the reference the result is empty whatever the maximum is; and
    [interrupts_extended] is not looked at when [interrupts] is there. *)
Theorem generic_extended_drops_reference (is_arch_arm : string -> bool) (arch : string)
    (reference : cell) (ints : list cell) (max_num_interrupts : Z) :
  is_arch_arm arch = false ->
  (ints <> [] ->
   parse_dtb_node_interrupts is_arch_arm (node_extended (reference :: ints))
     max_num_interrupts arch
   = parse_dtb_node_interrupts is_arch_arm (node_of ints) max_num_interrupts arch)
  /\ parse_dtb_node_interrupts is_arch_arm (node_extended [reference])
       max_num_interrupts arch = Ok []
  /\ parse_dtb_node_interrupts is_arch_arm (node_extended []) max_num_interrupts arch
     = Ok []
  /\ forall other,
       parse_dtb_node_interrupts is_arch_arm
         {| interrupts := Some ints; interrupts_extended := Some other |}
         max_num_interrupts arch
       = parse_dtb_node_interrupts is_arch_arm (node_of ints) max_num_interrupts arch.
Proof.
  intros Harm. split; [|split; [|split]].
  - intros Hne. rewrite (parse_generic_cells _ _ _ _ Harm).
    unfold generic_cells, node_extended. cbn [interrupts interrupts_extended length].
    destruct ints as [|c ints]; [done|]. reflexivity.
  - by rewrite (parse_generic_cells _ _ _ _ Harm).
  - by rewrite (parse_generic_cells _ _ _ _ Harm).
  - intros other. by rewrite (parse_generic_cells _ _ _ _ Harm).
Qed.

Lemma generic_extended_drops_reference_witness :
  parse_dtb_node_interrupts arm_tags (node_extended [CInt 1; CInt 9]) (-1) "riscv64"
  = parse_dtb_node_interrupts arm_tags (node_of [CInt 9]) (-1) "riscv64".
Proof.
  apply (proj1 (generic_extended_drops_reference arm_tags "riscv64" (CInt 1) [CInt 9] (-1)
                  eq_refl)).
  discriminate.
Defined.

(** ** Client ids of virtqueues *)

Lemma next_free_spec (iters ids : list (option Z)) (current_id : Z) :
  match fst (next_free iters ids current_id) with
  | Some v => (Some v ∉ ids) /\ current_id <= v < current_id + Z.of_nat (length iters)
  | None => forall k, (k < length iters)%nat -> Some (current_id + Z.of_nat k) ∈ ids
  end.
Proof.
  revert current_id. induction iters as [|x iters IH]; intros c; cbn [next_free].
  - cbn [fst length]. intros k Hk. lia.
  - case_bool_decide as Hin; cbn [negb].
    + specialize (IH (c + 1)).
      destruct (fst (next_free iters ids (c + 1))) as [v|].
      * destruct IH as [Hv Hrange]. split; [exact Hv|]. cbn [length]. lia.
      * intros [|k] Hk.
        -- by rewrite Z.add_0_r.
        -- cbn [length] in Hk.
           replace (c + Z.of_nat (S k)) with (c + 1 + Z.of_nat k) by lia.
           apply IH. lia.
    + cbn [fst length]. split; [exact Hin | lia].
Qed.

Lemma next_free_finds (ids : list (option Z)) (current_id : Z) :
  None ∈ ids -> exists v, fst (next_free ids ids current_id) = Some v /\ Some v ∉ ids.
Proof.
  intros Hnone. pose proof (next_free_spec ids ids current_id) as H.
  destruct (fst (next_free ids ids current_id)) as [v|]; [exists v; tauto|].
  exfalso.
  assert (Hsub : None :: ((fun k => Some (current_id + Z.of_nat k)) <$> seq 0 (length ids))
                 ⊆+ ids).
  { apply NoDup_submseteq.
    - apply NoDup_cons. split.
      + intros Hin. apply list_elem_of_fmap in Hin as (k & [=] & _).
      + apply NoDup_fmap_2; [|apply NoDup_seq]. intros a b [=]. lia.
    - intros x Hx. apply elem_of_cons in Hx as [->|Hx]; [exact Hnone|].
      apply list_elem_of_fmap in Hx as (k & -> & Hk). apply H.
      apply elem_of_seq in Hk. lia. }
  apply submseteq_length in Hsub. cbn [length] in Hsub.
  rewrite length_fmap, length_seq in Hsub. lia.
Qed.

Lemma assign_ids_spec (indices : list nat) (ids : list (option Z)) (current_id : Z) :
  let final := assign_ids indices ids current_id in
  length final = length ids
  /\ (forall j v, ids !! j = Some (Some v) -> final !! j = Some (Some v))
  /\ (forall j, j ∈ indices -> (j < length ids)%nat -> exists v, final !! j = Some (Some v))
  /\ (distinct_ids ids -> distinct_ids final).
Proof.
  revert ids current_id. induction indices as [|index indices IH];
    intros ids c; cbn [assign_ids].
  - repeat split; try done. intros j Hj. by apply elem_of_nil in Hj.
  - destruct (ids !! index) as [[v|]|] eqn:Hindex.
    + destruct (IH ids c) as (Hlen & Hkeep & Hall & Hdist).
      repeat split; try done.
      intros j Hj Hlt. apply elem_of_cons in Hj as [->|Hj]; [|by apply Hall].
      exists v. by apply Hkeep.
    + destruct (next_free_finds ids c) as (v & Hv & Hfresh);
        [by eapply list_elem_of_lookup_2|].
      rewrite Hv.
      assert (Hlt : (index < length ids)%nat) by (apply lookup_lt_is_Some; eauto).
      destruct (IH (<[index := Some v]> ids) (snd (next_free ids ids c)))
        as (Hlen & Hkeep & Hall & Hdist).
      rewrite length_insert in Hlen, Hall.
      repeat split; try done.
      * intros j w Hj. apply Hkeep. rewrite list_lookup_insert_ne; [exact Hj|].
        intros ->. congruence.
      * intros j Hj Hjlt. apply elem_of_cons in Hj as [->|Hj]; [|by apply Hall].
        exists v. apply Hkeep. by apply list_lookup_insert_eq.
      * intros Hd. apply Hdist. intros j1 j2 w H1 H2.
        apply list_lookup_insert_Some in H1 as [(E1 & V1 & _)|(Hne1 & H1)];
          apply list_lookup_insert_Some in H2 as [(E2 & V2 & _)|(Hne2 & H2)].
        -- congruence.
        -- exfalso. apply Hfresh. rewrite V1. by eapply list_elem_of_lookup_2.
        -- exfalso. apply Hfresh. rewrite V2. by eapply list_elem_of_lookup_2.
        -- by eapply Hd.
    + destruct (IH ids c) as (Hlen & Hkeep & Hall & Hdist).
      repeat split; try done.
      intros j Hj Hlt. apply elem_of_cons in Hj as [->|Hj]; [|by apply Hall].
      apply lookup_ge_None in Hindex. lia.
Qed.

Lemma list_index_lookup (end_ : ConnectionEnd) (l : list ConnectionEnd) (k : nat) :
  list_index end_ l = Ok k -> exists e, l !! k = Some e /\ is_end e end_ = true.
Proof.
  revert k. induction l as [|x l IH]; intros k; cbn [list_index]; [discriminate|].
  destruct (is_end x end_) eqn:Hx.
  - intros [= <-]. by exists x.
  - destruct (list_index end_ l) as [n|]; cbn [bind]; [|discriminate].
    intros [= <-]. by apply IH.
Qed.

Lemma list_index_missing (end_ : ConnectionEnd) (l : list ConnectionEnd) :
  (forall e, e ∈ l -> is_end e end_ = false) -> list_index end_ l = Raise ValueError.
Proof.
  induction l as [|x l IH]; intros H; cbn [list_index]; [reflexivity|].
  rewrite (H x) by constructor. rewrite IH; [reflexivity|].
  intros e He. apply H. by constructor.
Qed.

(** X18: the ids [virtqueue_get_client_id] gives: an end of the
    instance on a seL4VirtQueues connection always gets a number (never
    [None]); an end with an id in the configuration gets that id; and
    when no id is configured twice, two ends at different places of the
    list get different ids. *)
Theorem virtqueue_ids_distinct (composition : Composition) (configuration : Configuration)
    (e1 e2 : ConnectionEnd) (k1 k2 : nat) :
  let ends := virtqueue_ends composition (instance e1) in
  let pins := map (pinned_id configuration (instance e1)) ends in
  instance e2 = instance e1 ->
  list_index e1 ends = Ok k1 -> list_index e2 ends = Ok k2 ->
  exists v1 v2,
    virtqueue_get_client_id composition e1 configuration = Ok (Some v1)
    /\ virtqueue_get_client_id composition e2 configuration = Ok (Some v2)
    /\ (forall p, pins !! k1 = Some (Some p) -> v1 = p)
    /\ (distinct_ids pins -> k1 <> k2 -> v1 <> v2).
Proof.
  intros ends pins Hinst H1 H2. unfold virtqueue_get_client_id.
  rewrite Hinst. fold ends. fold pins. rewrite H1, H2. cbn [bind].
  destruct (assign_ids_spec (seq 0 (length ends)) pins 0) as (Hlen & Hkeep & Hall & Hdist).
  assert (Hpins : length pins = length ends) by (subst pins; apply length_map).
  destruct (list_index_lookup _ _ _ H1) as (x1 & Hx1 & _).
  destruct (list_index_lookup _ _ _ H2) as (x2 & Hx2 & _).
  assert (Hk1 : (k1 < length ends)%nat) by (apply lookup_lt_is_Some; eauto).
  assert (Hk2 : (k2 < length ends)%nat) by (apply lookup_lt_is_Some; eauto).
  destruct (Hall k1) as [v1 Hv1]; [apply elem_of_seq; lia | lia |].
  destruct (Hall k2) as [v2 Hv2]; [apply elem_of_seq; lia | lia |].
  exists v1, v2. unfold index. rewrite Hv1, Hv2.
  repeat split; try done.
  - intros p Hp. apply Hkeep in Hp. congruence.
  - intros Hd Hne ->. apply Hne. by eapply (Hdist Hd).
Qed.

Lemma virtqueue_ids_distinct_witness :
  exists v1 v2,
    virtqueue_get_client_id virtqueue_composition (vm_end 0)
      (with_int "vm" "q1_id" 2 no_configuration) = Ok (Some v1)
    /\ virtqueue_get_client_id virtqueue_composition (vm_end 2)
         (with_int "vm" "q1_id" 2 no_configuration) = Ok (Some v2)
    /\ (forall p,
          map (pinned_id (with_int "vm" "q1_id" 2 no_configuration) (instance (vm_end 0)))
              (virtqueue_ends virtqueue_composition (instance (vm_end 0))) !! 0%nat
          = Some (Some p) -> v1 = p)
    /\ (distinct_ids
          (map (pinned_id (with_int "vm" "q1_id" 2 no_configuration) (instance (vm_end 0)))
               (virtqueue_ends virtqueue_composition (instance (vm_end 0)))) ->
        0%nat <> 2%nat -> v1 <> v2).
Proof.
  apply (virtqueue_ids_distinct virtqueue_composition
           (with_int "vm" "q1_id" 2 no_configuration) (vm_end 0) (vm_end 2) 0 2);
    reflexivity.
Defined.

Lemma next_free_head (ids : list (option Z)) (current_id : Z) :
  ids <> [] -> Some current_id ∉ ids ->
  next_free ids ids current_id = (Some current_id, current_id + 1).
Proof.
  intros Hne Hfresh. destruct ids as [|x l] eqn:Hl; [done|].
  cbn [next_free]. rewrite bool_decide_eq_false_2 by exact Hfresh. reflexivity.
Qed.

Lemma assign_ids_unpinned (m i : nat) :
  assign_ids (seq i m)
    (((fun k => Some (Z.of_nat k)) <$> seq 0 i) ++ replicate m None) (Z.of_nat i)
  = (fun k => Some (Z.of_nat k)) <$> seq 0 (i + m).
Proof.
  revert i. induction m as [|m IH]; intros i.
  - cbn [seq assign_ids replicate]. by rewrite app_nil_r, Nat.add_0_r.
  - cbn [seq assign_ids].
    assert (Hlen : length ((fun k => Some (Z.of_nat k)) <$> seq 0 i) = i)
      by (by rewrite length_fmap, length_seq).
    rewrite lookup_app_r by lia. rewrite Hlen, Nat.sub_diag. cbn [replicate lookup].
    assert (Hfresh : Some (Z.of_nat i)
              ∉ ((fun k => Some (Z.of_nat k)) <$> seq 0 i) ++ None :: replicate m None).
    { intros Hin. apply elem_of_app in Hin as [Hin|Hin].
      - apply list_elem_of_fmap in Hin as (k & [= Hk] & Hin).
        apply elem_of_seq in Hin. lia.
      - apply elem_of_cons in Hin as [[=]|Hin].
        by apply elem_of_replicate_inv in Hin. }
    assert (Hnext : next_free
              (((fun k => Some (Z.of_nat k)) <$> seq 0 i) ++ None :: replicate m None)
              (((fun k => Some (Z.of_nat k)) <$> seq 0 i) ++ None :: replicate m None)
              (Z.of_nat i) = (Some (Z.of_nat i), Z.of_nat i + 1)).
    { apply next_free_head; [|exact Hfresh].
      by destruct ((fun k => Some (Z.of_nat k)) <$> seq 0 i). }
    rewrite Hnext. cbn [fst snd].
    replace (<[i := Some (Z.of_nat i)]>
               (((fun k => Some (Z.of_nat k)) <$> seq 0 i) ++ None :: replicate m None))
      with (((fun k => Some (Z.of_nat k)) <$> seq 0 (S i)) ++ replicate m None).
    + replace (Z.of_nat i + 1) with (Z.of_nat (S i)) by lia.
      rewrite IH. f_equal. f_equal. lia.
    + rewrite insert_app_r_alt by lia. rewrite Hlen, Nat.sub_diag.
      cbn [insert list_insert]. rewrite seq_S, fmap_app, <- app_assoc. reflexivity.
Qed.

(** X19: when no end of the instance has an id in the configuration,
    the ends are numbered 0, 1, 2, ... in the order of the list: the end
    at place [k] gets the id [k]; an end that is on no seL4VirtQueues
    connection of the composition gets a [ValueError]. *)
Theorem virtqueue_ids_count_up (composition : Composition) (configuration : Configuration)
    (end_ : ConnectionEnd) :
  let ends := virtqueue_ends composition (instance end_) in
  (forall k,
     (forall e, e ∈ ends -> pinned_id configuration (instance end_) e = None) ->
     list_index end_ ends = Ok k ->
     virtqueue_get_client_id composition end_ configuration = Ok (Some (Z.of_nat k)))
  /\ ((forall e, e ∈ ends -> is_end e end_ = false) ->
      virtqueue_get_client_id composition end_ configuration = Raise ValueError).
Proof.
  intros ends. split.
  - intros k Hfree Hk. unfold virtqueue_get_client_id. fold ends. rewrite Hk. cbn [bind].
    assert (Hpins : map (pinned_id configuration (instance end_)) ends
                    = replicate (length ends) None).
    { clear Hk. induction ends as [|e l IH]; [reflexivity|].
      cbn [map length replicate]. rewrite (Hfree e) by constructor.
      f_equal. apply IH. intros e' He'. apply Hfree. by constructor. }
    rewrite Hpins.
    pose proof (assign_ids_unpinned (length ends) 0) as Hassign.
    change (assign_ids (seq 0 (length ends)) (replicate (length ends) None) 0
            = (fun k => Some (Z.of_nat k)) <$> seq 0 (length ends)) in Hassign.
    rewrite Hassign.
    destruct (list_index_lookup _ _ _ Hk) as (x & Hx & _).
    assert (Hlt : (k < length ends)%nat) by (apply lookup_lt_is_Some; eauto).
    unfold index. rewrite list_lookup_fmap, lookup_seq_lt by lia. reflexivity.
  - intros Hmissing. unfold virtqueue_get_client_id. fold ends.
    by rewrite (list_index_missing _ _ Hmissing).
Qed.

Lemma virtqueue_ids_count_up_witness :
  virtqueue_get_client_id virtqueue_composition (vm_end 1) no_configuration
  = Ok (Some (Z.of_nat 1)).
Proof.
  apply (proj1 (virtqueue_ids_count_up virtqueue_composition no_configuration (vm_end 1))).
  - intros e _. reflexivity.
  - reflexivity.
Defined.

(** ** Integrity labels *)

Lemma label_groups_keys_from (cs : list Instance) (gl gl' : dict) (k : string) :
  label_groups cs gl = Ok gl' -> k ∈ keys gl' ->
  k ∈ keys gl \/ exists c, c ∈ cs /\ inst_name c = k.
Proof.
  revert gl. induction cs as [|c cs IH]; intros gl; cbn [label_groups].
  - intros [= <-] Hk. by left.
  - assert (Hrest : forall gl0, label_groups cs gl0 = Ok gl' -> k ∈ keys gl' ->
              (k ∈ keys gl0 -> k ∈ keys gl \/ inst_name c = k) ->
              k ∈ keys gl \/ exists c', c' ∈ c :: cs /\ inst_name c' = k).
    { intros gl0 H Hk Hgl0. destruct (IH gl0 H Hk) as [Hin|(c' & Hc' & Hname)].
      - destruct (Hgl0 Hin) as [?|?]; [by left|].
        right. exists c. split; [constructor | done].
      - right. exists c'. split; [by constructor | done]. }
    destruct (negb _).
    + destruct (get_canonical_label gl (address_space c)) as [l|e]; cbn [bind];
        [|discriminate].
      intros H Hk. apply (Hrest _ H Hk). intros Hin.
      apply keys_set in Hin as [->|Hin]; auto.
    + intros H Hk. apply (Hrest _ H Hk). auto.
Qed.

Lemma label_configured_keys_from (cfg : Configuration) (cs : list Instance)
    (gl gl' : dict) (k : string) :
  label_configured cfg cs gl = Ok gl' -> k ∈ keys gl' ->
  k ∈ keys gl \/ exists c, c ∈ cs /\ inst_name c = k.
Proof.
  revert gl. induction cs as [|c cs IH]; intros gl; cbn [label_configured].
  - intros [= <-] Hk. by left.
  - assert (Hrest : forall gl0, label_configured cfg cs gl0 = Ok gl' -> k ∈ keys gl' ->
              (k ∈ keys gl0 -> k ∈ keys gl \/ inst_name c = k) ->
              k ∈ keys gl \/ exists c', c' ∈ c :: cs /\ inst_name c' = k).
    { intros gl0 H Hk Hgl0. destruct (IH gl0 H Hk) as [Hin|(c' & Hc' & Hname)].
      - destruct (Hgl0 Hin) as [?|?]; [by left|].
        right. exists c. split; [constructor | done].
      - right. exists c'. split; [by constructor | done]. }
    destruct (get_str cfg (inst_name c) "integrity_label") as [l|].
    + destruct (get_canonical_label gl l) as [l'|e]; cbn [bind]; [|discriminate].
      intros H Hk. apply (Hrest _ H Hk). intros Hin.
      apply keys_set in Hin as [->|Hin]; auto.
    + intros H Hk. apply (Hrest _ H Hk). auto.
Qed.

Lemma label_connections_keys_from (conns : list Connection) (gl gl' : dict) (k : string) :
  label_connections conns gl = Ok gl' -> k ∈ keys gl' ->
  k ∈ keys gl \/ exists conn, conn ∈ conns /\ conn_name conn = k.
Proof.
  revert gl. induction conns as [|conn conns IH]; intros gl; cbn [label_connections].
  - intros [= <-] Hk. by left.
  - assert (Hrest : forall gl0, label_connections conns gl0 = Ok gl' -> k ∈ keys gl' ->
              (k ∈ keys gl0 -> k ∈ keys gl \/ conn_name conn = k) ->
              k ∈ keys gl \/ exists conn', conn' ∈ conn :: conns /\ conn_name conn' = k).
    { intros gl0 H Hk Hgl0. destruct (IH gl0 H Hk) as [Hin|(c' & Hc' & Hname)].
      - destruct (Hgl0 Hin) as [?|?]; [by left|].
        right. exists conn. split; [constructor | done].
      - right. exists c'. split; [by constructor | done]. }
    destruct (connection_groups gl conn) as [groups|e]; cbn [bind]; [|discriminate].
    destruct (elements groups) as [|g [|g' rest]];
      intros H Hk; apply (Hrest _ H Hk); auto.
    intros Hin. apply keys_set in Hin as [->|Hin]; auto.
Qed.

(** X20: [integrity_group_labels] labels nothing but instances and
    connections of the composition: every key of the dictionary it
    returns is the name of one of them. *)
Theorem integrity_group_labels_keys_named (composition : Composition)
    (configuration : Configuration) (labels : dict) (k : string) :
  integrity_group_labels composition configuration = Ok labels ->
  k ∈ keys labels ->
  (exists c, c ∈ instances composition /\ inst_name c = k)
  \/ (exists conn, conn ∈ connections composition /\ conn_name conn = k).
Proof.
  unfold integrity_group_labels.
  destruct (label_groups (instances composition) []) as [gl0|e] eqn:H0; cbn [bind];
    [|discriminate].
  destruct (label_configured configuration (instances composition) gl0) as [gl1|e] eqn:H1;
    cbn [bind]; [|discriminate].
  destruct (label_connections (connections composition) gl1) as [gl2|e] eqn:H2;
    cbn [bind]; [|discriminate].
  intros H Hk. apply canonical_values in H as [Hkeys _]. rewrite Hkeys in Hk.
  destruct (label_connections_keys_from _ _ _ _ H2 Hk) as [Hk1|?]; [|by right].
  destruct (label_configured_keys_from _ _ _ _ _ H1 Hk1) as [Hk0|?]; [|by left].
  destruct (label_groups_keys_from _ _ _ _ H0 Hk0) as [Hnil|?]; [|by left].
  by apply elem_of_nil in Hnil.
Qed.

Lemma integrity_group_labels_keys_named_witness :
  (exists c, c ∈ instances grouped_composition /\ inst_name c = "inner")
  \/ (exists conn, conn ∈ connections grouped_composition /\ conn_name conn = "inner").
Proof.
  apply (integrity_group_labels_keys_named grouped_composition
           (with_str "z" "integrity_label" "trusted" no_configuration)
           [("x", "grp"); ("y", "grp"); ("z", "trusted"); ("inner", "grp")] "inner").
  - vm_compute. reflexivity.
  - set_solver.
Defined.

Lemma loop_fewer_seen (gl : dict) (fuel : nat) (group : string)
    (seen seen' : list string) (g : string) :
  (forall x, x ∈ seen' -> x ∈ seen) ->
  get_canonical_label_loop fuel gl group seen = Ok g ->
  get_canonical_label_loop fuel gl group seen' = Ok g.
Proof.
  revert group seen seen'. induction fuel as [|fuel IH]; intros group seen seen' Hsub;
    cbn [get_canonical_label_loop]; [discriminate|].
  destruct (dict_get group gl) as [group'|]; [|done].
  case_bool_decide as Hin; [discriminate|].
  rewrite bool_decide_eq_false_2 by (intros Hx; apply Hin, Hsub, Hx).
  apply IH. intros x Hx. apply elem_of_app in Hx as [Hx|Hx]; apply elem_of_app; auto.
Qed.

Lemma loop_more_fuel (gl : dict) (fuel : nat) (group : string) (seen : list string)
    (g : string) :
  get_canonical_label_loop fuel gl group seen = Ok g ->
  get_canonical_label_loop (S fuel) gl group seen = Ok g.
Proof.
  revert group seen. induction fuel as [|fuel IH]; intros group seen; [discriminate|].
  intros H. cbn [get_canonical_label_loop] in H.
  change (match dict_get group gl with
          | None => Ok group
          | Some group' =>
              if bool_decide (group' ∈ seen)
              then Raise (TemplateError (CycleInGroupLabelling seen))
              else get_canonical_label_loop (S fuel) gl group' (seen ++ [group'])
          end = Ok g).
  destruct (dict_get group gl) as [group'|]; [|exact H].
  case_bool_decide; [discriminate|]. by apply IH.
Qed.

(** X21: [get_canonical_label] follows the chain of labels: a name
    that is no key of [group_labels] is its own label; when a name has a
    canonical label, the name it is mapped to has the same one; and the
    canonical label is its own canonical label. *)
Theorem get_canonical_label_follows_chain (group_labels : dict) (l : string) :
  (dict_get l group_labels = None -> get_canonical_label group_labels l = Ok l)
  /\ (forall m g,
        dict_get l group_labels = Some m ->
        get_canonical_label group_labels l = Ok g ->
        get_canonical_label group_labels m = Ok g)
  /\ (forall g,
        get_canonical_label group_labels l = Ok g ->
        get_canonical_label group_labels g = Ok g).
Proof.
  assert (Hself : forall x, dict_get x group_labels = None ->
                            get_canonical_label group_labels x = Ok x).
  { intros x Hx. unfold get_canonical_label. cbn [get_canonical_label_loop].
    by rewrite Hx. }
  split; [apply Hself|]. split.
  - intros m g Hm Hloop. unfold get_canonical_label in *.
    cbn [get_canonical_label_loop] in Hloop. rewrite Hm in Hloop.
    case_bool_decide as Hseen; [discriminate|].
    apply loop_more_fuel. eapply loop_fewer_seen; [|exact Hloop].
    intros x Hx. apply list_elem_of_singleton in Hx as ->. set_solver.
  - intros g Hg. apply Hself. by eapply loop_returns_canonical.
Qed.

Lemma get_canonical_label_follows_chain_witness :
  get_canonical_label [("a", "b"); ("b", "c")] "b" = Ok "c".
Proof.
  apply (proj1 (proj2 (get_canonical_label_follows_chain [("a", "b"); ("b", "c")] "a"))
           "b" "c"); reflexivity.
Defined.

(** ** The badges of the notification allocator *)

Section NotificationInvariant.
Variable BadgeBits : nat.
Variable is_arch_arm : string -> bool.
Variable configuration : Configuration.
Variable arch : string.
Variable end_ : ConnectionEnd.
Variable base mask : Z.
(** What holds of every cursor, and of every badge made from one. *)
Variable cursor_ok : Z -> Prop.
Variable badge_ok : Z -> Prop.
Hypothesis step_ok : forall c v,
  cursor_ok c -> Notification.set_next_badge BadgeBits (end_str end_) c mask = Ok v ->
  cursor_ok v.
Hypothesis emit_ok : forall c, cursor_ok c -> badge_ok (Z.lor c base).

Lemma irq_loop_invariant (irqs : list descriptor) (c : Z) (r : list Z * Z) :
  cursor_ok c ->
  Notification.irq_loop BadgeBits end_ base mask irqs c = Ok r ->
  cursor_ok (snd r) /\ Forall badge_ok (fst r).
Proof.
  revert c r. induction irqs as [|d irqs IH]; intros c r Hc; cbn [Notification.irq_loop].
  - intros [= <-]. split; [exact Hc | constructor].
  - destruct (Notification.set_next_badge _ _ c mask) as [c1|e] eqn:Hstep; cbn [bind];
      [|discriminate].
    destruct (Notification.irq_loop _ _ _ _ irqs c1) as [r1|e] eqn:Hrest; cbn [bind];
      [|discriminate].
    intros [= <-]. cbn [fst snd].
    destruct (IH c1 r1 (step_ok _ _ Hc Hstep) Hrest) as [Hc1 Hall].
    split; [exact Hc1|]. constructor; [by apply emit_ok | exact Hall].
Qed.

Lemma threadless_ends_invariant (ends : list ConnectionEnd) (c : Z) (f : flow badges Z) :
  cursor_ok c ->
  Notification.threadless_ends BadgeBits is_arch_arm configuration arch end_ base mask
    ends c = Ok f ->
  match f with
  | Return r => Forall badge_ok (badges_values r)
                /\ exists i, i ∈ ends /\ is_end end_ i = true
  | Continue c' => cursor_ok c'
  end.
Proof.
  revert c. induction ends as [|to_end ends IH]; intros c Hc;
    cbn [Notification.threadless_ends].
  - intros [= <-]. exact Hc.
  - assert (Hrest : forall c', cursor_ok c' ->
      Notification.threadless_ends BadgeBits is_arch_arm configuration arch end_ base mask
        ends c' = Ok f ->
      match f with
      | Return r => Forall badge_ok (badges_values r)
                    /\ exists i, i ∈ to_end :: ends /\ is_end end_ i = true
      | Continue c' => cursor_ok c'
      end).
    { intros c' Hc' H. specialize (IH c' Hc' H). destruct f as [r|c'']; [|exact IH].
      destruct IH as [Hall (i & Hi & Hie)]. split; [exact Hall|].
      exists i. split; [by constructor | exact Hie]. }
    destruct (negb _); [by apply Hrest|].
    destruct (match get_dtb configuration (end_str to_end) with
              | Some query => index query 0 | None => Raise AttributeError end)
      as [dtb|e]; cbn [bind]; [|discriminate].
    destruct (parse_dtb_node_interrupts is_arch_arm dtb (-1) arch) as [irqs|e];
      cbn [bind]; [|discriminate].
    destruct (Notification.irq_loop _ _ _ _ irqs c) as [r|e] eqn:Hloop; cbn [bind];
      [|discriminate].
    apply irq_loop_invariant in Hloop as [Hc1 Hall]; [|exact Hc].
    destruct (is_end end_ to_end) eqn:Hend.
    + intros [= <-]. split; [exact Hall|]. exists to_end. split; [constructor | exact Hend].
    + by apply Hrest.
Qed.

Lemma global_ends_invariant (ends : list ConnectionEnd) (c : Z) (f : flow badges Z) :
  cursor_ok c ->
  Notification.global_ends BadgeBits end_ base mask ends c = Ok f ->
  match f with
  | Return r => Forall badge_ok (badges_values r)
                /\ exists i, i ∈ ends /\ is_end end_ i = true
  | Continue c' => cursor_ok c'
  end.
Proof.
  revert c. induction ends as [|i ends IH]; intros c Hc; cbn [Notification.global_ends].
  - intros [= <-]. exact Hc.
  - assert (Hrest : forall c', cursor_ok c' ->
      Notification.global_ends BadgeBits end_ base mask ends c' = Ok f ->
      match f with
      | Return r => Forall badge_ok (badges_values r)
                    /\ exists j, j ∈ i :: ends /\ is_end end_ j = true
      | Continue c' => cursor_ok c'
      end).
    { intros c' Hc' H. specialize (IH c' Hc' H). destruct f as [r|c'']; [|exact IH].
      destruct IH as [Hall (j & Hj & Hje)]. split; [exact Hall|].
      exists j. split; [by constructor | exact Hje]. }
    destruct (is_instance _ _); [|by apply Hrest].
    destruct (is_end end_ i) eqn:Hend.
    + intros [= <-]. split.
      * cbn [badges_values]. constructor; [by apply emit_ok | constructor].
      * exists i. split; [constructor | exact Hend].
    + destruct (Notification.set_next_badge _ _ c mask) as [c1|e] eqn:Hstep; cbn [bind];
        [|discriminate].
      apply Hrest. by eapply step_ok.
Qed.

Lemma connection_step_invariant (conn : Connection) (c : Z) (f : flow badges Z) :
  cursor_ok c ->
  Notification.connection_step BadgeBits is_arch_arm configuration arch end_ base mask
    conn c = Ok f ->
  match f with
  | Return r => Forall badge_ok (badges_values r) /\ on_connection end_ conn
  | Continue c' => cursor_ok c'
  end.
Proof.
  intros Hc. unfold Notification.connection_step, and_then, on_connection.
  destruct (if _ && _ then _ else _) as [[r|c1]|e] eqn:H1; cbn [bind]; try discriminate.
  { intros [= <-]. destruct (_ && _); [|discriminate].
    destruct (threadless_ends_invariant _ _ _ Hc H1) as [Hall (i & Hi & Hie)].
    split; [exact Hall|]. exists i. split; [|exact Hie]. apply elem_of_app. by right. }
  assert (Hc1 : cursor_ok c1).
  { destruct (_ && _); [|by injection H1 as <-].
    exact (threadless_ends_invariant _ _ _ Hc H1). }
  clear H1.
  destruct (if attribute_set (type conn) "from_global_endpoint" then _ else _)
    as [[r|c2]|e] eqn:H2; cbn [bind]; try discriminate.
  { intros [= <-]. destruct (attribute_set _ _); [|discriminate].
    destruct (global_ends_invariant _ _ _ Hc1 H2) as [Hall (i & Hi & Hie)].
    split; [exact Hall|]. exists i. split; [|exact Hie]. apply elem_of_app. by left. }
  assert (Hc2 : cursor_ok c2).
  { destruct (attribute_set _ _); [|by injection H2 as <-].
    exact (global_ends_invariant _ _ _ Hc1 H2). }
  clear H2.
  destruct (attribute_set _ _); [|by intros [= <-]].
  intros H3. pose proof (global_ends_invariant _ _ _ Hc2 H3) as Hpost.
  destruct f as [r|c3]; [|exact Hpost].
  destruct Hpost as [Hall (i & Hi & Hie)].
  split; [exact Hall|]. exists i. split; [|exact Hie]. apply elem_of_app. by right.
Qed.

Lemma scan_invariant (cs : list Connection) (c : Z) (r : badges) :
  cursor_ok c ->
  Notification.scan BadgeBits is_arch_arm configuration arch end_ base mask cs c = Ok r ->
  Forall badge_ok (badges_values r)
  /\ exists conn, conn ∈ cs /\ on_connection end_ conn.
Proof.
  revert c. induction cs as [|conn cs IH]; intros c Hc; cbn [Notification.scan];
    [discriminate|].
  destruct (Notification.connection_step _ _ _ _ _ _ _ conn c) as [f|e] eqn:Hstep;
    cbn [bind]; [|discriminate].
  apply connection_step_invariant in Hstep; [|exact Hc].
  destruct f as [v|c1].
  - intros [= <-]. destruct Hstep as [Hall Hon]. split; [exact Hall|].
    exists conn. split; [constructor | exact Hon].
  - intros H. destruct (IH c1 Hstep H) as [Hall (conn' & Hin & Hon)].
    split; [exact Hall|]. exists conn'. split; [by constructor | exact Hon].
Qed.
End NotificationInvariant.

Lemma notification_rec_at_most_width (BadgeBits : nat) (end_ : string) (mask : Z)
    (fuel : nat) (c v : Z) :
  (c = 0 \/ exists k : nat, c = 2 ^ Z.of_nat k) ->
  Notification.set_next_badge_rec BadgeBits fuel end_ c mask = Ok v ->
  v <= 2 ^ Z.of_nat BadgeBits.
Proof.
  revert c. induction fuel as [|fuel IH]; intros c Hc; [discriminate|].
  rewrite rec_unfold.
  destruct (Z.geb_spec c (2 ^ Z.of_nat BadgeBits)) as [?|Hlt]; [discriminate|].
  assert (Hnext : (exists k : nat, next_candidate c = 2 ^ Z.of_nat k)
                  /\ next_candidate c <= 2 ^ Z.of_nat BadgeBits).
  { destruct Hc as [->|[k ->]].
    - split; [by exists 0%nat|]. change (next_candidate 0) with (2 ^ 0).
      apply Z.pow_le_mono_r; lia.
    - rewrite next_candidate_double by (apply Z.pow_pos_nonneg; lia).
      apply Z.pow_lt_mono_r_iff in Hlt; [|lia|lia].
      rewrite <- Z.pow_succ_r, <- Nat2Z.inj_succ by lia.
      split; [by exists (S k)|]. apply Z.pow_le_mono_r; lia. }
  destruct Hnext as [Hpow Hle].
  destruct (Z.land (next_candidate c) mask =? 0).
  - apply IH. by right.
  - by intros [= <-].
Qed.

Lemma notification_step_signal_bit (BadgeBits : nat) (end_ : string) (mask c v : Z) :
  (c = 0 \/ signal_bit BadgeBits mask c) ->
  Notification.set_next_badge BadgeBits end_ c mask = Ok v ->
  signal_bit BadgeBits mask v.
Proof.
  intros Hc Hv.
  assert (Hc' : c = 0 \/ exists k : nat, c = 2 ^ Z.of_nat k).
  { destruct Hc as [->|(k & _ & _ & ->)]; [by left | right; by exists k]. }
  pose proof (notification_rec_at_most_width _ _ _ _ _ _ Hc' Hv) as Hle.
  apply rec_power_of_two in Hv as ([k ->] & Hm & _); [|exact Hc'].
  exists k. split; [|split; [|reflexivity]].
  - apply Z.pow_le_mono_r_iff in Hle; lia.
  - rewrite land_pow2 in Hm by lia.
    destruct (Z.testbit mask (Z.of_nat k)); [reflexivity|].
    assert (0 < 2 ^ Z.of_nat k) by (apply Z.pow_pos_nonneg; lia). lia.
Qed.

(** X22: every badge [global_endpoint_badges] returns is a single bit
    of the mask, of a position from 0 to [BadgeBits], with the base or-ed
    into it; and it returns only for an end that is on a connection of
    the composition. *)
Theorem global_endpoint_badges_are_signal_bits (BadgeBits : nat)
    (is_arch_arm : string -> bool) (composition : Composition) (end_ : ConnectionEnd)
    (configuration : Configuration) (arch : string) (r : badges) :
  Notification.global_endpoint_badges BadgeBits is_arch_arm composition end_
    configuration arch = Ok r ->
  Forall (signal_badge BadgeBits (Notification.base_of configuration end_)
            (Notification.mask_of BadgeBits configuration end_)) (badges_values r)
  /\ exists conn, conn ∈ connections composition /\ on_connection end_ conn.
Proof.
  unfold Notification.global_endpoint_badges.
  destruct (Notification.set_next_badge _ _ 0 _) as [c|e] eqn:Hfirst; cbn [bind];
    [|discriminate].
  apply notification_step_signal_bit in Hfirst; [|by left].
  apply (scan_invariant BadgeBits is_arch_arm configuration arch end_ _ _
           (signal_bit BadgeBits (Notification.mask_of BadgeBits configuration end_))).
  - intros c0 v Hc0. apply notification_step_signal_bit. by right.
  - intros c0 Hc0. by exists c0.
  - exact Hfirst.
Qed.

Lemma global_endpoint_badges_are_signal_bits_witness :
  Forall (signal_badge 28 (Notification.base_of no_configuration (receiver_end 1))
            (Notification.mask_of 28 no_configuration (receiver_end 1)))
         (badges_values (Badge 5))
  /\ exists conn, conn ∈ connections (notification_composition 3)
                  /\ on_connection (receiver_end 1) conn.
Proof.
  apply (global_endpoint_badges_are_signal_bits 28 arm_tags (notification_composition 3)
           (receiver_end 1) no_configuration "aarch32" (Badge 5)).
  vm_compute. reflexivity.
Defined.

(** ** The badges of the RPC allocator *)

Section RpcInvariant.
Variable BadgeBits : nat.
Variable end_ : ConnectionEnd.
Variable base mask : Z.
Variable cursor_ok : Z -> Prop.
Variable badge_ok : Z -> Prop.
Hypothesis step_ok : forall c v,
  cursor_ok c -> Rpc.set_next_badge BadgeBits (end_str end_) (c + 1) mask = Ok v ->
  cursor_ok v.
Hypothesis emit_ok : forall c, cursor_ok c -> badge_ok (Z.lor c base).

Lemma peer_loop_invariant (peers : list ConnectionEnd) (acc : list Z) (c : Z)
    (r : list Z * Z) :
  Forall badge_ok acc -> cursor_ok c ->
  Rpc.peer_loop BadgeBits end_ base mask peers acc c = Ok r ->
  Forall badge_ok (fst r) /\ cursor_ok (snd r).
Proof.
  revert acc c. induction peers as [|p peers IH]; intros acc c Hacc Hc;
    cbn [Rpc.peer_loop].
  - by intros [= <-].
  - destruct (Rpc.set_next_badge _ _ (c + 1) mask) as [c1|e] eqn:Hstep; cbn [bind];
      [|discriminate].
    apply IH; [|by eapply step_ok].
    apply Forall_app. split; [exact Hacc|]. constructor; [by apply emit_ok | constructor].
Qed.

Lemma rpc_ends_invariant (ends peers : list ConnectionEnd) (st : list Z * Z)
    (f : flow (list Z) (list Z * Z)) :
  Forall badge_ok (fst st) -> cursor_ok (snd st) ->
  Rpc.rpc_ends BadgeBits end_ base mask ends peers st = Ok f ->
  match f with
  | Return bs => Forall badge_ok bs
  | Continue st' => Forall badge_ok (fst st') /\ cursor_ok (snd st')
  end.
Proof.
  revert st. induction ends as [|i ends IH]; intros st Hacc Hc; cbn [Rpc.rpc_ends].
  - by intros [= <-].
  - destruct (is_instance _ _); [|by apply IH].
    destruct (Rpc.peer_loop _ _ _ _ peers (fst st) (snd st)) as [r|e] eqn:Hloop;
      cbn [bind]; [|discriminate].
    apply peer_loop_invariant in Hloop as [Hall Hc1]; [|exact Hacc|exact Hc].
    destruct (is_end end_ i).
    + by intros [= <-].
    + apply IH; [constructor | exact Hc1].
Qed.

Lemma rpc_connection_step_invariant (conn : Connection) (st : list Z * Z)
    (f : flow (list Z) (list Z * Z)) :
  Forall badge_ok (fst st) -> cursor_ok (snd st) ->
  Rpc.connection_step BadgeBits end_ base mask conn st = Ok f ->
  match f with
  | Return bs => Forall badge_ok bs
  | Continue st' => Forall badge_ok (fst st') /\ cursor_ok (snd st')
  end.
Proof.
  intros Hacc Hc. unfold Rpc.connection_step, and_then.
  destruct (if attribute_set (type conn) "from_global_rpc_endpoint" then _ else _)
    as [[bs|st1]|e] eqn:H1; cbn [bind]; try discriminate.
  { intros [= <-]. destruct (attribute_set _ _); [|discriminate].
    exact (rpc_ends_invariant _ _ _ _ Hacc Hc H1). }
  assert (Hst1 : Forall badge_ok (fst st1) /\ cursor_ok (snd st1)).
  { destruct (attribute_set _ _); [|injection H1 as <-; by split].
    exact (rpc_ends_invariant _ _ _ _ Hacc Hc H1). }
  clear H1. destruct Hst1 as [Hacc1 Hc1].
  destruct (attribute_set _ _); [|intros [= <-]; by split].
  by apply rpc_ends_invariant.
Qed.

Lemma rpc_scan_invariant (cs : list Connection) (st : list Z * Z) (bs : list Z) :
  Forall badge_ok (fst st) -> cursor_ok (snd st) ->
  Rpc.scan BadgeBits end_ base mask cs st = Ok bs -> Forall badge_ok bs.
Proof.
  revert st. induction cs as [|conn cs IH]; intros st Hacc Hc; cbn [Rpc.scan];
    [discriminate|].
  destruct (Rpc.connection_step _ _ _ _ conn st) as [f|e] eqn:Hstep; cbn [bind];
    [|discriminate].
  apply rpc_connection_step_invariant in Hstep; [|exact Hacc|exact Hc].
  destruct f as [v|st1].
  - by intros [= <-].
  - destruct Hstep as [Hacc1 Hc1]. by apply IH.
Qed.
End RpcInvariant.

Lemma rpc_step_cursor (BadgeBits : nat) (end_ : string) (mask x v : Z) :
  1 <= x -> Rpc.set_next_badge BadgeBits end_ x mask = Ok v ->
  rpc_cursor BadgeBits mask v.
Proof.
  intros Hx Hv. apply rpc_rec_returns in Hv as (Hle & Hm & Hlt); [|lia].
  repeat split; [lia | exact Hm | exact Hlt].
Qed.

Lemma lor_below_pow2 (a b : Z) (n : nat) :
  0 <= a < 2 ^ Z.of_nat n -> 0 <= b < 2 ^ Z.of_nat n ->
  0 <= Z.lor a b < 2 ^ Z.of_nat n.
Proof.
  intros Ha Hb. split; [apply Z.lor_nonneg; lia|].
  destruct (Z.eq_dec (Z.lor a b) 0) as [->|Hne]; [lia|].
  assert (0 < Z.lor a b) by (pose proof (proj2 (Z.lor_nonneg a b)); lia).
  apply Z.log2_lt_pow2; [lia|]. rewrite Z.log2_lor by lia.
  destruct (Z.eq_dec a 0) as [->|?], (Z.eq_dec b 0) as [->|?].
  - by rewrite Z.lor_0_l in Hne.
  - rewrite Z.max_r by (apply Z.log2_nonneg). apply Z.log2_lt_pow2; lia.
  - rewrite Z.max_l by (apply Z.log2_nonneg). apply Z.log2_lt_pow2; lia.
  - apply Z.max_lub_lt; apply Z.log2_lt_pow2; lia.
Qed.

(** X23: every badge [global_rpc_endpoint_badges] returns is a
    positive value inside the mask, below [2 ^ BadgeBits] and below the
    mask itself (so the value with all bits of the mask set is never
    handed out), with the base or-ed into it; when the base fits the
    badge width the badge does too. *)
Theorem global_rpc_endpoint_badges_fit (BadgeBits : nat) (composition : Composition)
    (end_ : ConnectionEnd) (configuration : Configuration) (bs : list Z) :
  let base := Rpc.base_of configuration end_ in
  let mask := Rpc.mask_of BadgeBits configuration end_ in
  Rpc.global_rpc_endpoint_badges BadgeBits composition end_ configuration = Ok bs ->
  Forall (rpc_badge BadgeBits base mask) bs
  /\ (0 <= base < 2 ^ Z.of_nat BadgeBits ->
      Forall (fun b => 0 <= b < 2 ^ Z.of_nat BadgeBits) bs).
Proof.
  intros base mask. unfold Rpc.global_rpc_endpoint_badges. fold base. fold mask.
  destruct (Rpc.set_next_badge _ _ 1 mask) as [c|e] eqn:Hfirst; cbn [bind];
    [|discriminate].
  apply rpc_step_cursor in Hfirst; [|lia].
  intros Hscan.
  assert (Hall : Forall (rpc_badge BadgeBits base mask) bs).
  { apply (rpc_scan_invariant BadgeBits end_ base mask (rpc_cursor BadgeBits mask)
             (rpc_badge BadgeBits base mask)) in Hscan; [exact Hscan| | | |].
    - intros c0 v (Hc0 & _ & _). apply rpc_step_cursor. lia.
    - intros c0 Hc0. by exists c0.
    - constructor.
    - exact Hfirst. }
  split; [exact Hall|]. intros Hbase.
  eapply Forall_impl; [exact Hall|].
  intros b (c0 & (Hpos & _ & Hlt) & ->). apply lor_below_pow2; lia.
Qed.

Lemma global_rpc_endpoint_badges_fit_witness :
  Forall (rpc_badge 28 (Rpc.base_of no_configuration server_end)
            (Rpc.mask_of 28 no_configuration server_end)) [2; 4; 6]
  /\ (0 <= Rpc.base_of no_configuration server_end < 2 ^ Z.of_nat 28 ->
      Forall (fun b => 0 <= b < 2 ^ Z.of_nat 28) [2; 4; 6]).
Proof.
  apply (global_rpc_endpoint_badges_fit 28 rpc_composition server_end no_configuration
           [2; 4; 6]).
  vm_compute. reflexivity.
Defined.

(** X24: with the defaults the badges of one instance never collide:
    when no [global_endpoint_mask] is configured the notification badges
    of two ends of the instance differ, whatever the base is, and when no
    [global_rpc_endpoint_base] is configured so do the RPC badges,
    whatever the mask is. *)
Theorem default_configuration_keeps_badges_apart (BadgeBits : nat)
    (is_arch_arm : string -> bool) (composition : Composition) (e1 e2 : ConnectionEnd)
    (configuration : Configuration) (arch : string) :
  instance e1 = instance e2 -> end_id e1 <> end_id e2 ->
  (get_int configuration (inst_name (instance e1)) "global_endpoint_mask" = None ->
   forall r1 r2,
     Notification.global_endpoint_badges BadgeBits is_arch_arm composition e1
       configuration arch = Ok r1 ->
     Notification.global_endpoint_badges BadgeBits is_arch_arm composition e2
       configuration arch = Ok r2 ->
     NoDup (badges_values r1)
     /\ forall a b, a ∈ badges_values r1 -> b ∈ badges_values r2 -> a <> b)
  /\ (get_int configuration (inst_name (instance e1)) "global_rpc_endpoint_base" = None ->
      forall bs1 bs2,
        Rpc.global_rpc_endpoint_badges BadgeBits composition e1 configuration = Ok bs1 ->
        Rpc.global_rpc_endpoint_badges BadgeBits composition e2 configuration = Ok bs2 ->
        NoDup bs1 /\ forall a b, a ∈ bs1 -> b ∈ bs2 -> a <> b).
Proof.
  intros Hinst Hne. split.
  - intros Hmask r1 r2 H1 H2.
    assert (Hbase : Z.land (Notification.base_of configuration e1)
                           (Notification.mask_of BadgeBits configuration e1) = 0).
    { unfold Notification.mask_of. rewrite Hmask. cbn [default].
      rewrite (Z.land_comm (2 ^ Z.of_nat BadgeBits - 1)), Z.land_assoc.
      rewrite Z.land_lnot_diag. apply Z.land_0_l. }
    split.
    + by apply (global_endpoint_badges_sound _ _ _ _ _ _ _ H1).
    + by apply (global_endpoint_badges_apart BadgeBits is_arch_arm composition e1 e2
                  configuration arch r1 r2).
  - intros Hunset bs1 bs2 H1 H2.
    assert (Hbase : Z.land (Rpc.base_of configuration e1)
                           (Rpc.mask_of BadgeBits configuration e1) = 0).
    { unfold Rpc.base_of. rewrite Hunset. apply Z.land_0_l. }
    split.
    + by apply (global_rpc_endpoint_badges_sound _ _ _ _ _ H1).
    + by apply (global_rpc_endpoint_badges_apart BadgeBits composition e1 e2
                  configuration bs1 bs2).
Qed.

Lemma default_configuration_keeps_badges_apart_witness :
  NoDup (badges_values (Badge 3))
  /\ forall a b, a ∈ badges_values (Badge 3) -> b ∈ badges_values (Badge 5) -> a <> b.
Proof.
  apply (proj1 (default_configuration_keeps_badges_apart 28 arm_tags
                  (notification_composition 3) (receiver_end 0) (receiver_end 1)
                  no_configuration "aarch32" eq_refl ltac:(simpl; lia)));
    [reflexivity | vm_compute; reflexivity | vm_compute; reflexivity].
Defined.

(** ** The RPC cursor visits every value inside the mask *)

(** Adding one sets the lowest clear bit, clears the bits below it and
    leaves the bits above it. *)
Lemma succ_bits (a : Z) :
  0 <= a ->
  exists j, 0 <= j /\ Z.testbit (a + 1) j = true
            /\ (forall i, 0 <= i < j -> Z.testbit (a + 1) i = false)
            /\ (forall i, j < i -> Z.testbit (a + 1) i = Z.testbit a i).
Proof.
  revert a. apply (Zlt_0_ind (fun a => exists j, 0 <= j /\ Z.testbit (a + 1) j = true
            /\ (forall i, 0 <= i < j -> Z.testbit (a + 1) i = false)
            /\ (forall i, j < i -> Z.testbit (a + 1) i = Z.testbit a i))).
  intros a IH Ha.
  destruct (Z.Even_or_Odd a) as [[b ->]|[b ->]].
  - exists 0. split; [lia|]. split; [apply Z.testbit_odd_0|].
    split; [intros i Hi; lia|].
    intros i Hi. replace i with (Z.succ (i - 1)) by lia.
    rewrite Z.testbit_odd_succ, Z.testbit_even_succ by lia. reflexivity.
  - destruct (IH b) as (j & Hj & Hset & Hlow & Hhigh); [lia|].
    replace (2 * b + 1 + 1) with (2 * (b + 1)) by lia.
    exists (Z.succ j). split; [lia|].
    split; [by rewrite Z.testbit_even_succ|].
    split.
    + intros i Hi. destruct (Z.eq_dec i 0) as [->|Hne]; [apply Z.testbit_even_0|].
      replace i with (Z.succ (i - 1)) by lia.
      rewrite Z.testbit_even_succ by lia. apply Hlow. lia.
    + intros i Hi. replace i with (Z.succ (i - 1)) by lia.
      rewrite Z.testbit_even_succ, Z.testbit_odd_succ by lia. apply Hhigh. lia.
Qed.

Lemma inside_bits (mask w : Z) (i : Z) :
  Z.land w mask = w -> Z.testbit w i = true -> Z.testbit mask i = true.
Proof.
  intros Hw Hi. rewrite <- Hw, Z.land_spec in Hi. by apply andb_true_iff in Hi as [_ ?].
Qed.

Lemma one_wrong_bit_succ (mask prev : Z) :
  0 <= prev -> Z.land prev mask = prev -> one_wrong_bit mask (prev + 1).
Proof.
  intros Hprev Hin. destruct (succ_bits prev Hprev) as (j & Hj & Hset & Hlow & Hhigh).
  exists j. repeat split; [exact Hj | exact Hset | exact Hlow |].
  intros i Hi Hbit. rewrite Hhigh in Hbit by exact Hi. by eapply inside_bits.
Qed.

Lemma one_wrong_bit_repair (mask x : Z) :
  0 < x -> one_wrong_bit mask x -> Z.land x mask <> x ->
  one_wrong_bit mask (Z.land (Z.lnot mask) x + x)
  /\ x < Z.land (Z.lnot mask) x + x
  /\ forall w, x <= w -> Z.land w mask = w -> Z.land (Z.lnot mask) x + x <= w.
Proof.
  intros Hx (q & Hq & Hset & Hlow & Hhigh) Hwrong.
  assert (Hmq : Z.testbit mask q = false).
  { destruct (Z.testbit mask q) eqn:Hmq; [|reflexivity]. exfalso. apply Hwrong.
    apply Z.bits_inj'. intros n Hn. rewrite Z.land_spec.
    destruct (Z.testbit x n) eqn:Hxn; [|reflexivity]. cbn [andb].
    destruct (Z.lt_trichotomy n q) as [Hlt|[->|Hgt]].
    - rewrite Hlow in Hxn by lia. discriminate.
    - exact Hmq.
    - by apply Hhigh. }
  assert (Hrepair : Z.land (Z.lnot mask) x = 2 ^ q).
  { apply Z.bits_inj'. intros n Hn.
    rewrite Z.land_spec, Z.lnot_spec, Z.pow2_bits_eqb by lia.
    destruct (Z.eqb_spec q n) as [<-|Hne].
    - by rewrite Hmq, Hset.
    - destruct (Z.testbit x n) eqn:Hxn; [|apply andb_false_r].
      destruct (Z.lt_trichotomy n q) as [Hlt|[->|Hgt]]; [|done|].
      + rewrite Hlow in Hxn by lia. discriminate.
      + by rewrite (Hhigh n Hgt Hxn). }
  rewrite Hrepair.
  assert (Hpow : 0 < 2 ^ q) by (apply Z.pow_pos_nonneg; lia).
  assert (Hmod : x mod 2 ^ q = 0).
  { apply Z.bits_inj'. intros n Hn. rewrite Z.bits_0.
    destruct (Z.lt_ge_cases n q) as [Hlt|Hge].
    - rewrite Z.mod_pow2_bits_low by lia. apply Hlow. lia.
    - apply Z.mod_pow2_bits_high. lia. }
  assert (Hodd : (x / 2 ^ q) mod 2 = 1).
  { rewrite <- Z.testbit_spec' by lia. by rewrite Hset. }
  pose proof (Z.div_mod x (2 ^ q) ltac:(lia)) as Hx_eq. rewrite Hmod in Hx_eq.
  set (k := x / 2 ^ q) in *.
  pose proof (Z.div_mod k 2 ltac:(lia)) as Hk_eq. rewrite Hodd in Hk_eq.
  set (a := k / 2) in *.
  assert (Ha : 0 <= a) by nia.
  assert (Hxa : x = 2 ^ (q + 1) * a + 2 ^ q).
  { rewrite Z.pow_add_r by lia. change (2 ^ 1) with 2. nia. }
  assert (Hx' : 2 ^ q + x = (a + 1) * 2 ^ (q + 1)).
  { rewrite Z.pow_add_r by lia. change (2 ^ 1) with 2. nia. }
  assert (Hxa_div : x / 2 ^ (q + 1) = a).
  { symmetry. apply (Z.div_unique_pos x (2 ^ (q + 1)) a (2 ^ q)); [|lia].
    rewrite Z.pow_add_r by lia. change (2 ^ 1) with 2. lia. }
  split; [|split; [lia|]].
  - rewrite Hx'.
    destruct (succ_bits a Ha) as (j & Hj & Hjset & Hjlow & Hjhigh).
    exists (q + 1 + j). split; [lia|].
    split; [rewrite Z.mul_pow2_bits by lia;
            by replace (q + 1 + j - (q + 1)) with j by lia|].
    split.
    + intros i Hi. rewrite Z.mul_pow2_bits by lia.
      destruct (Z.lt_ge_cases i (q + 1)) as [Hlt|Hge].
      * apply Z.testbit_neg_r. lia.
      * apply Hjlow. lia.
    + intros i Hi. rewrite Z.mul_pow2_bits by lia.
      rewrite Hjhigh by lia. rewrite <- Hxa_div, Z.div_pow2_bits by lia.
      replace (i - (q + 1) + (q + 1)) with i by lia.
      apply Hhigh. lia.
  - intros w Hle Hw.
    destruct (Z.lt_ge_cases w (2 ^ q + x)) as [Hlt|Hge]; [exfalso|lia].
    assert (Hwq : Z.testbit w q = true).
    { apply (f_equal Z.b2z) in Hmq as _.
      assert (Hdiv : w / 2 ^ q = k).
      { symmetry. apply (Z.div_unique_pos w (2 ^ q) k (w - x)); lia. }
      pose proof (Z.testbit_spec' w q Hq) as Hspec. rewrite Hdiv, Hodd in Hspec.
      by destruct (Z.testbit w q). }
    pose proof (inside_bits mask w q Hw Hwq). congruence.
Qed.

Section RpcNext.
Variable BadgeBits : nat.
Variable end_ : string.
Variable mask prev : Z.

Lemma rpc_rec_next (fuel : nat) (x : Z) :
  prev < x -> 0 < x -> one_wrong_bit mask x ->
  (forall w, prev < w -> Z.land w mask = w -> x <= w) ->
  match Rpc.set_next_badge_rec BadgeBits fuel end_ x mask with
  | Ok v => prev < v /\ Z.land v mask = v
            /\ forall w, prev < w -> Z.land w mask = w -> v <= w
  | Raise e =>
      e = OutOfFuel
      \/ (e = CouldntAllocateEndpointBadge end_
          /\ forall w, prev < w -> Z.land w mask = w ->
                       Z.min (2 ^ Z.of_nat BadgeBits) mask <= w)
  end.
Proof.
  revert x. induction fuel as [|fuel IH]; intros x Hprev Hx Hone Hleast;
    [by left|].
  rewrite rpc_rec_unfold.
  destruct (Z.geb_spec x (Z.min (2 ^ Z.of_nat BadgeBits) mask)) as [Hge|Hlt].
  - right. split; [reflexivity|]. intros w Hw Hin. specialize (Hleast w Hw Hin). lia.
  - destruct (Z.eqb_spec (Z.land x mask) x) as [Heq|Hne]; cbn [negb].
    + by repeat split.
    + destruct (one_wrong_bit_repair mask x Hx Hone Hne) as (Hone' & Hgt & Hskip).
      apply IH; [lia | lia | exact Hone' |].
      intros w Hw Hin. apply Hskip; [by apply Hleast | exact Hin].
Qed.
End RpcNext.

(** X25: the comment in the RPC [set_next_badge] holds: called with
    one more than a value inside the mask, it returns the next value
    inside the mask, skipping none; and when it raises, every value
    inside the mask above the previous one is at or beyond the bound
    [min(2 ^ BadgeBits, mask)]. *)
Theorem rpc_set_next_badge_is_successor (BadgeBits : nat) (end_ : string)
    (mask prev : Z) :
  0 <= prev -> Z.land prev mask = prev ->
  (forall v,
     Rpc.set_next_badge BadgeBits end_ (prev + 1) mask = Ok v ->
     prev < v /\ Z.land v mask = v
     /\ forall w, prev < w -> Z.land w mask = w -> v <= w)
  /\ (forall e,
        Rpc.set_next_badge BadgeBits end_ (prev + 1) mask = Raise e ->
        e = CouldntAllocateEndpointBadge end_
        /\ forall w, prev < w -> Z.land w mask = w ->
                     Z.min (2 ^ Z.of_nat BadgeBits) mask <= w).
Proof.
  intros Hprev Hin.
  pose proof (rpc_rec_next BadgeBits end_ mask prev (S (S BadgeBits)) (prev + 1)
                ltac:(lia) ltac:(lia) (one_wrong_bit_succ mask prev Hprev Hin)
                ltac:(intros; lia)) as Hnext.
  pose proof (rpc_set_next_badge_total BadgeBits end_ mask (prev + 1) ltac:(lia)) as Hfuel.
  unfold Rpc.set_next_badge in *.
  destruct (Rpc.set_next_badge_rec BadgeBits (S (S BadgeBits)) end_ (prev + 1) mask)
    as [v|e].
  - split; [|discriminate]. by intros v' [= <-].
  - split; [discriminate|]. intros e' [= <-].
    destruct Hnext as [->|Hnext]; [done | exact Hnext].
Qed.

Lemma rpc_set_next_badge_is_successor_witness :
  2 < 8 /\ Z.land 8 10 = 8
  /\ forall w, 2 < w -> Z.land w 10 = w -> 8 <= w.
Proof.
  apply (proj1 (rpc_set_next_badge_is_successor 28 "server.s" 10 2
                  ltac:(lia) eq_refl) 8).
  vm_compute. reflexivity.
Defined.

(** ** Untyped objects over a range *)

Lemma trailing_zeros_counts : counts_trailing_zeros trailing_zeros.
Proof.
  intros [|p|p] Ha; [lia| |lia]. cbn [trailing_zeros]. clear Ha.
  induction p as [p _|p IH|].
  - cbn [trailing_zeros_of]. split; [lia|]. split; [reflexivity|]. intros i Hi. lia.
  - cbn [trailing_zeros_of]. destruct IH as (Hpos & Hset & Hlow).
    split; [lia|]. split.
    + change (Z.pos p~0) with (2 * Z.pos p). by rewrite Z.testbit_even_succ.
    + intros i Hi. change (Z.pos p~0) with (2 * Z.pos p).
      destruct (Z.eq_dec i 0) as [->|Hne]; [apply Z.testbit_even_0|].
      replace i with (Z.succ (i - 1)) by lia.
      rewrite Z.testbit_even_succ by lia. apply Hlow. lia.
  - cbn [trailing_zeros_of]. split; [lia|]. split; [reflexivity|]. intros i Hi. lia.
Qed.

Lemma fit_untyped_spec (k : nat) (turns : nat) (remaining : Z) :
  (k < turns)%nat -> 1 <= remaining ->
  exists m, 0 <= m <= Z.of_nat k
            /\ fit_untyped turns (2 ^ Z.of_nat k) remaining = Done (2 ^ m)
            /\ 2 ^ m <= remaining
            /\ (m = Z.of_nat k \/ remaining < 2 ^ (m + 1)).
Proof.
  revert turns. induction k as [|k IH]; intros turns Hturns Hr;
    (destruct turns as [|turns]; [lia|]); cbn [fit_untyped].
  - exists 0. change (2 ^ Z.of_nat 0) with 1. cbn [Z.gtb Z.compare].
    destruct (Z.leb_spec 1 remaining); [|lia].
    repeat split; [lia | lia | lia | by left].
  - assert (Hpow : 0 < 2 ^ Z.of_nat (S k)) by (apply Z.pow_pos_nonneg; lia).
    destruct (Z.gtb_spec (2 ^ Z.of_nat (S k)) 0); [|lia].
    destruct (Z.leb_spec (2 ^ Z.of_nat (S k)) remaining) as [Hle|Hgt].
    + exists (Z.of_nat (S k)). repeat split; [lia | lia | exact Hle | by left].
    + assert (Hhalf : 2 ^ Z.of_nat (S k) / 2 = 2 ^ Z.of_nat k).
      { rewrite Nat2Z.inj_succ, Z.pow_succ_r by lia.
        rewrite Z.mul_comm, Z.div_mul by lia. reflexivity. }
      rewrite Hhalf.
      destruct (IH turns ltac:(lia) Hr) as (m & Hm & Hfit & Hle & Hmax).
      exists m. repeat split; [lia | lia | exact Hfit | exact Hle |].
      right. destruct Hmax as [->|Hlt]; [|exact Hlt].
      by replace (Z.of_nat k + 1) with (Z.of_nat (S k)) by lia.
Qed.

Lemma covers_snoc (limit from : Z) (uts : list (Z * Z)) (address bits : Z) :
  covers limit from uts address ->
  0 <= bits -> address mod 2 ^ bits = 0 -> address + 2 ^ bits <= limit ->
  (limit < address + 2 ^ (bits + 1) \/ address mod 2 ^ (bits + 1) <> 0) ->
  covers limit from (uts ++ [(address, bits)]) (address + 2 ^ bits).
Proof.
  revert from. induction uts as [|[a b] uts IH]; intros from; cbn [covers app].
  - intros <- Hbits Halign Hin Hmax. by repeat split.
  - intros (-> & Hb & Ha & Hin' & Hmax' & Hrest) Hbits Halign Hin Hmax.
    repeat split; try done. by apply IH.
Qed.

Section UntypedsFacts.
Variable ctz : Z -> Z.
Hypothesis ctz_counts : counts_trailing_zeros ctz.

Lemma ctz_of_power (m : Z) : 0 <= m -> ctz (2 ^ m) = m.
Proof.
  intros Hm. destruct (ctz_counts (2 ^ m)) as (Hpos & Hset & _);
    [apply Z.pow_pos_nonneg; lia|].
  rewrite Z.pow2_bits_eqb in Hset by lia. apply Z.eqb_eq in Hset. lia.
Qed.

Lemma ctz_aligned (a m : Z) :
  0 < a -> 0 <= m <= ctz a -> a mod 2 ^ m = 0.
Proof.
  intros Ha Hm. destruct (ctz_counts a Ha) as (_ & _ & Hlow).
  apply Z.bits_inj'. intros n Hn. rewrite Z.bits_0.
  destruct (Z.lt_ge_cases n m) as [Hlt|Hge].
  - rewrite Z.mod_pow2_bits_low by lia. apply Hlow. lia.
  - apply Z.mod_pow2_bits_high. lia.
Qed.

Lemma ctz_not_more_aligned (a : Z) : 0 < a -> a mod 2 ^ (ctz a + 1) <> 0.
Proof.
  intros Ha Hmod. destruct (ctz_counts a Ha) as (Hpos & Hset & _).
  rewrite <- (Z.mod_pow2_bits_low a (ctz a + 1)), Hmod, Z.bits_0 in Hset by lia.
  discriminate.
Qed.

Lemma untypeds_loop_covers (turns : nat) (start current remaining : Z)
    (uts : list (Z * Z)) :
  0 < current -> 0 <= remaining -> (Z.to_nat remaining <= turns)%nat ->
  covers (current + remaining) start uts current ->
  exists all,
    untypeds_loop ctz turns current remaining uts = Done all
    /\ covers (current + remaining) start all (current + remaining).
Proof.
  revert current remaining uts.
  induction turns as [|turns IH]; intros current remaining uts Hcur Hrem Hturns Hcov.
  - assert (remaining = 0) as -> by lia. cbn [untypeds_loop Z.gtb Z.compare].
    exists uts. split; [reflexivity|]. by rewrite Z.add_0_r in *.
  - cbn [untypeds_loop].
    destruct (Z.gtb_spec remaining 0) as [Hpos|Hzero].
    + destruct (ctz_counts current Hcur) as (Hk & _ & _).
      destruct (Z.ltb_spec (ctz current) 0) as [?|_]; [lia|].
      cbv zeta. rewrite Z.log2_pow2 by lia.
      destruct (fit_untyped_spec (Z.to_nat (ctz current))
                  (S (Z.to_nat (ctz current))) remaining ltac:(lia) ltac:(lia))
        as (m & Hm & Hfit & Hle & Hmax).
      rewrite Z2Nat.id in Hfit, Hm, Hmax by lia. rewrite Hfit.
      rewrite ctz_of_power by lia.
      assert (Hpow : 0 < 2 ^ m) by (apply Z.pow_pos_nonneg; lia).
      destruct (IH (current + 2 ^ m) (remaining - 2 ^ m) (uts ++ [(current, m)]))
        as (all & Hall & Hcovers); [lia | lia | lia | |].
      * replace (current + 2 ^ m + (remaining - 2 ^ m)) with (current + remaining) by lia.
        apply covers_snoc; [exact Hcov | lia | by apply ctz_aligned | lia |].
        destruct Hmax as [->|Hlt]; [right; by apply ctz_not_more_aligned | left; lia].
      * exists all. split; [exact Hall|].
        by replace (current + 2 ^ m + (remaining - 2 ^ m)) with (current + remaining)
          in Hcovers by lia.
    + assert (remaining = 0) as -> by lia.
      exists uts. split; [reflexivity|]. by rewrite Z.add_0_r in *.
Qed.

(** X26: for a positive start and a size that is not negative,
    [get_untypeds_from_range] returns untypeds that follow one another
    from [start] to [start + size] without a gap, each aligned to its own
    size, and each as large as it can be: twice the size would pass the
    end of the range or would not be aligned.  This holds for every [ctz]
    that gives the position of the lowest set bit. *)
Theorem get_untypeds_from_range_covers (start size : Z) :
  0 < start -> 0 <= size ->
  exists uts,
    get_untypeds_from_range ctz start size = Done uts
    /\ covers (start + size) start uts (start + size).
Proof.
  intros Hstart Hsize. unfold get_untypeds_from_range.
  apply untypeds_loop_covers; [exact Hstart | exact Hsize | lia | reflexivity].
Qed.
End UntypedsFacts.

Lemma get_untypeds_from_range_covers_witness :
  exists uts,
    get_untypeds_from_range trailing_zeros 4096 12288 = Done uts
    /\ covers (4096 + 12288) 4096 uts (4096 + 12288).
Proof.
  apply (get_untypeds_from_range_covers trailing_zeros trailing_zeros_counts 4096 12288);
    lia.
Defined.
